(** * go-ipfs: DagPut, UrlAdd, peer IDs and the swarm API

    A shallow embedding of
    - [core/commands/dag/dag.go]   (the [dag put] command with [addAllAndPin],
                                    and the output of [dag resolve]),
    - [core/commands/urlstore.go]  (the [urlstore add] command),
    - the [peer] package            (building, printing and comparing IDs),
    - [core/coreapi/swarm.go]      ([Disconnect], [KnownAddrs]),
    together with the properties the design document states about them and
    further properties of the code.

    Go values are modelled as follows: a Go [string] is a [string] (a sequence
    of 8-bit characters), a [[]byte] is a [list byte], [int], [int64] and
    [uint64] are [Z] with the conversions written out, an [error] result is an
    [option error] ([None] is [nil]), and a [(T, error)] result is a sum
    [error + T]. *)

From Stdlib Require Import ZArith NArith List String Ascii DecimalString Lia.
From Stdlib Require Import Permutation.
From Stdlib.Strings Require Import Byte.
From stdpp Require Import base gmap strings list sorting.
Import ListNotations.

(** * Positional numerals

    Both text encodings of a peer ID read a byte string as one big-endian
    number in base 256 and write it in another base. *)

Module Radix.
Local Open Scope N_scope.

(** Least-significant digit first, [fuel] bounding the number of digits. *)
Fixpoint digits_le (fuel : nat) (base n : N) : list N :=
  match fuel with
  | O => []
  | S fuel' => if n =? 0 then [] else n mod base :: digits_le fuel' base (n / base)
  end.

Fixpoint value_le (base : N) (ds : list N) : N :=
  match ds with
  | [] => 0
  | d :: ds' => d + base * value_le base ds'
  end.

(** Most-significant digit first, no leading zero; [0] is the empty numeral. *)
Definition to_base (base n : N) : list N :=
  rev (digits_le (N.to_nat (N.size n)) base n).

Definition of_base (base : N) (ds : list N) : N :=
  value_le base (rev ds).

(** Number of leading elements of [l] that satisfy [p]. *)
Fixpoint count_leading {A} (p : A -> bool) (l : list A) : nat :=
  match l with
  | x :: l' => if p x then S (count_leading p l') else O
  | [] => O
  end.

Fixpoint strip_leading {A} (p : A -> bool) (l : list A) : list A :=
  match l with
  | x :: l' => if p x then strip_leading p l' else l
  | [] => []
  end.

(** A numeral is canonical when its digits are in range and the most
    significant one (the last of a least-significant-first list) is not 0. *)
Fixpoint canonical_le (base : N) (ds : list N) : Prop :=
  match ds with
  | [] => True
  | d :: ds' => d < base /\ (ds' = [] -> d <> 0) /\ canonical_le base ds'
  end.

End Radix.

(** * Errors

    [errors.New] and [fmt.Errorf] build an error from its message; [Error]
    is the method of the same name. *)

Inductive error : Type := errorString (s : string).

Definition Error (e : error) : string := let 'errorString s := e in s.

(** The [%d] verb. *)
Definition fmt_d (z : Z) : string := NilZero.string_of_int (Z.to_int z).

(** [uint64(x)], [int64(x)] and [int(x)]; [int] is 64 bits wide, as on the
    amd64 and arm64 targets. *)
Definition to_uint64 (x : Z) : Z := x mod 2 ^ 64.
Definition to_int64 (x : Z) : Z := (x + 2 ^ 63) mod 2 ^ 64 - 2 ^ 63.
Definition to_int (x : Z) : Z := to_int64 x.
Definition is_int64 (x : Z) : Prop := (- 2 ^ 63 <= x < 2 ^ 63)%Z.

(** * Base58 *)

(** Modelled from the spec: package [base58] ([b58.Encode], [b58.Decode]) is
    not among the sources.  The spec names the CID as a self-describing
    address and says nothing of its text form; the model is the positional
    encoding over the Bitcoin alphabet that the package implements: every
    leading zero byte becomes one ['1'], the remaining bytes, read as a
    big-endian number, become its base-58 digits. *)
Module Base58.
Import Radix.

Definition alphabet : string :=
  "123456789ABCDEFGHJKLMNPQRSTUVWXYZabcdefghijkmnopqrstuvwxyz".

Definition digit_char (d : N) : ascii :=
  nth (N.to_nat d) (list_ascii_of_string alphabet) "1"%char.

Fixpoint index_of (c : ascii) (l : list ascii) (i : N) : option N :=
  match l with
  | [] => None
  | x :: l' => if Ascii.eqb x c then Some i else index_of c l' (N.succ i)
  end.

Definition char_digit (c : ascii) : option N :=
  index_of c (list_ascii_of_string alphabet) 0%N.

Fixpoint digits_of (cs : list ascii) : option (list N) :=
  match cs with
  | [] => Some []
  | c :: cs' =>
      match char_digit c, digits_of cs' with
      | Some d, Some ds => Some (d :: ds)
      | _, _ => None
      end
  end.

Definition byte_of_N (d : N) : byte :=
  match Byte.of_N d with Some b => b | None => x00 end.

Definition Encode (bin : list byte) : string :=
  let zcount := count_leading (Byte.eqb x00) bin in
  let n := of_base 256 (map Byte.to_N bin) in
  string_of_list_ascii (repeat "1"%char zcount ++ map digit_char (to_base 58 n)).

Definition Decode (str : string) : error + list byte :=
  if (String.length str =? 0)%nat then inl (errorString "zero length string")
  else
    match digits_of (list_ascii_of_string str) with
    | None => inl (errorString "invalid base58 digit")
    | Some ds =>
        let zcount := count_leading (N.eqb 0) ds in
        inr (repeat x00 zcount ++ map byte_of_N (to_base 256 (of_base 58 ds)))
    end.

End Base58.

(** * Hexadecimal *)

(** Modelled from the spec: package [encoding/hex] of the Go library
    ([hex.EncodeToString], [hex.DecodeString]) is not among the sources.
    Encoding writes every byte as two digits of [0123456789abcdef], high
    nibble first; decoding reads pairs of digits in either case, and fails
    on any other character and on an odd number of characters. *)
Module Hex.

Definition hextable : string := "0123456789abcdef".

Definition hexdigit (d : N) : ascii :=
  nth (N.to_nat d) (list_ascii_of_string hextable) "0"%char.

Definition fromHexChar (c : ascii) : option N :=
  let v := N_of_ascii c in
  if ((48 <=? v) && (v <=? 57))%N then Some (v - 48)%N
  else if ((97 <=? v) && (v <=? 102))%N then Some (v - 97 + 10)%N
  else if ((65 <=? v) && (v <=? 70))%N then Some (v - 65 + 10)%N
  else None.

Definition ErrLength : error := errorString "encoding/hex: odd length hex string".

(** [strconv.IsPrint] on a rune below 256, and the UTF-8 form of such a
    rune. *)
Definition IsPrint (v : N) : bool :=
  ((32 <=? v) && (v <? 127) || (161 <=? v) && (v <=? 255) && negb (v =? 173))%N.

Definition utf8 (v : N) : string :=
  if (v <? 128)%N then String (ascii_of_N v) EmptyString
  else String (ascii_of_N (N.lor 192 (N.shiftr v 6)))
         (String (ascii_of_N (N.lor 128 (N.land v 63))) EmptyString).

(** [fmt.Sprintf("%#U", rune(c))]: the code point as [U+00XX], followed by
    the quoted character when it is printable. *)
Definition sharp_U (c : ascii) : string :=
  let v := N_of_ascii c in
  let digit d := nth (N.to_nat d) (list_ascii_of_string "0123456789ABCDEF") "0"%char in
  "U+00" +:+ String (digit (N.shiftr v 4)) (String (digit (N.land v 15)) EmptyString)
  +:+ (if IsPrint v then " '" +:+ utf8 v +:+ "'" else EmptyString).

Definition InvalidByteError (c : ascii) : error :=
  errorString ("encoding/hex: invalid byte: " +:+ sharp_U c).

Fixpoint Encode (src : list byte) : list ascii :=
  match src with
  | [] => []
  | b :: src' =>
      let v := Byte.to_N b in
      hexdigit (N.shiftr v 4) :: hexdigit (N.land v 15) :: Encode src'
  end.

Definition EncodeToString (src : list byte) : string :=
  string_of_list_ascii (Encode src).

Fixpoint Decode (src : list ascii) : error + list byte :=
  match src with
  | [] => inr []
  | [c] =>
      match fromHexChar c with
      | None => inl (InvalidByteError c)
      | Some _ => inl ErrLength
      end
  | c1 :: c2 :: src' =>
      match fromHexChar c1 with
      | None => inl (InvalidByteError c1)
      | Some a =>
          match fromHexChar c2 with
          | None => inl (InvalidByteError c2)
          | Some b =>
              match Decode src' with
              | inl e => inl e
              | inr dst => inr (Base58.byte_of_N (N.lor (N.shiftl a 4) b) :: dst)
              end
          end
      end
  end.

Definition DecodeString (s : string) : error + list byte :=
  Decode (list_ascii_of_string s).

End Hex.

(** * Multihash *)

(** Modelled from the spec: package [go-multihash] ([mh.Cast],
    [mh.FromB58String]) is not among the sources.  The spec gives a
    multihash as (hash function id, digest); on the wire that is a varint
    code, a varint digest length and the digest, and [Cast] accepts a buffer
    exactly when it has that shape with a known code, and then returns the
    buffer itself. *)
Module Multihash.

Definition ErrTooShort := errorString "multihash too short. must be >= 2 bytes".
Definition ErrUnknownCode := errorString "unknown multihash code".
Definition ErrInvalidMultihash := errorString "input isn't valid multihash".
Definition ErrVarintBufferSmall := errorString "reading varint: buffer too small".
Definition ErrVarintTooLong :=
  errorString "reading varint: varint bigger than 64bits and not supported".
Definition ErrInconsistentLen := errorString "multihash length inconsistent".
Definition ErrDigestTooLong :=
  errorString "digest too long, supporting only <= 2^31-1".

(** [binary.Uvarint]: the value and the number of bytes read; [0] when the
    buffer ends inside the number, negative on overflow. *)
Fixpoint Uvarint_from (buf : list byte) (i : Z) (s x : Z) : Z * Z :=
  match buf with
  | [] => (0, 0)%Z
  | b :: buf' =>
      let v := Z.of_N (Byte.to_N b) in
      if (v <? 128)%Z then
        if ((9 <? i) || ((i =? 9) && (1 <? v)))%Z then (0, - (i + 1))%Z
        else (Z.lor x (to_uint64 (Z.shiftl v s)), i + 1)%Z
      else
        Uvarint_from buf' (i + 1)
          (s + 7) (Z.lor x (to_uint64 (Z.shiftl (Z.land v 127) s)))
  end.

Definition Uvarint (buf : list byte) : Z * Z := Uvarint_from buf 0 0 0.

Definition uvarint (buf : list byte) : error + (Z * list byte) :=
  let '(n, c) := Uvarint buf in
  if (c =? 0)%Z then inl ErrVarintBufferSmall
  else if (c <? 0)%Z then inl ErrVarintTooLong
  else inr (n, skipn (Z.to_nat c) buf).

Record DecodedMultihash := {
  Code : Z;
  Length : Z;
  Digest : list byte;
}.

Definition Decode (buf : list byte) : error + DecodedMultihash :=
  if (length buf <? 2)%nat then inl ErrTooShort
  else
    match uvarint buf with
    | inl e => inl e
    | inr (code, buf1) =>
        match uvarint buf1 with
        | inl e => inl e
        | inr (len, buf2) =>
            if (2 ^ 31 - 1 <? len)%Z then inl ErrDigestTooLong
            else if (Z.of_nat (length buf2) =? len)%Z
                 then inr {| Code := code; Length := len; Digest := buf2 |}
                 else inl ErrInconsistentLen
        end
    end.

Section Codes.
(** The table [Codes], through [ValidCode]. *)
Variable ValidCode : Z -> bool.

Definition Cast (buf : list byte) : error + list byte :=
  match Decode buf with
  | inl e => inl e
  | inr dm => if ValidCode (Code dm) then inr buf else inl ErrUnknownCode
  end.

Definition FromB58String (s : string) : error + list byte :=
  match Base58.Decode s with
  | inl _ => inl ErrInvalidMultihash
  | inr b => Cast b
  end.

Definition FromHexString (s : string) : error + list byte :=
  match Hex.DecodeString s with
  | inl e => inl e
  | inr b => Cast b
  end.

End Codes.
End Multihash.

(** * Package [peer] *)

Module peer.

(** [type ID string] *)
Definition ID := string.

Section Codes.
Variable ValidCode : Z -> bool.

Definition IDB58Decode (s : string) : ID * option error :=
  match Multihash.FromB58String ValidCode s with
  | inl e => (EmptyString, Some e)
  | inr m => (string_of_list_byte m, None)
  end.

End Codes.

Definition IDB58Encode (id : ID) : string :=
  Base58.Encode (list_byte_of_string id).


(** [ErrEmptyPeerID] and [ErrNoPublicKey] *)
Definition ErrEmptyPeerID : error := errorString "empty peer ID".
Definition ErrNoPublicKey : error :=
  errorString "public key is not embedded in peer ID".

Definition Pretty (id : ID) : string := IDB58Encode id.

(** [len(s)] and [s[lo:hi]]; a slice out of range panics ([None]). *)
Definition len (s : string) : Z := Z.of_nat (String.length s).

Definition slice (s : string) (lo hi : Z) : option string :=
  if ((0 <=? lo) && (lo <=? hi) && (hi <=? len s))%Z
  then Some (substring (Z.to_nat lo) (Z.to_nat (hi - lo)) s)
  else None.

(** The method [String]; [None] is a panic. *)
Definition ID_String (id : ID) : option string :=
  let pid := Pretty id in
  if (len pid <=? 10)%Z then Some ("<peer.ID " +:+ pid +:+ ">")
  else
    match slice pid 0 2, slice pid (len pid - 6) (len pid) with
    | Some head, Some tail => Some ("<peer.ID " +:+ head +:+ "*" +:+ tail +:+ ">")
    | _, _ => None
    end.

Definition Validate (id : ID) : option error :=
  if String.eqb id EmptyString then Some ErrEmptyPeerID else None.

Definition IDHexEncode (id : ID) : string :=
  Hex.EncodeToString (list_byte_of_string id).

Section Casts.
Variable ValidCode : Z -> bool.

Definition IDFromString (s : string) : ID * option error :=
  match Multihash.Cast ValidCode (list_byte_of_string s) with
  | inl e => (EmptyString, Some e)
  | inr _ => (s, None)
  end.

Definition IDFromBytes (b : list byte) : ID * option error :=
  match Multihash.Cast ValidCode b with
  | inl e => (EmptyString, Some e)
  | inr _ => (string_of_list_byte b, None)
  end.

Definition IDHexDecode (s : string) : ID * option error :=
  match Multihash.FromHexString ValidCode s with
  | inl e => (EmptyString, Some e)
  | inr m => (string_of_list_byte m, None)
  end.

End Casts.

(** Keys, as far as the package looks at them: [ic.PubKey] serialises with
    [Bytes], [ic.PrivKey] gives its public key with [GetPublic]. *)
Record PubKey := mkPubKey { PubKey_Bytes : error + list byte }.
Record PrivKey := mkPrivKey { GetPublic : PubKey }.

(** [mh.SHA2_256] and [mh.ID] *)
Definition SHA2_256 : Z := 18.
Definition mh_ID : Z := 0.

Section Keys.
(** [mh.Sum(data, code, length)] and [ic.UnmarshalPublicKey]. *)
Variable Sum : list byte -> Z -> Z -> list byte * option error.
Variable UnmarshalPublicKey : list byte -> error + PubKey.

Definition IDFromPublicKey (pk : PubKey) : ID * option error :=
  match PubKey_Bytes pk with
  | inl e => (EmptyString, Some e)
  | inr b =>
      let '(hash, _) := Sum b SHA2_256 (-1) in
      (string_of_list_byte hash, None)
  end.

Definition IDFromPrivateKey (sk : PrivKey) : ID * option error :=
  IDFromPublicKey (GetPublic sk).

Definition MatchesPublicKey (id : ID) (pk : PubKey) : bool :=
  match IDFromPublicKey pk with
  | (_, Some _) => false
  | (oid, None) => String.eqb oid id
  end.

Definition MatchesPrivateKey (id : ID) (sk : PrivKey) : bool :=
  MatchesPublicKey id (GetPublic sk).

Definition ExtractPublicKey (id : ID) : option PubKey * option error :=
  match Multihash.Decode (list_byte_of_string id) with
  | inl e => (None, Some e)
  | inr decoded =>
      if negb (Multihash.Code decoded =? mh_ID)%Z then (None, Some ErrNoPublicKey)
      else
        match UnmarshalPublicKey (Multihash.Digest decoded) with
        | inl e => (None, Some e)
        | inr pk => (Some pk, None)
        end
  end.

End Keys.

(** [IDSlice], for sorting peers; an index out of range panics ([None]). *)
Definition IDSlice := list ID.

Definition index (es : IDSlice) (i : Z) : option ID :=
  if (i <? 0)%Z then None else es !! Z.to_nat i.

Definition Len (es : IDSlice) : Z := Z.of_nat (length es).

Definition Swap (es : IDSlice) (i j : Z) : option IDSlice :=
  match index es i, index es j with
  | Some a, Some b => Some (<[Z.to_nat j := a]> (<[Z.to_nat i := b]> es))
  | _, _ => None
  end.

Definition Less (es : IDSlice) (i j : Z) : option bool :=
  match index es i, index es j with
  | Some a, Some b => Some (String.ltb a b)
  | _, _ => None
  end.

End peer.

(** * The node and its collaborators *)

(** [cid.Cid] wraps the string form of the identifier; sets and maps of CIDs
    are keyed by it. *)
Abbreviation Cid := string (only parsing).

(** Modelled from the spec: [ipld.Node] (package [go-ipld-format]) is not
    among the sources.  A node is an immutable payload with its derived
    CID; the commands read nothing else of it. *)
Record Node := mkNode {
  Node_Cid : Cid;
  RawData : list byte;
}.

(** Modelled from the spec: [files.File] (package [go-ipfs-files]) is not
    among the sources.  It is one input unit handed to the command: named
    input bytes. *)
Record File := mkFile {
  FileName : string;
  FileData : list byte;
}.

(** Modelled from the spec: [pin.Mode] (package [pin]) is not among the
    sources.  A pin entry has a mode among Direct, Recursive and Indirect. *)
Inductive Mode : Type := Recursive | Direct | Indirect.

(** [OutputObject] is the output type of the 'dag put' command. *)
Record OutputObject := mkOutputObject { OutputObject_Cid : Cid }.

(** Modelled from the spec: [BlockStat], the output type of 'urlstore add',
    is declared in a file that is not among the sources.  It is the
    record {Cid, Size}, the CID in its string form under the name [Key]. *)
Record BlockStat := mkBlockStat {
  Key : string;
  Size : Z;
}.

(** [http.Response], as far as [urlAdd] reads it. *)
Record Response := mkResponse {
  StatusCode : Z;
  ContentLength : Z;
  Body : list byte;
}.

(** [http.Request] as built by [http.NewRequest]. *)
Record Request := mkRequest {
  Method : string;
  URL : string;
}.

(** Modelled from the spec: [ihelper.DagBuilderParams] (package
    [go-unixfs]) is not among the sources.  These are the fields [urlAdd]
    sets: raw-leaf leaves, the maximal number of links per node, and
    where the raw data stays. *)
Record DagBuilderParams := mkDagBuilderParams {
  RawLeaves : bool;
  Maxlinks : Z;
  NoCopy : bool;
  CidBuilder : Z * Z * Z;
  DagBuilderParams_URL : string;
}.

(** What a run does to its collaborators, in program order. *)
Inductive Event : Type :=
| EvNextFile
| EvParseInputs (file : File)
| EvBatchAdd (c : Cid)
| EvSend (o : OutputObject)
| EvClose
| EvCommit (err : option error)
| EvPinLock
| EvUnlock
| EvPinWithMode (c : Cid) (m : Mode)
| EvFlush (err : option error)
| EvHTTPDo (r : Request)
| EvLayout (trickle : bool) (p : DagBuilderParams)
| EvEmitOnce (bs : BlockStat).

(** A deferred call, run when the enclosing function returns. *)
Inductive Deferred : Type :=
| DeferUnlock
| DeferClose.

(** Modelled from the spec: [core.IpfsNode] and the packages behind its
    fields are not among the sources.  The state shared between a command
    and the rest of the node is the Pin Manager (the mapping CID -> mode
    [pins], its flushed copy [durable_pins], and whether the pin lock is
    held) and the persistence layer [store] behind [nd.DAG]; with it go
    the values buffered in the result channel [outChan], the deferred calls
    of the running function, most recent first, and the events so far. *)
Record World := mkWorld {
  pins : gmap string Mode;
  durable_pins : gmap string Mode;
  pin_locked : bool;
  store : gmap string Node;
  outChan : list OutputObject;
  defers : list Deferred;
  trace : list Event;
}.

(** The conditions a [select] on the result channel meets when it resolves:
    how many buffered values the consumer has received since the last send,
    whether the request context is done, and which case the runtime picks
    when both are ready. *)
Record SelectEnv := mkSelectEnv {
  drained : nat;
  ctx_done : bool;
  pick_send : bool;
}.

(** Modelled from the spec: [config.Config] is not among the sources; of
    the process configuration [urlAdd] reads one experimental flag. *)
Record Config := mkConfig { UrlstoreEnabled : bool }.

(** Everything the commands call but do not define: the results of the
    collaborators, each free to depend on the state it is called in. *)
Record Env := mkEnv {
  GetNode : error + unit;
  Names : gmap string Z;
  ParseInputs : string -> string -> File -> Z -> Z -> error + list Node;
  Batch_Add_err : World -> Node -> option error;
  Batch_Commit_err : World -> option error;
  Batch_persists : World -> Cid -> bool;
  Pinning_Flush_err : World -> option error;
  select_env : World -> SelectEnv;
  res_Emit : World -> option error;
  IsURL : string -> bool;
  Repo_Config : error + Config;
  NewRequest : string -> string -> error + Request;
  Client_Do : Request -> error + Response;
  DefaultBlockSize : Z;
  DefaultLinksPerBlock : Z;
  balanced_Layout : DagBuilderParams -> Z -> list byte -> error + Node;
  trickle_Layout : DagBuilderParams -> Z -> list byte -> error + Node;
  Cid_String : Cid -> string;
  EmitOnce_err : World -> option error;
}.

(** ** State updates *)

Definition record (ev : Event) (w : World) : World :=
  {| pins := pins w; durable_pins := durable_pins w; pin_locked := pin_locked w;
     store := store w; outChan := outChan w; defers := defers w;
     trace := trace w ++ [ev] |}.

Definition set_pins (p : gmap string Mode) (w : World) : World :=
  {| pins := p; durable_pins := durable_pins w; pin_locked := pin_locked w;
     store := store w; outChan := outChan w; defers := defers w;
     trace := trace w |}.

Definition set_durable_pins (p : gmap string Mode) (w : World) : World :=
  {| pins := pins w; durable_pins := p; pin_locked := pin_locked w;
     store := store w; outChan := outChan w; defers := defers w;
     trace := trace w |}.

Definition set_pin_locked (l : bool) (w : World) : World :=
  {| pins := pins w; durable_pins := durable_pins w; pin_locked := l;
     store := store w; outChan := outChan w; defers := defers w;
     trace := trace w |}.

Definition set_store (s : gmap string Node) (w : World) : World :=
  {| pins := pins w; durable_pins := durable_pins w; pin_locked := pin_locked w;
     store := s; outChan := outChan w; defers := defers w;
     trace := trace w |}.

Definition set_outChan (q : list OutputObject) (w : World) : World :=
  {| pins := pins w; durable_pins := durable_pins w; pin_locked := pin_locked w;
     store := store w; outChan := q; defers := defers w;
     trace := trace w |}.

Definition set_defers (d : list Deferred) (w : World) : World :=
  {| pins := pins w; durable_pins := durable_pins w; pin_locked := pin_locked w;
     store := store w; outChan := outChan w; defers := d;
     trace := trace w |}.

(** ** Control flow

    A statement either falls through with a value, returns from the
    enclosing function with an error value, or never resumes. *)
Inductive Outcome (A : Type) : Type :=
| Next (a : A)
| Return (e : option error)
| Blocked.
Arguments Next {A} a.
Arguments Return {A} e.
Arguments Blocked {A}.

Definition M (A : Type) : Type := World -> Outcome A * World.

Definition ret {A} (a : A) : M A := fun w => (Next a, w).

Definition bind {A B} (m : M A) (k : A -> M B) : M B := fun w =>
  match m w with
  | (Next a, w') => k a w'
  | (Return e, w') => (Return e, w')
  | (Blocked, w') => (Blocked, w')
  end.

(** [return e] *)
Definition return_ {A} (e : option error) : M A := fun w => (Return e, w).

Definition log (ev : Event) : M unit := fun w => (Next tt, record ev w).

Notation "x <- c ;; k" := (bind c (fun x => k))
  (at level 100, c at next level, right associativity).
Notation "c ;;; k" := (bind c (fun _ => k))
  (at level 100, right associativity).
(** [x, err := c; if err != nil { return err }] *)
Notation "'try' x <- c ;; k" :=
  (bind c (fun r => match r with inl e => return_ (Some e) | inr x => k end))
  (at level 100, x name, c at next level, right associativity).
(** [if err := c; err != nil { return err }] *)
Notation "'check' c ;; k" :=
  (bind c (fun r => match r with Some e => return_ (Some e) | None => k end))
  (at level 100, c at next level, right associativity).

(** What a function call comes to: it returns an error value, or it never
    returns. *)
Inductive Result : Type :=
| Returned (e : option error)
| Blocks.

Definition run_deferred (d : Deferred) (w : World) : World :=
  match d with
  | DeferUnlock => record EvUnlock (set_pin_locked false w)
  | DeferClose => record EvClose w
  end.

Definition run_defers (w : World) : World :=
  set_defers [] (fold_left (fun w' d => run_deferred d w') (defers w) w).

(** A function body with its own deferred calls: they run, last deferred
    first, on every return, and the caller's are untouched. *)
Definition func (body : M unit) : M Result := fun w =>
  let saved := defers w in
  match body (set_defers [] w) with
  | (Next _, w') => (Next (Returned None), set_defers saved (run_defers w'))
  | (Return e, w') => (Next (Returned e), set_defers saved (run_defers w'))
  | (Blocked, w') => (Next Blocks, set_defers saved w')
  end.

Definition defer_ (d : Deferred) : M unit := fun w =>
  (Next tt, set_defers (d :: defers w) w).

Definition blocked {A} : M A := fun w => (Blocked, w).

(** The value a finished call hands to the statement that waits for it. *)
Definition deliver (r : Result) : M unit :=
  match r with
  | Returned e => return_ e
  | Blocks => blocked
  end.

(** ** The collaborators' operations *)

(** [cmdenv.GetNode(env)] *)
Definition cmdenv_GetNode (env : Env) : M (error + unit) := fun w =>
  (Next (GetNode env), w).

(** [coredag.ParseInputs(ienc, format, file, mhType, -1)] *)
Definition coredag_ParseInputs (env : Env) (ienc format : string) (file : File)
    (mhType : Z) (mhLen : Z) : M (error + list Node) := fun w =>
  (Next (ParseInputs env ienc format file mhType mhLen), record (EvParseInputs file) w).

(** Modelled from the spec: [ipld.NewBatch] (package [go-ipld-format]) is
    not among the sources.  A batch is a staging area mapping CID to
    pending node, empty when created. *)
Definition NewBatch : gmap string Node := ∅.

(** Modelled from the spec: automatic flushing.  The batch may write staged
    nodes through to the store before [Commit] to bound its memory, and a
    failing [Commit] guarantees nothing about which staged nodes were
    persisted.  Which of the staged nodes [b] have reached the store by the
    time the call made in [w] returns is the collaborator's to say. *)
Definition written_through (env : Env) (w : World) (b : gmap string Node)
    : gmap string Node :=
  filter (fun kv => Batch_persists env w (fst kv) = true) b.

Definition still_staged (env : Env) (w : World) (b : gmap string Node)
    : gmap string Node :=
  filter (fun kv => Batch_persists env w (fst kv) = false) b.

(** Staging [nd] under its CID; re-adding an already-staged or
    already-persisted CID is a no-op. *)
Definition stage (b : gmap string Node) (nd : Node) (s : gmap string Node)
    : gmap string Node :=
  match b !! Node_Cid nd, s !! Node_Cid nd with
  | None, None => <[Node_Cid nd := nd]> b
  | _, _ => b
  end.

(** Modelled from the spec: the batch's [Add] is not among the sources.
    It stages the node under its CID, and staged nodes may be flushed to
    the store as it goes.  Whether it fails is the collaborator's to say;
    a failing [Add] stages nothing. *)
Definition Batch_Add (env : Env) (b : gmap string Node) (nd : Node)
    : M (error + gmap string Node) := fun w =>
  let w' := record (EvBatchAdd (Node_Cid nd)) w in
  match Batch_Add_err env w nd with
  | Some e => (Next (inl e), set_store (written_through env w b ∪ store w) w')
  | None =>
      let b' := stage b nd (store w) in
      (Next (inr (still_staged env w b')),
       set_store (written_through env w b' ∪ store w) w')
  end.

(** Modelled from the spec: the batch's [Commit] is not among the sources.
    It persists every staged node, or reports the first failure, after
    which any part of the staged nodes may have been persisted. *)
Definition Batch_Commit (env : Env) (b : gmap string Node) : M (option error) := fun w =>
  let err := Batch_Commit_err env w in
  let w' := record (EvCommit err) w in
  match err with
  | Some e => (Next (Some e), set_store (written_through env w b ∪ store w) w')
  | None => (Next None, set_store (b ∪ store w) w')
  end.

(** Modelled from the spec: [nd.Blockstore.PinLock()] (package
    [go-ipfs-blockstore]) is not among the sources.  It takes the
    process-wide exclusive pin lock and returns the guard whose [Unlock]
    (see [run_deferred]) releases it.  While another party holds the lock
    the caller waits for it; nothing in a run taken by itself releases a
    lock that someone else holds, so the caller then stays parked. *)
Definition PinLock : M unit := fun w =>
  if pin_locked w then (Blocked, w)
  else (Next tt, record EvPinLock (set_pin_locked true w)).

(** Modelled from the spec: [nd.Pinning.PinWithMode(c, mode)] (package
    [pin]) is not among the sources.  It marks [c] with [mode] in the
    mapping CID -> mode; an indirect entry is derived, never set. *)
Definition PinWithMode (c : Cid) (mode : Mode) : M unit := fun w =>
  let p := match mode with
           | Indirect => pins w
           | _ => <[c := mode]> (pins w)
           end in
  (Next tt, record (EvPinWithMode c mode) (set_pins p w)).

(** Modelled from the spec: [nd.Pinning.Flush()] (package [pin]) is not
    among the sources.  It persists the pin set to durable storage, or
    fails and leaves the durable copy as it was. *)
Definition Flush (env : Env) : M (option error) := fun w =>
  let err := Pinning_Flush_err env w in
  let w' := record (EvFlush err) w in
  match err with
  | Some e => (Next (Some e), w')
  | None => (Next None, set_durable_pins (pins w) w')
  end.

(** [cids.ForEach(f)]: the set is a Go map, visited in an order of the
    runtime's choosing; [elements] fixes one. *)
Fixpoint ForEach (cs : list Cid) (f : Cid -> M unit) : M unit :=
  match cs with
  | [] => ret tt
  | c :: cs' => f c ;;; ForEach cs' f
  end.

(** ** The result channel: [outChan := make(chan interface{}, 8)] *)

Definition outChan_cap : nat := 8.

Inductive Selected : Type := SendCase | DoneCase.

(** [select { case outChan <- o: ...  case <-req.Context.Done(): ... }]:
    the send can proceed when the buffer has room, the receive when the
    context is done; with both ready the runtime picks one, with neither
    the goroutine stays parked. *)
Definition select_outChan (env : Env) (o : OutputObject) : M Selected := fun w =>
  let se := select_env env w in
  let q := skipn (drained se) (outChan w) in
  let send := (Next SendCase, record (EvSend o) (set_outChan (q ++ [o]) w)) in
  let done := (Next DoneCase, set_outChan q w) in
  match (length q <? outChan_cap)%nat, ctx_done se with
  | true, false => send
  | true, true => if pick_send se then send else done
  | false, true => done
  | false, false => (Blocked, set_outChan q w)
  end.

(** [res.Emit(outChan)] *)
Definition res_Emit_outChan (env : Env) : M (option error) := fun w =>
  (Next (res_Emit env w), w).

(** * [dag put] *)

(** [math.MaxUint64] *)
Definition MaxUint64 : Z := 2 ^ 64 - 1.

Definition ErrNoNodes : error := errorString "no node returned from ParseInputs".

Definition ErrNotMultihashName (hash : string) : error :=
  errorString (hash +:+ " in not a valid multihash name").

(** The request: the four options and [req.Files], given as the results
    [NextFile] yields before [io.EOF]. *)
Record PutRequest := mkPutRequest {
  opt_input_enc : string;
  opt_format : string;
  opt_pin : bool;
  opt_hash : string;
  Files : list (error + File);
}.

Section DagPut.
Variable env : Env.
Variables (ienc format : string) (mhType : Z) (dopin : bool).

(** [for _, nd := range nds { err := b.Add(nd); if err != nil { return err } }] *)
Fixpoint add_nodes (nds : list Node) (b : gmap string Node) : M (gmap string Node) :=
  match nds with
  | [] => ret b
  | nd :: nds' => try b' <- Batch_Add env b nd ;; add_nodes nds' b'
  end.

(** One turn of the [for] loop of [addAllAndPin], on the result [next] of
    [f.NextFile()]. *)
Definition put_unit (next : error + File) (st : gset string * gmap string Node)
    : M (gset string * gmap string Node) :=
  let cids := fst st in
  let b := snd st in
  log EvNextFile ;;;
  try file <- ret next ;;
  try nds <- coredag_ParseInputs env ienc format file mhType (-1) ;;
  match nds with
  | [] => return_ (Some ErrNoNodes)
  | nd0 :: _ =>
      b' <- add_nodes nds b ;;
      let cid := Node_Cid nd0 in
      let cids' := {[cid]} ∪ cids in
      s <- select_outChan env (mkOutputObject cid) ;;
      match s with
      | SendCase => ret (cids', b')
      | DoneCase => return_ None
      end
  end.

(** The turns of the loop over the first results of [NextFile]. *)
Fixpoint put_units (f : list (error + File)) (st : gset string * gmap string Node)
    : M (gset string * gmap string Node) :=
  match f with
  | [] => ret st
  | next :: f' => st' <- put_unit next st ;; put_units f' st'
  end.

(** The whole loop; it ends by [break] when [NextFile] gives [io.EOF]. *)
Definition put_loop (f : list (error + File)) (st : gset string * gmap string Node)
    : M (gset string * gmap string Node) :=
  st' <- put_units f st ;;
  log EvNextFile ;;;
  ret st'.

Definition addAllAndPin (f : list (error + File)) : M Result :=
  func (
    st <- put_loop f (∅, NewBatch) ;;
    let cids := fst st in
    let b := snd st in
    check Batch_Commit env b ;;
    (if dopin then
       PinLock ;;; defer_ DeferUnlock ;;;
       ForEach (elements cids) (fun c => PinWithMode c Recursive) ;;;
       check Flush env ;;
       ret tt
     else ret tt) ;;;
    return_ None).

End DagPut.

(** [DagPutCmd.Run].  The goroutine runs [addAllAndPin] and closes the
    channel; the command drains the channel through [res.Emit] and then
    takes the goroutine's error. *)
Definition DagPutCmd_Run (env : Env) (req : PutRequest) : M Result :=
  func (
    try nd <- cmdenv_GetNode env ;;
    let ienc := opt_input_enc req in
    let format := opt_format req in
    let hash := opt_hash req in
    let dopin := opt_pin req in
    mhType <- (if String.eqb hash EmptyString then ret MaxUint64
               else match Names env !! hash with
                    | Some t => ret t
                    | None => return_ (Some (ErrNotMultihashName hash))
                    end) ;;
    errC <- func (defer_ DeferClose ;;;
                  err <- addAllAndPin env ienc format mhType dopin (Files req) ;;
                  deliver err) ;;
    check res_Emit_outChan env ;;
    deliver errC).

(** * [urlstore add] *)

Definition ErrUnsupportedURL (url : string) : error :=
  errorString ("unsupported url syntax: " +:+ url).

Definition ErrStatusCode (code : Z) : error :=
  errorString ("expected code 200, got: " +:+ fmt_d code).

(** [http.StatusOK] *)
Definition StatusOK : Z := 200.

(** The values of other packages that [urlAdd] passes along: the sentinel
    [filestore.ErrUrlstoreNotEnabled] and the codes [cid.DagProtobuf] and
    [mh.SHA2_256]. *)
Record UrlConsts := mkUrlConsts {
  ErrUrlstoreNotEnabled : error;
  DagProtobuf : Z;
  SHA2_256 : Z;
}.

Definition http_Do (env : Env) (hreq : Request) : M (error + Response) := fun w =>
  (Next (Client_Do env hreq), record (EvHTTPDo hreq) w).

(** [layout(dbp.New(chk))] over [chunk.NewSizeSplitter(hres.Body, size)] *)
Definition build (env : Env) (trickle : bool) (dbp : DagBuilderParams)
    (size : Z) (body : list byte) : M (error + Node) := fun w =>
  let layout := if trickle then trickle_Layout env else balanced_Layout env in
  (Next (layout dbp size body), record (EvLayout trickle dbp) w).

(** [cmds.EmitOnce(res, v)] *)
Definition EmitOnce (env : Env) (v : BlockStat) : M (option error) := fun w =>
  match EmitOnce_err env w with
  | Some e => (Next (Some e), w)
  | None => (Next None, record (EvEmitOnce v) w)
  end.

Definition urlAdd_Run (env : Env) (k : UrlConsts) (url : string)
    (useTrickledag dopin : bool) : M Result :=
  func (
    try n <- cmdenv_GetNode env ;;
    if negb (IsURL env url) then return_ (Some (ErrUnsupportedURL url)) else
    try cfg <- ret (Repo_Config env) ;;
    if negb (UrlstoreEnabled cfg) then return_ (Some (ErrUrlstoreNotEnabled k)) else
    try hreq <- ret (NewRequest env "GET" url) ;;
    try hres <- http_Do env hreq ;;
    if negb (StatusCode hres =? StatusOK)%Z
    then return_ (Some (ErrStatusCode (StatusCode hres))) else
    (if dopin then PinLock ;;; defer_ DeferUnlock else ret tt) ;;;
    let prefix := (1, DagProtobuf k, SHA2_256 k)%Z in
    let dbp := {| RawLeaves := true;
                  Maxlinks := DefaultLinksPerBlock env;
                  NoCopy := true;
                  CidBuilder := prefix;
                  DagBuilderParams_URL := url |} in
    try root <- build env useTrickledag dbp (DefaultBlockSize env) (Body hres) ;;
    let c := Node_Cid root in
    (if dopin then
       PinWithMode c Recursive ;;;
       check Flush env ;;
       ret tt
     else ret tt) ;;;
    r <- EmitOnce env {| Key := Cid_String env c;
                         Size := to_int (ContentLength hres) |} ;;
    return_ r).

(** * What a trace shows *)

(** The CIDs put on the result channel, in order. *)
Fixpoint sent_of (tr : list Event) : list Cid :=
  match tr with
  | [] => []
  | EvSend o :: tr' => OutputObject_Cid o :: sent_of tr'
  | _ :: tr' => sent_of tr'
  end.

(** The records emitted by [cmds.EmitOnce], in order. *)
Fixpoint emitted_of (tr : list Event) : list BlockStat :=
  match tr with
  | [] => []
  | EvEmitOnce v :: tr' => v :: emitted_of tr'
  | _ :: tr' => emitted_of tr'
  end.

(** A mutation of the pin set: a [PinWithMode] call or a [Flush]. *)
Definition is_pin_mutation (ev : Event) : bool :=
  match ev with
  | EvPinWithMode _ _ | EvFlush _ => true
  | _ => false
  end.

(** Whether the pin lock is held after the events [tr], given whether it
    was held before them. *)
Fixpoint lock_held_after (held : bool) (tr : list Event) : bool :=
  match tr with
  | [] => held
  | EvPinLock :: tr' => lock_held_after true tr'
  | EvUnlock :: tr' => lock_held_after false tr'
  | _ :: tr' => lock_held_after held tr'
  end.

(** Every pin-set mutation in [tr] happens with the lock held. *)
Fixpoint mutations_guarded (held : bool) (tr : list Event) : bool :=
  match tr with
  | [] => true
  | EvPinLock :: tr' => mutations_guarded true tr'
  | EvUnlock :: tr' => mutations_guarded false tr'
  | ev :: tr' => (negb (is_pin_mutation ev) || held) && mutations_guarded held tr'
  end.

(** The events of the loop of [addAllAndPin]: reading, parsing, staging,
    sending. *)
Definition is_loop_event (ev : Event) : bool :=
  match ev with
  | EvNextFile | EvParseInputs _ | EvBatchAdd _ | EvSend _ => true
  | _ => false
  end.

(** The state in which a function body starts: no deferred call yet. *)
Definition enter (w : World) : World := set_defers [] w.

(** The root of an input unit: the first node its parse yields. *)
Definition unit_root (env : Env) (ienc format : string) (mhType : Z)
    (next : error + File) : option Cid :=
  match next with
  | inl _ => None
  | inr file =>
      match ParseInputs env ienc format file mhType (-1) with
      | inr (nd0 :: _) => Some (Node_Cid nd0)
      | _ => None
      end
  end.


(** A node that has just started: given pin set and store, nothing else. *)
Definition initial (p : gmap string Mode) (s : gmap string Node) : World :=
  {| pins := p; durable_pins := p; pin_locked := false; store := s;
     outChan := []; defers := []; trace := [] |}.

(** * Sample collaborators *)

(** A parser that yields one node per input byte, named by that byte. *)
Definition byte_node (b : byte) : Node :=
  mkNode (String (ascii_of_byte b) EmptyString) [b].

Definition sample_parse (ienc format : string) (file : File) (mhType mhLen : Z)
    : error + list Node :=
  inr (map byte_node (FileData file)).

(** A consumer that keeps up and a context that is never cancelled. *)
Definition keeps_up (w : World) : SelectEnv := mkSelectEnv outChan_cap false true.

(** A consumer that has stopped receiving, and a caller that cancels once
    the channel is full. *)
Definition stalls_then_cancels (w : World) : SelectEnv :=
  mkSelectEnv 0 (outChan_cap <=? length (outChan w))%nat true.

Definition sample_response (code : Z) : Response :=
  mkResponse code 3 [x61; x62; x63].

Definition sample_env (sel : World -> SelectEnv) (flush_err : option error)
    (code : Z) : Env :=
  {| GetNode := inr tt;
     Names := {[ "sha2-256" := 18%Z ]};
     ParseInputs := sample_parse;
     Batch_Add_err := fun _ _ => None;
     Batch_Commit_err := fun _ => None;
     Batch_persists := fun _ _ => false;
     Pinning_Flush_err := fun _ => flush_err;
     select_env := sel;
     res_Emit := fun _ => None;
     IsURL := String.prefix "http";
     Repo_Config := inr (mkConfig true);
     NewRequest := fun m u => inr (mkRequest m u);
     Client_Do := fun _ => inr (sample_response code);
     DefaultBlockSize := 262144;
     DefaultLinksPerBlock := 174;
     balanced_Layout := fun _ _ body => inr (mkNode "balanced-root" body);
     trickle_Layout := fun _ _ body => inr (mkNode "trickle-root" body);
     Cid_String := fun c => c;
     EmitOnce_err := fun _ => None |}.

Definition sample_consts : UrlConsts :=
  mkUrlConsts (errorString "urlstore is not enabled") 112 18.

Definition sample_file (name : string) (data : list byte) : error + File :=
  inr (mkFile name data).

Definition sample_request (pin : bool) (hash : string) (f : list (error + File))
    : PutRequest :=
  mkPutRequest "json" "cbor" pin hash f.

(** A peer ID: the multihash of a SHA2-256 digest. *)
Definition sample_id : list byte := x12 :: x20 :: repeat xab 32.

Definition sample_ValidCode (code : Z) : bool := (code =? 18)%Z.

(** * Proof vocabulary *)

(** [w'] is [w] after the events [evs], none of which touches the Pin
    Manager or the deferred calls. *)
Definition loop_step (w w' : World) (evs : list Event) : Prop :=
  trace w' = trace w ++ evs /\
  pins w' = pins w /\ durable_pins w' = durable_pins w /\
  pin_locked w' = pin_locked w /\
  defers w' = defers w /\
  forallb is_loop_event evs = true.

(** The Pin Manager is as in [w]. *)
Definition same_pins (w w' : World) : Prop :=
  pins w' = pins w /\ durable_pins w' = durable_pins w /\
  pin_locked w' = pin_locked w.

(** The ways a call of [addAllAndPin] on [f] from [w] can go: it stops
    inside the loop, the commit fails, or the commit succeeds and the
    roots are not to be pinned, the lock is not to be had, or the roots
    are pinned. *)
Definition addAllAndPin_shape (env : Env) (ienc format : string) (mhType : Z)
    (dopin : bool) (f : list (error + File)) (w : World) (r : Result) (w' : World)
    : Prop :=
  exists evs k,
    forallb is_loop_event evs = true /\
    map Some (sent_of evs) = map (unit_root env ienc format mhType) (take k f) /\
    defers w' = defers w /\
    ((k < length f)%nat /\ trace w' = trace w ++ evs /\ same_pins w w'
     \/ k = length f /\
        (exists e, r = Returned (Some e) /\
           trace w' = trace w ++ evs ++ [EvCommit (Some e)] /\ same_pins w w')
     \/ k = length f /\ dopin = false /\ r = Returned None /\
        trace w' = trace w ++ evs ++ [EvCommit None] /\ same_pins w w'
     \/ k = length f /\ dopin = true /\ pin_locked w = true /\ r = Blocks /\
        trace w' = trace w ++ evs ++ [EvCommit None] /\ same_pins w w'
     \/ k = length f /\ dopin = true /\
        exists cs ferr, r = Returned ferr /\
          (forall c, c ∈ cs <-> c ∈ sent_of evs) /\
          trace w' = trace w ++ evs ++ [EvCommit None; EvPinLock] ++
                     map (fun c => EvPinWithMode c Recursive) cs ++
                     [EvFlush ferr; EvUnlock] /\
          (forall c, pins w' !! c =
                     if decide (c ∈ cs) then Some Recursive else pins w !! c) /\
          pin_locked w' = false /\
          durable_pins w' = match ferr with
                            | None => pins w'
                            | Some _ => durable_pins w
                            end).

(** The hash code handed to [ParseInputs]: the named one, or [MaxUint64]
    ("use the default hash") when the option is empty. *)
Definition request_mhType (env : Env) (req : PutRequest) : Z :=
  if String.eqb (opt_hash req) EmptyString then MaxUint64
  else match Names env !! opt_hash req with
       | Some t => t
       | None => MaxUint64
       end.

(** The state in which the goroutine of [DagPutCmd.Run] calls
    [addAllAndPin]: its own frame, with the channel's [close] deferred. *)
Definition producer_start (w : World) : World :=
  set_defers [DeferClose] (enter (enter w)).

(** Sample runs. *)
Definition quiet_env : Env := sample_env keeps_up None 200.

Definition stalled_env : Env := sample_env stalls_then_cancels None 200.

Definition failing_flush_env : Env :=
  sample_env keeps_up (Some (errorString "disk full")) 200.


Definition eight_files : list (error + File) :=
  map (fun b => sample_file "f" [b]) [x61; x62; x63; x64; x65; x66; x67; x68].

Definition ninth_file : File := mkFile "f" [x69].

(** The loop state and the world after the given turns of the loop, for a
    run that gets through them. *)
Definition after_units (env : Env) (f : list (error + File)) (w : World)
    : (gset string * gmap string Node) * World :=
  match put_units env "json" "cbor" MaxUint64 f (∅, NewBatch) (enter w) with
  | (Next st, w') => (st, w')
  | (_, w') => ((∅, NewBatch), w')
  end.

(** The batch and the world once the ninth file is staged. *)
Definition ninth_staged : gmap string Node * World :=
  let '(st1, w1) := after_units stalled_env eight_files (initial ∅ ∅) in
  match add_nodes stalled_env [byte_node x69] (snd st1)
          (record (EvParseInputs ninth_file) (record EvNextFile w1)) with
  | (Next b, w') => (b, w')
  | (_, w') => (NewBatch, w')
  end.

(** Case analysis on every collaborator result a straight-line run reads. *)
Ltac run_cases :=
  repeat match goal with
         | |- context [match ?x with _ => _ end] =>
             lazymatch x with
             | context [match _ with _ => _ end] => fail
             | _ => destruct x eqn:?
             end
         end.

Ltac unfold_urlAdd :=
  unfold urlAdd_Run, func, bind, cmdenv_GetNode, ret, return_, http_Do, build,
    EmitOnce, PinLock, defer_, PinWithMode, Flush, run_defers;
  cbv beta iota zeta.

(** * Vocabulary of further properties *)

(** ASCII lower case, as [strings.ToLower] maps the letters A to Z. *)
Definition lower_ascii (c : ascii) : ascii :=
  let v := N_of_ascii c in
  if ((65 <=? v) && (v <=? 90))%N then ascii_of_N (v + 32) else c.

Definition ToLower (s : string) : string :=
  string_of_list_ascii (map lower_ascii (list_ascii_of_string s)).

(** What the functions that build an ID promise of their result: with a nil
    error the ID passes [Validate] and [IDFromString] returns it unchanged;
    with an error the ID is empty. *)
Definition well_formed_result (ValidCode : Z -> bool) (r : peer.ID * option error)
    : Prop :=
  match r with
  | (id, None) =>
      peer.Validate id = None /\ peer.IDFromString ValidCode id = (id, None)
  | (id, Some _) => id = EmptyString
  end.

(** A stand-in for [mh.Sum] with a 32-byte digest: the first 32 bytes of
    the data, padded with zeros. *)
Definition sample_Sum (data : list byte) (code length : Z) : list byte * option error :=
  (x12 :: x20 :: firstn 32 (data ++ repeat x00 32), None).

Definition sample_pk : peer.PubKey := peer.mkPubKey (inr [x01; x02; x03]).

Definition sample_Unmarshal (b : list byte) : error + peer.PubKey :=
  inr (peer.mkPubKey (inr b)).

(** ** [dag put]: what a turn of the loop does *)

(** The events of the turn of the loop of [addAllAndPin] that takes the
    result [next] of [NextFile], when nothing fails after the parse: the
    unit is read and parsed, every node of the parse is staged in parse
    order, and the CID of the first is sent. *)
Definition unit_events (env : Env) (ienc format : string) (mhType : Z)
    (next : error + File) : list Event :=
  match next with
  | inl _ => [EvNextFile]
  | inr file =>
      EvNextFile :: EvParseInputs file ::
      match ParseInputs env ienc format file mhType (-1) with
      | inr (nd0 :: nds) =>
          map (fun nd => EvBatchAdd (Node_Cid nd)) (nd0 :: nds) ++
          [EvSend (mkOutputObject (Node_Cid nd0))]
      | _ => []
      end
  end.

(** All the nodes the input units parse to, in document order. *)
Definition parsed_nodes (env : Env) (ienc format : string) (mhType : Z)
    (f : list (error + File)) : list Node :=
  flat_map (fun next =>
              match next with
              | inl _ => []
              | inr file =>
                  match ParseInputs env ienc format file mhType (-1) with
                  | inr nds => nds
                  | inl _ => []
                  end
              end) f.

(** The nodes one input unit parses to. *)
Definition unit_nodes (env : Env) (ienc format : string) (mhType : Z)
    (next : error + File) : list Node :=
  match next with
  | inl _ => []
  | inr file =>
      match ParseInputs env ienc format file mhType (-1) with
      | inr nds => nds
      | inl _ => []
      end
  end.

(** The batch [b] holds, of the nodes [nds] handed to [Add] over the store
    [s], those whose CID the store lacks, each under its own CID. *)
Definition staged (s : gmap string Node) (nds : list Node) (b : gmap string Node)
    : Prop :=
  (forall nd, In nd nds -> is_Some (b !! Node_Cid nd) \/ is_Some (s !! Node_Cid nd)) /\
  (forall c nd, b !! c = Some nd -> In nd nds /\ Node_Cid nd = c /\ s !! c = None).

(** The store [s] is the store [s0] with, possibly, nodes among [nds]
    added, each under its own CID: nothing that [s0] held is changed or
    removed. *)
Definition store_grown (s0 : gmap string Node) (nds : list Node)
    (s : gmap string Node) : Prop :=
  (forall c nd, s0 !! c = Some nd -> s !! c = Some nd) /\
  (forall c nd, s !! c = Some nd -> s0 !! c = None -> In nd nds /\ Node_Cid nd = c).

(** A request that [DagPutCmd.Run] turns down before it reads any input:
    the node is not to be had, or the hash named is not known. *)
Definition request_rejected (env : Env) (req : PutRequest) : Prop :=
  GetNode env <> inr tt \/
  (opt_hash req <> EmptyString /\ Names env !! opt_hash req = None).

(** The result channel holds no more than its capacity. *)
Definition chan_ok (w : World) : Prop := (length (outChan w) <= outChan_cap)%nat.

(** A reason, in the answers of the collaborators, for the loop of
    [addAllAndPin] to stop at the unit [next]: the unit is not read, or
    not parsed, or parses to no node; or [Add] can fail on one of its
    nodes, or a send can find the request context done or the result
    channel full. *)
Definition unit_stops (env : Env) (ienc format : string) (mhType : Z)
    (next : error + File) : Prop :=
  match next with
  | inl _ => True
  | inr file =>
      match ParseInputs env ienc format file mhType (-1) with
      | inl _ => True
      | inr [] => True
      | inr nds =>
          (exists w0 nd, In nd nds /\ Batch_Add_err env w0 nd <> None) \/
          (exists w0, chan_ok w0 /\ ctx_done (select_env env w0) = true) \/
          (exists w0, chan_ok w0 /\
             (outChan_cap <=
              length (skipn (drained (select_env env w0)) (outChan w0)))%nat)
      end
  end.

(** The events a run may produce while it holds the pin lock in
    [addAllAndPin]: pinning, flushing, and the release. *)
Definition is_pin_event (ev : Event) : bool :=
  match ev with
  | EvPinWithMode _ _ | EvFlush _ | EvUnlock | EvClose => true
  | _ => false
  end.

(** The CIDs handed to [PinWithMode], in order. *)
Fixpoint pinned_of (tr : list Event) : list Cid :=
  match tr with
  | [] => []
  | EvPinWithMode c _ :: tr' => c :: pinned_of tr'
  | _ :: tr' => pinned_of tr'
  end.

(** The events of the pinning phase of [addAllAndPin]: the lock is taken,
    the CIDs [cs] are pinned, the pin set is flushed with result [ferr],
    and the deferred [Unlock] runs. *)
Definition pin_phase (cs : list Cid) (ferr : option error) : list Event :=
  [EvPinLock] ++ map (fun c => EvPinWithMode c Recursive) cs ++ [EvFlush ferr; EvUnlock].

(** The events that can follow [Commit] in a run of [dag put]. *)
Definition is_closing_event (ev : Event) : bool :=
  match ev with
  | EvPinLock => true
  | _ => is_pin_event ev
  end.

(** A request seen through its input: the events of the turns of the loop
    over all its units, the nodes and the roots they parse to, and whether
    every unit reads and parses to at least one node. *)
Definition request_events (env : Env) (req : PutRequest) : list Event :=
  flat_map (unit_events env (opt_input_enc req) (opt_format req) (request_mhType env req))
           (Files req).

Definition request_nodes (env : Env) (req : PutRequest) : list Node :=
  parsed_nodes env (opt_input_enc req) (opt_format req) (request_mhType env req)
               (Files req).

Definition request_roots (env : Env) (req : PutRequest) : list Cid :=
  omap (unit_root env (opt_input_enc req) (opt_format req) (request_mhType env req))
       (Files req).

Definition request_complete (env : Env) (req : PutRequest) : Prop :=
  Forall (fun next => is_Some (unit_root env (opt_input_enc req) (opt_format req)
                                 (request_mhType env req) next))
         (Files req).

(** [env] with another batch: how [Commit] answers, and which staged
    nodes the batch writes through on its own. *)
Definition with_batch (commit_err : World -> option error)
    (persists : World -> Cid -> bool) (env : Env) : Env :=
  {| GetNode := GetNode env;
     Names := Names env;
     ParseInputs := ParseInputs env;
     Batch_Add_err := Batch_Add_err env;
     Batch_Commit_err := commit_err;
     Batch_persists := persists;
     Pinning_Flush_err := Pinning_Flush_err env;
     select_env := select_env env;
     res_Emit := res_Emit env;
     IsURL := IsURL env;
     Repo_Config := Repo_Config env;
     NewRequest := NewRequest env;
     Client_Do := Client_Do env;
     DefaultBlockSize := DefaultBlockSize env;
     DefaultLinksPerBlock := DefaultLinksPerBlock env;
     balanced_Layout := balanced_Layout env;
     trickle_Layout := trickle_Layout env;
     Cid_String := Cid_String env;
     EmitOnce_err := EmitOnce_err env |}.


(** A batch that writes every node through as soon as it is added. *)
Definition flushing_env : Env :=
  with_batch (fun _ => None) (fun _ _ => true) quiet_env.


Definition pinning_request : PutRequest :=
  sample_request true "" [sample_file "d1" [x61; x62]; sample_file "d2" [x63]].

(** A consumer that never receives, under a context that is never done. *)
Definition never_drains (w : World) : SelectEnv := mkSelectEnv 0 false true.

Definition parked_env : Env := sample_env never_drains None 200.

(** The batch and the world once the ninth file is staged. *)
Definition ninth_staged_parked : gmap string Node * World :=
  let '(st1, w1) := after_units parked_env eight_files (initial ∅ ∅) in
  match add_nodes parked_env [byte_node x69] (snd st1)
          (record (EvParseInputs ninth_file) (record EvNextFile w1)) with
  | (Next b, w') => (b, w')
  | (_, w') => (NewBatch, w')
  end.

(** ** [urlstore add]: what a run shows *)

(** The parameters [urlAdd] hands to the DAG builder for [url]. *)
Definition url_params (env : Env) (k : UrlConsts) (url : string) : DagBuilderParams :=
  {| RawLeaves := true;
     Maxlinks := DefaultLinksPerBlock env;
     NoCopy := true;
     CidBuilder := (1, DagProtobuf k, SHA2_256 k)%Z;
     DagBuilderParams_URL := url |}.

(** The layout function [urlAdd] picks. *)
Definition url_layout (env : Env) (useTrickledag : bool)
    : DagBuilderParams -> Z -> list byte -> error + Node :=
  if useTrickledag then trickle_Layout env else balanced_Layout env.

(** What [urlAdd] does on the node once the response is in: building the
    layout, pinning, flushing and emitting. *)
Definition is_url_work (ev : Event) : bool :=
  match ev with
  | EvLayout _ _ | EvPinWithMode _ _ | EvFlush _ | EvEmitOnce _ => true
  | _ => false
  end.

Definition is_lock_event (ev : Event) : bool :=
  match ev with
  | EvPinLock | EvUnlock => true
  | _ => false
  end.

(** Every event of [tr] that [p] selects happens with the pin lock held. *)
Fixpoint under_lock (p : Event -> bool) (held : bool) (tr : list Event) : bool :=
  match tr with
  | [] => true
  | EvPinLock :: tr' => under_lock p true tr'
  | EvUnlock :: tr' => under_lock p false tr'
  | ev :: tr' => (negb (p ev) || held) && under_lock p held tr'
  end.

(** An address that is not a URL, and a node with the urlstore switched off. *)
Definition disabled_env : Env :=
  {| GetNode := inr tt;
     Names := ∅;
     ParseInputs := sample_parse;
     Batch_Add_err := fun _ _ => None;
     Batch_Commit_err := fun _ => None;
     Batch_persists := fun _ _ => false;
     Pinning_Flush_err := fun _ => None;
     select_env := keeps_up;
     res_Emit := fun _ => None;
     IsURL := String.prefix "http";
     Repo_Config := inr (mkConfig false);
     NewRequest := fun m u => inr (mkRequest m u);
     Client_Do := fun _ => inr (sample_response 200);
     DefaultBlockSize := 262144;
     DefaultLinksPerBlock := 174;
     balanced_Layout := fun _ _ body => inr (mkNode "balanced-root" body);
     trickle_Layout := fun _ _ body => inr (mkNode "trickle-root" body);
     Cid_String := fun c => c;
     EmitOnce_err := fun _ => None |}.

(** * [dag resolve] *)

(** [ResolveOutput] is the output type of the 'dag resolve' command. *)
Record ResolveOutput := mkResolveOutput {
  ResolveOutput_Cid : Cid;
  RemPath : string;
}.

(** Modelled from the spec: [strings.Join] of the Go library is not among
    the sources.  It concatenates the elements with the separator between
    each two. *)
Fixpoint strings_Join (elems : list string) (sep : string) : string :=
  match elems with
  | [] => EmptyString
  | e :: rest =>
      match rest with
      | [] => e
      | _ => e +:+ sep +:+ strings_Join rest sep
      end
  end.

(** Modelled from the spec: [path.Join] (package [go-path]) is not among
    the sources.  It joins the segments of a path with a slash. *)
Definition path_Join (pths : list string) : string := strings_Join pths "/".

Section DagResolve.
Variable GetNode : error + unit.
(** [path.ParsePath], with the parsed path kept as its text *)
Variable ParsePath : string -> error + string.
(** [nd.Resolver.ResolveToLastNode] *)
Variable ResolveToLastNode : string -> error + Cid * list string.
Variable Emit_err : ResolveOutput -> option error.
Variable Cid_String : Cid -> string.

(** [DagResolveCmd.Run] on [req.Arguments[0]]: the error it returns and
    the values it has handed to [res.Emit]. *)
Definition DagResolveCmd_Run (ref : string) : option error * list ResolveOutput :=
  match GetNode with
  | inl err => (Some err, [])
  | inr nd =>
      match ParsePath ref with
      | inl err => (Some err, [])
      | inr p =>
          match ResolveToLastNode p with
          | inl err => (Some err, [])
          | inr (lastCid, rem) =>
              let out := {| ResolveOutput_Cid := lastCid; RemPath := path_Join rem |} in
              (Emit_err out, [out])
          end
      end
  end.

(** The text encoder of [DagResolveCmd]: what it prints for [out]. *)
Definition DagResolveCmd_Text (out : ResolveOutput) : string :=
  let p := Cid_String (ResolveOutput_Cid out) in
  if negb (String.eqb (RemPath out) EmptyString)
  then path_Join [p; RemPath out]
  else p.

End DagResolve.

(** * Package [coreapi]: the swarm *)

Module coreapi.

(** [bytes.Equal] *)
Fixpoint bytes_Equal (a b : list byte) : bool :=
  match a, b with
  | [], [] => true
  | x :: a', y :: b' => Byte.eqb x y && bytes_Equal a' b'
  | _, _ => false
  end.

(** Modelled from the spec: [ma.Multiaddr] (package [go-multiaddr]) is not
    among the sources.  An address has a binary form, which [Equal]
    compares, and a text form, which [String] returns. *)
Record Multiaddr := mkMultiaddr {
  Multiaddr_Bytes : list byte;
  Multiaddr_String : string;
}.

Definition Equal (a b : Multiaddr) : bool :=
  bytes_Equal (Multiaddr_Bytes a) (Multiaddr_Bytes b).

(** Modelled from the spec: [inet.Connectedness] (package
    [go-libp2p-net]) is not among the sources: whether a peer can be or is
    reached. *)
Inductive Connectedness : Type := NotConnected | Connected | CanConnect | CannotConnect.

Definition Connectedness_eqb (a b : Connectedness) : bool :=
  match a, b with
  | NotConnected, NotConnected | Connected, Connected
  | CanConnect, CanConnect | CannotConnect, CannotConnect => true
  | _, _ => false
  end.

(** [net.Conn], as far as the swarm API reads it: the remote end, and
    what its [Close] answers. *)
Record Conn := mkConn {
  RemotePeer : peer.ID;
  RemoteMultiaddr : Multiaddr;
  Close_err : option error;
}.

(** [pstore.Peerstore]: the peers it knows and the addresses it holds for
    each. *)
Record Peerstore := mkPeerstore {
  Peers : list peer.ID;
  Addrs : peer.ID -> list Multiaddr;
}.

(** [api.node.PeerHost.Network()], as far as [Disconnect] and
    [KnownAddrs] use it. *)
Record Network := mkNetwork {
  ConnsToPeer : peer.ID -> list Conn;
  Connectedness_of : peer.ID -> Connectedness;
  ClosePeer_err : peer.ID -> option error;
  Network_Peerstore : Peerstore;
}.

(** The swarm API over a node; [PeerHost] is nil on a node that is
    offline. *)
Record SwarmAPI := mkSwarmAPI { PeerHost : option Network }.

(** [iaddr.IPFSAddr]: a peer and, unless the address names only the peer,
    the transport address to reach it by. *)
Record IPFSAddr := mkIPFSAddr {
  Transport : option Multiaddr;
  IPFSAddr_ID : peer.ID;
}.

(** The sentinel errors of package [coreiface]. *)
Record IfaceErrors := mkIfaceErrors {
  ErrOffline : error;
  ErrNotConnected : error;
  ErrConnNotFound : error;
}.

(** What [Disconnect] does to the network. *)
Inductive NetEvent : Type :=
| EvConnClose (c : Conn)
| EvClosePeer (id : peer.ID).

(** [for _, conn := range net.ConnsToPeer(id) { if
    !conn.RemoteMultiaddr().Equal(taddr) { continue }; return conn.Close() }],
    with [None] when the loop ends without returning. *)
Fixpoint close_matching (taddr : Multiaddr) (conns : list Conn)
    : option (option error * list NetEvent) :=
  match conns with
  | [] => None
  | conn :: rest =>
      if negb (Equal (RemoteMultiaddr conn) taddr) then close_matching taddr rest
      else Some (Close_err conn, [EvConnClose conn])
  end.

Section Swarm.
Variable k : IfaceErrors.
(** [iaddr.ParseMultiaddr] *)
Variable ParseMultiaddr : Multiaddr -> error + IPFSAddr.
(** [sort.Slice(s, less)], with [less] given on the elements. *)
Variable sort_Slice : (Multiaddr -> Multiaddr -> bool) -> list Multiaddr -> list Multiaddr.

Definition Disconnect (api : SwarmAPI) (addr : Multiaddr) : option error * list NetEvent :=
  match PeerHost api with
  | None => (Some (ErrOffline k), [])
  | Some net =>
      match ParseMultiaddr addr with
      | inl err => (Some err, [])
      | inr ia =>
          let taddr := Transport ia in
          let id := IPFSAddr_ID ia in
          match taddr with
          | None =>
              if negb (Connectedness_eqb (Connectedness_of net id) Connected)
              then (Some (ErrNotConnected k), [])
              else match ClosePeer_err net id with
                   | Some err => (Some err, [EvClosePeer id])
                   | None => (None, [EvClosePeer id])
                   end
          | Some taddr =>
              match close_matching taddr (ConnsToPeer net id) with
              | Some r => r
              | None => (Some (ErrConnNotFound k), [])
              end
          end
      end
  end.

(** [addrs[p][i].String() < addrs[p][j].String()] *)
Definition addr_less (a b : Multiaddr) : bool :=
  String.ltb (Multiaddr_String a) (Multiaddr_String b).

(** [for _, a := range ps.Addrs(p) { addrs[p] = append(addrs[p], a) }];
    reading a missing key gives the nil slice. *)
Definition append_addrs (p : peer.ID) (al : list Multiaddr)
    (addrs : gmap string (list Multiaddr)) : gmap string (list Multiaddr) :=
  fold_left (fun m a => <[p := default [] (m !! p) ++ [a]]> m) al addrs.

(** One turn of the loop over [ps.Peers()]: the addresses of [p] are
    appended, and the slice under [p], if there is one, is sorted in
    place. *)
Definition known_peer (ps : Peerstore) (addrs : gmap string (list Multiaddr))
    (p : peer.ID) : gmap string (list Multiaddr) :=
  alter (sort_Slice addr_less) p (append_addrs p (Addrs ps p) addrs).

Definition KnownAddrs (api : SwarmAPI) : error + gmap string (list Multiaddr) :=
  match PeerHost api with
  | None => inl (ErrOffline k)
  | Some net =>
      let ps := Network_Peerstore net in
      inr (fold_left (known_peer ps) (Peers ps) ∅)
  end.

End Swarm.

End coreapi.

(** No address of the slice is below one that stands before it: the order
    [sort.Slice] leaves a slice in. *)
Definition addr_le (a b : coreapi.Multiaddr) : Prop := coreapi.addr_less b a = false.

Definition addrs_sorted (l : list coreapi.Multiaddr) : Prop :=
  StronglySorted addr_le l.

#[global] Instance addr_le_dec a b : Decision (addr_le a b).
Proof. unfold addr_le. apply _. Defined.

(** A stand-in for [sort.Slice]. *)
Definition sample_sort (less : coreapi.Multiaddr -> coreapi.Multiaddr -> bool)
    (l : list coreapi.Multiaddr) : list coreapi.Multiaddr :=
  merge_sort addr_le l.

Definition sample_errors : coreapi.IfaceErrors :=
  coreapi.mkIfaceErrors (errorString "offline") (errorString "not connected")
                        (errorString "conn not found").

Definition addr_a : coreapi.Multiaddr := coreapi.mkMultiaddr [x04; x01] "/ip4/1.2.3.4".
Definition addr_b : coreapi.Multiaddr := coreapi.mkMultiaddr [x04; x02] "/ip4/5.6.7.8".

Definition sample_conns : list coreapi.Conn :=
  [coreapi.mkConn "p" addr_a None;
   coreapi.mkConn "p" addr_b (Some (errorString "reset"));
   coreapi.mkConn "p" addr_b None].

Definition sample_network : coreapi.Network :=
  coreapi.mkNetwork (fun _ => sample_conns) (fun _ => coreapi.Connected) (fun _ => None)
    (coreapi.mkPeerstore ["p"; "q"; "p"]
       (fun id => if String.eqb id "p" then [addr_b; addr_a] else [])).

Definition sample_parse_addr (a : coreapi.Multiaddr) : error + coreapi.IPFSAddr :=
  inr (coreapi.mkIPFSAddr (Some a) "p").

(** * Facts about positional numerals *)
Section RadixFacts.
Import Radix.
Local Open Scope N_scope.
Variable base : N.
Hypothesis base_ge_2 : 2 <= base.

Lemma div_base_fuel f n :
  n < 2 ^ N.of_nat (S f) -> n / base < 2 ^ N.of_nat f.
Proof.
  intros Hn.
  rewrite Nat2N.inj_succ, N.pow_succ_r' in Hn.
  apply N.le_lt_trans with (n / 2).
  - apply N.div_le_compat_l. lia.
  - apply N.Div0.div_lt_upper_bound; lia.
Qed.

Lemma value_le_digits_le f n :
  n < 2 ^ N.of_nat f -> value_le base (digits_le f base n) = n.
Proof.
  revert n. induction f as [|f IH]; intros n Hn.
  - simpl in *. lia.
  - cbn [digits_le]. destruct (N.eqb_spec n 0) as [->|Hn0]; [reflexivity|].
    cbn [value_le]. rewrite IH by (apply div_base_fuel; exact Hn).
    rewrite N.add_comm. symmetry. apply N.div_mod. lia.
Qed.

Lemma canonical_le_digits_le f n :
  n < 2 ^ N.of_nat f -> canonical_le base (digits_le f base n).
Proof.
  revert n. induction f as [|f IH]; intros n Hn; cbn [digits_le]; [exact I|].
  destruct (N.eqb_spec n 0) as [->|Hn0]; [exact I|].
  cbn [canonical_le]. split; [apply N.mod_lt; lia|]. split.
  - intros Hnil Hmod.
    assert (Hq : n / base = 0).
    { destruct f; cbn [digits_le] in Hnil.
      - apply div_base_fuel in Hn. change (2 ^ N.of_nat 0) with 1 in Hn.
        apply N.lt_1_r, Hn.
      - destruct (N.eqb_spec (n / base) 0); [assumption|discriminate]. }
    pose proof (N.div_mod n base ltac:(lia)) as Hdm. rewrite Hq, Hmod in Hdm. lia.
  - apply IH, div_base_fuel, Hn.
Qed.

Lemma canonical_le_value_nonzero d ds :
  canonical_le base (d :: ds) -> value_le base (d :: ds) <> 0.
Proof.
  revert d. induction ds as [|d' ds IH]; intros d (Hd & Hlast & Hrest).
  - simpl. specialize (Hlast eq_refl). lia.
  - specialize (IH d' Hrest). cbn [value_le] in *.
    remember (d' + base * value_le base ds) as v. nia.
Qed.

Lemma digits_le_value_le f ds :
  canonical_le base ds -> value_le base ds < 2 ^ N.of_nat f ->
  digits_le f base (value_le base ds) = ds.
Proof.
  revert f. induction ds as [|d ds IH]; intros f Hc Hv.
  - destruct f; reflexivity.
  - pose proof (canonical_le_value_nonzero d ds Hc) as Hnz.
    destruct Hc as (Hd & _ & Hrest).
    destruct f as [|f]; [change (2 ^ N.of_nat 0) with 1 in Hv; apply N.lt_1_r in Hv; contradiction|].
    cbn [digits_le]. destruct (N.eqb_spec (value_le base (d :: ds)) 0); [contradiction|].
    cbn [value_le] in *.
    assert (Hmod : (d + base * value_le base ds) mod base = d).
    { rewrite (N.mul_comm base), N.Div0.mod_add. apply N.mod_small, Hd. }
    assert (Hdiv : (d + base * value_le base ds) / base = value_le base ds).
    { rewrite (N.mul_comm base), N.div_add by lia.
      rewrite N.div_small by exact Hd. reflexivity. }
    rewrite Hmod, Hdiv. f_equal. apply IH; [exact Hrest|].
    rewrite <- Hdiv. apply div_base_fuel, Hv.
Qed.

Lemma of_base_to_base n : of_base base (to_base base n) = n.
Proof.
  unfold of_base, to_base. rewrite rev_involutive.
  apply value_le_digits_le. rewrite N2Nat.id. apply N.size_gt.
Qed.

Lemma to_base_of_base ds :
  canonical_le base (rev ds) -> to_base base (of_base base ds) = ds.
Proof.
  intros Hc. unfold of_base, to_base.
  rewrite digits_le_value_le; [apply rev_involutive|exact Hc|].
  rewrite N2Nat.id. apply N.size_gt.
Qed.

Lemma canonical_le_to_base n : canonical_le base (rev (to_base base n)).
Proof.
  unfold to_base. rewrite rev_involutive.
  apply canonical_le_digits_le. rewrite N2Nat.id. apply N.size_gt.
Qed.

End RadixFacts.

Section RadixShape.
Import Radix.
Local Open Scope N_scope.
Variable base : N.

Lemma canonical_le_snoc l d :
  canonical_le base (l ++ [d]) <-> Forall (fun x => x < base) (l ++ [d]) /\ d <> 0.
Proof.
  induction l as [|x l IH]; cbn [app canonical_le].
  - split.
    + intros (Hd & Hnz & _). split; [repeat constructor; exact Hd|auto].
    + intros (Hall & Hnz). inversion Hall; subst. auto.
  - rewrite IH. split.
    + intros (Hx & _ & Hall & Hnz). split; [constructor; assumption|exact Hnz].
    + intros (Hall & Hnz). inversion Hall; subst.
      split; [assumption|]. split; [|split; assumption].
      intros Hnil. destruct l; discriminate.
Qed.

Lemma canonical_le_bound ds :
  canonical_le base ds -> Forall (fun x => x < base) ds.
Proof.
  induction ds as [|d ds IH]; cbn [canonical_le]; [constructor|].
  intros (Hd & _ & Hrest). constructor; auto.
Qed.

Lemma canonical_le_rev_cons d ds :
  canonical_le base (rev (d :: ds)) <->
  Forall (fun x => x < base) (d :: ds) /\ d <> 0.
Proof.
  cbn [rev]. rewrite canonical_le_snoc.
  change (rev ds ++ [d]) with (rev (d :: ds)).
  split; intros (Hall & Hnz); (split; [|exact Hnz]).
  - apply Forall_rev in Hall. rewrite rev_involutive in Hall. exact Hall.
  - apply Forall_rev. exact Hall.
Qed.

Lemma value_le_app_zeros l z :
  value_le base (l ++ repeat 0 z) = value_le base l.
Proof.
  induction l as [|d l IH]; cbn [app value_le].
  - induction z as [|z IHz]; cbn [repeat value_le]; [reflexivity|].
    rewrite IHz. lia.
  - rewrite IH. reflexivity.
Qed.

Lemma of_base_leading_zeros z ds :
  of_base base (repeat 0 z ++ ds) = of_base base ds.
Proof.
  unfold of_base. rewrite rev_app_distr, rev_repeat. apply value_le_app_zeros.
Qed.

Lemma of_base_strip_leading ds :
  of_base base (strip_leading (N.eqb 0) ds) = of_base base ds.
Proof.
  induction ds as [|d ds IH]; cbn [strip_leading]; [reflexivity|].
  destruct (N.eqb_spec 0 d) as [<-|Hd]; [|reflexivity].
  rewrite IH. symmetry. apply (of_base_leading_zeros 1 ds).
Qed.

Lemma count_strip_leading {A} (p : A -> bool) (z : A) (l : list A) :
  (forall x, p x = true -> x = z) ->
  repeat z (count_leading p l) ++ strip_leading p l = l.
Proof.
  intros Hp. induction l as [|x l IH]; cbn [count_leading strip_leading]; [reflexivity|].
  destruct (p x) eqn:E; [|reflexivity].
  cbn [repeat app]. rewrite IH, <- (Hp x E). reflexivity.
Qed.

Lemma strip_leading_head {A} (p : A -> bool) (l : list A) x l' :
  strip_leading p l = x :: l' -> p x = false.
Proof.
  induction l as [|y l IH]; cbn [strip_leading]; [discriminate|].
  destruct (p y) eqn:E; [exact IH|]. intros [= <- _]. exact E.
Qed.

Lemma count_leading_repeat_app {A} (p : A -> bool) (z : A) n (l : list A) :
  p z = true -> (forall x l', l = x :: l' -> p x = false) ->
  count_leading p (repeat z n ++ l) = n.
Proof.
  intros Hz Hl. induction n as [|n IH]; cbn [repeat app count_leading].
  - destruct l as [|x l']; [reflexivity|]. cbn [count_leading].
    rewrite (Hl x l' eq_refl). reflexivity.
  - rewrite Hz, IH. reflexivity.
Qed.

End RadixShape.

Section Base58Facts.
Import Radix Base58.
Local Open Scope N_scope.

Lemma char_digit_digit_char d : d < 58 -> char_digit (digit_char d) = Some d.
Proof.
  intros Hd.
  assert (Hall : forallb (fun k => match char_digit (digit_char (N.of_nat k)) with
                                   | Some d' => d' =? N.of_nat k
                                   | None => false
                                   end) (seq 0 58) = true) by (vm_compute; reflexivity).
  rewrite forallb_forall in Hall.
  specialize (Hall (N.to_nat d)).
  rewrite N2Nat.id in Hall.
  assert (Hin : In (N.to_nat d) (seq 0 58)) by (apply in_seq; lia).
  specialize (Hall Hin).
  destruct (char_digit (digit_char d)) as [d'|]; [|discriminate].
  apply N.eqb_eq in Hall. congruence.
Qed.

Lemma char_digit_one : char_digit "1"%char = Some 0.
Proof. reflexivity. Qed.

Lemma digits_of_encoded z ds :
  Forall (fun d => d < 58) ds ->
  digits_of (repeat "1"%char z ++ map digit_char ds) = Some (repeat 0 z ++ ds).
Proof.
  intros Hds. induction z as [|z IH]; cbn [repeat app].
  - induction Hds as [|d ds Hd _ IH]; cbn [map digits_of]; [reflexivity|].
    rewrite (char_digit_digit_char d Hd), IH. reflexivity.
  - cbn [digits_of]. rewrite char_digit_one, IH. reflexivity.
Qed.

Lemma to_base_head_nonzero base n d ds :
  2 <= base -> to_base base n = d :: ds -> d <> 0.
Proof.
  intros Hb E. pose proof (canonical_le_to_base base Hb n) as Hc.
  rewrite E in Hc. apply canonical_le_rev_cons in Hc. tauto.
Qed.

Lemma to_base_bound base n :
  2 <= base -> Forall (fun d => d < base) (to_base base n).
Proof.
  intros Hb. pose proof (canonical_le_to_base base Hb n) as Hc.
  apply canonical_le_bound, Forall_rev in Hc. rewrite rev_involutive in Hc. exact Hc.
Qed.

Lemma byte_of_to_N b : byte_of_N (Byte.to_N b) = b.
Proof. unfold byte_of_N. rewrite Byte.of_to_N. reflexivity. Qed.

Lemma strip_leading_map_to_N bin :
  strip_leading (N.eqb 0) (map Byte.to_N bin) =
  map Byte.to_N (strip_leading (Byte.eqb x00) bin).
Proof.
  induction bin as [|b bin IH]; cbn [map strip_leading]; [reflexivity|].
  assert (E : (0 =? Byte.to_N b) = Byte.eqb x00 b) by (destruct b; reflexivity).
  rewrite E. destruct (Byte.eqb x00 b); [exact IH|reflexivity].
Qed.

Lemma to_base_of_bytes bin :
  to_base 256 (of_base 256 (map Byte.to_N bin)) =
  map Byte.to_N (strip_leading (Byte.eqb x00) bin).
Proof.
  rewrite <- of_base_strip_leading, strip_leading_map_to_N.
  apply to_base_of_base; [lia|].
  destruct (strip_leading (Byte.eqb x00) bin) as [|b l] eqn:E; [exact I|].
  cbn [map]. apply canonical_le_rev_cons. split.
  - change (Byte.to_N b :: map Byte.to_N l) with (map Byte.to_N (b :: l)).
    apply List.Forall_forall. intros x Hx. apply in_map_iff in Hx as (y & <- & _).
    pose proof (Byte.to_N_bounded y). lia.
  - apply strip_leading_head in E. destruct b; try discriminate; cbv; discriminate.
Qed.

Lemma Base58_Decode_Encode bin :
  bin <> [] -> Base58.Decode (Base58.Encode bin) = inr bin.
Proof.
  intros Hne. unfold Base58.Decode, Base58.Encode.
  set (z := count_leading (Byte.eqb x00) bin).
  set (n := of_base 256 (map Byte.to_N bin)).
  assert (Hlen : (String.length (string_of_list_ascii
            (repeat "1"%char z ++ map digit_char (to_base 58 n))) =? 0)%nat = false).
  { apply Nat.eqb_neq. intros Hlen.
    assert (Hl : length (repeat "1"%char z ++ map digit_char (to_base 58 n)) = 0%nat).
    { rewrite <- Hlen. clear.
      induction (repeat "1"%char z ++ map digit_char (to_base 58 n)); simpl; congruence. }
    rewrite length_app, repeat_length, length_map in Hl.
    assert (Hz : z = 0%nat) by lia.
    assert (Hd : to_base 58 n = []) by (destruct (to_base 58 n); [reflexivity|simpl in Hl; lia]).
    assert (Hn : n = 0) by (rewrite <- (of_base_to_base 58 ltac:(lia) n), Hd; reflexivity).
    pose proof (to_base_of_bytes bin) as Hb. fold n in Hb. rewrite Hn in Hb.
    change (to_base 256 0) with (@nil N) in Hb.
    pose proof (count_strip_leading (Byte.eqb x00) x00 bin) as Hcs.
    fold z in Hcs. rewrite Hz in Hcs.
    destruct (strip_leading (Byte.eqb x00) bin); [|discriminate].
    apply Hne. rewrite <- Hcs; [reflexivity|].
    intros x Hx. destruct x; try discriminate; reflexivity. }
  rewrite Hlen, list_ascii_of_string_of_list_ascii.
  rewrite digits_of_encoded by (apply to_base_bound; lia).
  rewrite of_base_leading_zeros, of_base_to_base by lia.
  rewrite count_leading_repeat_app.
  - subst n. rewrite to_base_of_bytes, map_map.
    rewrite (map_ext _ (fun b => b) byte_of_to_N), map_id.
    subst z. f_equal. apply count_strip_leading.
    intros x Hx. destruct x; try discriminate; reflexivity.
  - reflexivity.
  - intros x l' E. apply N.eqb_neq. intros <-.
    eapply to_base_head_nonzero in E; [congruence|lia].
Qed.

End Base58Facts.

(** * Facts about the commands *)

Section LoopFacts.
Variable env : Env.
Variables (ienc format : string) (mhType : Z).

Lemma loop_step_refl w : loop_step w w [].
Proof. unfold loop_step. rewrite app_nil_r. auto 10. Qed.

Lemma loop_step_trans w1 w2 w3 evs1 evs2 :
  loop_step w1 w2 evs1 -> loop_step w2 w3 evs2 -> loop_step w1 w3 (evs1 ++ evs2).
Proof.
  intros (Ht1 & Hp1 & Hd1 & Hl1 & Hf1 & He1) (Ht2 & Hp2 & Hd2 & Hl2 & Hf2 & He2).
  unfold loop_step. rewrite Ht2, Ht1, app_assoc, forallb_app, He1, He2.
  repeat split; congruence.
Qed.

Lemma loop_step_record w ev :
  is_loop_event ev = true -> loop_step w (record ev w) [ev].
Proof. intros He. unfold loop_step. simpl. rewrite He. auto 10. Qed.

Lemma add_nodes_spec nds b w :
  exists evs, loop_step w (snd (add_nodes env nds b w)) evs /\ sent_of evs = [].
Proof.
  revert b w. induction nds as [|nd nds IH]; intros b w; cbn [add_nodes].
  - exists []. split; [apply loop_step_refl|reflexivity].
  - unfold bind at 1. unfold Batch_Add. cbv zeta.
    destruct (Batch_Add_err env w nd) as [e|].
    + exists [EvBatchAdd (Node_Cid nd)]. split; [|reflexivity].
      unfold loop_step. cbn. auto 10.
    + match goal with
      | |- context [add_nodes env nds ?b' ?w'] =>
          destruct (IH b' w') as (evs & Hstep & Hsent);
          exists ([EvBatchAdd (Node_Cid nd)] ++ evs);
          split; [eapply loop_step_trans; [|exact Hstep]; unfold loop_step; cbn; auto 10
                 |exact Hsent]
      end.
Qed.

Lemma select_outChan_spec o w :
  match select_outChan env o w with
  | (Next SendCase, w') => loop_step w w' [EvSend o]
  | (Next DoneCase, w') | (Blocked, w') => loop_step w w' []
  | (Return _, _) => False
  end.
Proof.
  unfold select_outChan.
  set (q := skipn (drained (select_env env w)) (outChan w)).
  assert (Hsend : loop_step w (record (EvSend o) (set_outChan (q ++ [o]) w)) [EvSend o]).
  { unfold loop_step. simpl. auto 10. }
  assert (Hdone : loop_step w (set_outChan q w) []).
  { unfold loop_step. simpl. rewrite app_nil_r. auto 10. }
  destruct (length q <? outChan_cap)%nat, (ctx_done _); try destruct (pick_send _); assumption.
Qed.

Lemma sent_of_app evs1 evs2 : sent_of (evs1 ++ evs2) = sent_of evs1 ++ sent_of evs2.
Proof.
  induction evs1 as [|ev evs1 IH]; [reflexivity|].
  destruct ev; cbn; rewrite ?IH; reflexivity.
Qed.

Lemma put_unit_spec next st w :
  match put_unit env ienc format mhType next st w with
  | (Next st', w') =>
      exists evs c, loop_step w w' evs /\
        unit_root env ienc format mhType next = Some c /\
        sent_of evs = [c] /\ fst st' = {[c]} ∪ fst st
  | (_, w') => exists evs, loop_step w w' evs /\ sent_of evs = []
  end.
Proof.
  unfold put_unit, unit_root, bind, log, ret, coredag_ParseInputs, return_.
  assert (H1 : loop_step w (record EvNextFile w) [EvNextFile])
    by (apply loop_step_record; reflexivity).
  destruct next as [err|file].
  { exists [EvNextFile]. split; [exact H1|reflexivity]. }
  set (w1 := record (EvParseInputs file) (record EvNextFile w)).
  assert (H2 : loop_step w w1 ([EvNextFile] ++ [EvParseInputs file])).
  { eapply loop_step_trans; [exact H1|]. apply loop_step_record. reflexivity. }
  destruct (ParseInputs env ienc format file mhType (-1)) as [err|[|nd0 nds]].
  { eexists. split; [exact H2|reflexivity]. }
  { eexists. split; [exact H2|reflexivity]. }
  destruct (add_nodes_spec (nd0 :: nds) (snd st) w1) as (evs2 & H3 & Hs3).
  destruct (add_nodes env (nd0 :: nds) (snd st) w1) as [[b'|e|] w2]; cbn [snd] in H3.
  2,3: (exists (([EvNextFile] ++ [EvParseInputs file]) ++ evs2);
        split; [eapply loop_step_trans; eassumption|exact Hs3]).
  pose proof (select_outChan_spec (mkOutputObject (Node_Cid nd0)) w2) as H4.
  destruct (select_outChan env (mkOutputObject (Node_Cid nd0)) w2) as [[[|]|e|] w3];
    [| | contradiction |].
  - exists ((([EvNextFile] ++ [EvParseInputs file]) ++ evs2) ++ [EvSend (mkOutputObject (Node_Cid nd0))]).
    exists (Node_Cid nd0). split.
    + eapply loop_step_trans; [eapply loop_step_trans; eassumption|exact H4].
    + split; [reflexivity|]. split; [|reflexivity].
      rewrite !sent_of_app, Hs3. reflexivity.
  - exists ((([EvNextFile] ++ [EvParseInputs file]) ++ evs2) ++ []). split.
    + eapply loop_step_trans; [eapply loop_step_trans; eassumption|exact H4].
    + rewrite app_nil_r, sent_of_app. exact Hs3.
  - exists ((([EvNextFile] ++ [EvParseInputs file]) ++ evs2) ++ []). split.
    + eapply loop_step_trans; [eapply loop_step_trans; eassumption|exact H4].
    + rewrite app_nil_r, sent_of_app. exact Hs3.
Qed.

Lemma put_units_spec f st w :
  match put_units env ienc format mhType f st w with
  | (o, w') =>
      exists evs k, loop_step w w' evs /\
        map Some (sent_of evs) = map (unit_root env ienc format mhType) (take k f) /\
        match o with
        | Next st' => k = length f /\ fst st' = list_to_set (sent_of evs) ∪ fst st
        | Return _ | Blocked => (k < length f)%nat
        end
  end.
Proof.
  revert st w. induction f as [|next f IH]; intros st w; cbn [put_units].
  - unfold ret. exists [], 0%nat. split; [apply loop_step_refl|]. split; [reflexivity|].
    split; [reflexivity|]. cbn [sent_of list_to_set]. symmetry. apply (left_id_L ∅ (∪)).
  - unfold bind.
    pose proof (put_unit_spec next st w) as H1.
    destruct (put_unit env ienc format mhType next st w) as [[st1|e|] w1].
    + destruct H1 as (evs1 & c & H1 & Hroot & Hsent & Hcids).
      specialize (IH st1 w1).
      destruct (put_units env ienc format mhType f st1 w1) as [o w2].
      destruct IH as (evs2 & k & H2 & Hmap & Ho2).
      exists (evs1 ++ evs2), (S k). split; [eapply loop_step_trans; eassumption|].
      rewrite sent_of_app, Hsent. cbn [app map take]. rewrite Hroot, Hmap.
      split; [reflexivity|].
      destruct o as [st2| |].
      * destruct Ho2 as (-> & Hc2). split; [reflexivity|].
        rewrite Hc2, Hcids. cbn [list_to_set app].
        rewrite (assoc_L (∪)), (comm_L (∪) _ {[c]}). reflexivity.
      * cbn. lia.
      * cbn. lia.
    + destruct H1 as (evs1 & H1 & Hs1).
      exists evs1, 0%nat. split; [exact H1|]. rewrite Hs1. cbn. split; [reflexivity|lia].
    + destruct H1 as (evs1 & H1 & Hs1).
      exists evs1, 0%nat. split; [exact H1|]. rewrite Hs1. cbn. split; [reflexivity|lia].
Qed.

Lemma put_units_app f1 f2 st w :
  put_units env ienc format mhType (f1 ++ f2) st w =
  match put_units env ienc format mhType f1 st w with
  | (Next st1, w1) => put_units env ienc format mhType f2 st1 w1
  | (Return e, w1) => (Return e, w1)
  | (Blocked, w1) => (Blocked, w1)
  end.
Proof.
  revert st w. induction f1 as [|next f1 IH]; intros st w; cbn [app put_units].
  - reflexivity.
  - unfold bind.
    destruct (put_unit env ienc format mhType next st w) as [[st1|e|] w1]; [|reflexivity..].
    apply IH.
Qed.

End LoopFacts.

Section PinFacts.
Variable env : Env.

Lemma ForEach_PinWithMode cs w :
  exists w', ForEach cs (fun c => PinWithMode c Recursive) w = (Next tt, w') /\
    trace w' = trace w ++ map (fun c => EvPinWithMode c Recursive) cs /\
    (forall c, pins w' !! c = if decide (c ∈ cs) then Some Recursive else pins w !! c) /\
    durable_pins w' = durable_pins w /\ pin_locked w' = pin_locked w /\
    store w' = store w /\ defers w' = defers w /\ outChan w' = outChan w.
Proof.
  revert w. induction cs as [|c cs IH]; intros w; cbn [ForEach].
  - exists w. unfold ret. rewrite app_nil_r.
    split; [reflexivity|]. split; [reflexivity|]. split; [|auto 10].
    intros c. destruct (decide (c ∈ [])) as [Hin|_]; [inversion Hin|reflexivity].
  - unfold bind. unfold PinWithMode at 1. cbv beta iota zeta.
    set (w1 := record (EvPinWithMode c Recursive) (set_pins (<[c:=Recursive]> (pins w)) w)).
    destruct (IH w1) as (w' & -> & Ht & Hp & Hd & Hl & Hs & Hf & Hq).
    exists w'. split; [reflexivity|]. rewrite Ht, Hd, Hl, Hs, Hf, Hq. cbn.
    rewrite <- app_assoc.
    split; [reflexivity|]. split; [|auto 10].
    intros c'. rewrite Hp. cbn.
    destruct (decide (c' ∈ cs)) as [Hin|Hnin].
    + rewrite decide_True by (right; exact Hin). reflexivity.
    + destruct (decide (c = c')) as [->|Hne].
      * rewrite decide_True by left. apply lookup_insert_eq.
      * rewrite decide_False by (intros Hin; inversion Hin; subst; contradiction).
        apply lookup_insert_ne, Hne.
Qed.

End PinFacts.

Lemma run_defers_nil w : defers w = [] -> run_defers w = set_defers [] w.
Proof. intros H. unfold run_defers. rewrite H. reflexivity. Qed.

Lemma run_defers_unlock w :
  defers w = [DeferUnlock] ->
  run_defers w = set_defers [] (record EvUnlock (set_pin_locked false w)).
Proof. intros H. unfold run_defers. rewrite H. reflexivity. Qed.

Lemma sent_of_loop_tail evs ev :
  (forall o, ev <> EvSend o) -> sent_of (evs ++ [ev]) = sent_of evs.
Proof.
  intros Hev. rewrite sent_of_app.
  destruct ev; cbn; rewrite ?app_nil_r; try reflexivity.
  exfalso. eapply Hev. reflexivity.
Qed.

Section FunctionFacts.
Variable env : Env.
Variables (ienc format : string) (mhType : Z) (dopin : bool).

Lemma addAllAndPin_spec f w :
  exists r w',
    addAllAndPin env ienc format mhType dopin f w = (Next r, w') /\
    addAllAndPin_shape env ienc format mhType dopin f w r w'.
Proof.
  unfold addAllAndPin, func, put_loop. unfold bind at 1 2.
  pose proof (put_units_spec env ienc format mhType f (∅, NewBatch) (set_defers [] w)) as Hloop.
  destruct (put_units env ienc format mhType f (∅, NewBatch) (set_defers [] w)) as [o w1].
  destruct Hloop as (evs & k & (Ht & Hp & Hd & Hl & Hf & He) & Hmap & Ho).
  cbn in Ht, Hp, Hd, Hl, Hf.
  assert (Hrun : run_defers w1 = set_defers [] w1).
  { unfold run_defers. rewrite Hf. reflexivity. }
  destruct o as [st1|e|].
  - destruct Ho as (-> & Hcids).
    unfold bind, log, Batch_Commit, return_, ret. cbv beta iota zeta.
    set (w2 := record EvNextFile w1).
    assert (He2 : forallb is_loop_event (evs ++ [EvNextFile]) = true)
      by (rewrite forallb_app, He; reflexivity).
    assert (Hs2 : sent_of (evs ++ [EvNextFile]) = sent_of evs)
      by (apply sent_of_loop_tail; discriminate).
    destruct (Batch_Commit_err env w2) as [e|] eqn:Ecommit.
    { eexists _, _. split; [reflexivity|]. exists (evs ++ [EvNextFile]), (length f).
      rewrite run_defers_nil by exact Hf. rewrite Hs2.
      split; [exact He2|]. split; [exact Hmap|]. split; [reflexivity|].
      right. left. split; [reflexivity|]. exists e. split; [reflexivity|].
      cbn. rewrite Ht, <- !app_assoc. unfold same_pins. cbn. auto 10. }
    destruct dopin.
    + unfold PinLock, defer_. cbv beta iota zeta.
      subst w2. cbn [pin_locked set_store record]. rewrite Hl.
      destruct (pin_locked w) eqn:Elock.
      { eexists _, _. split; [reflexivity|]. exists (evs ++ [EvNextFile]), (length f).
        rewrite Hs2.
        split; [exact He2|]. split; [exact Hmap|]. split; [reflexivity|].
        right. right. right. left.
        split; [reflexivity|]. split; [reflexivity|]. split; [exact Elock|].
        split; [reflexivity|].
        cbn. rewrite Ht, <- !app_assoc. unfold same_pins. cbn.
        repeat split; congruence. }
      match goal with
      | |- context [ForEach ?cs ?g ?w3] =>
          destruct (ForEach_PinWithMode cs w3) as (w4 & -> & Ht4 & Hp4 & Hd4 & Hl4 & Hs4 & Hf4 & _)
      end.
      cbn in Ht4, Hp4, Hd4, Hl4, Hs4, Hf4. rewrite Hf in Hf4.
      unfold Flush. cbv beta iota zeta.
      assert (Hcs : forall c, c ∈ elements st1.1 <-> c ∈ sent_of (evs ++ [EvNextFile])).
      { intros c. rewrite Hs2, elem_of_elements, Hcids. cbn [fst].
        rewrite (right_id_L ∅ (∪)), elem_of_list_to_set. reflexivity. }
      destruct (Pinning_Flush_err env w4) as [fe|] eqn:Eflush.
      * eexists _, _. split; [reflexivity|]. exists (evs ++ [EvNextFile]), (length f).
        rewrite run_defers_unlock by exact Hf4. rewrite Hs2.
        split; [exact He2|]. split; [exact Hmap|]. split; [reflexivity|].
        right. right. right. right. split; [reflexivity|]. split; [reflexivity|].
        exists (elements st1.1), (Some fe). split; [reflexivity|].
        split; [rewrite <- Hs2; exact Hcs|].
        cbn. rewrite Ht4, Ht, <- !app_assoc. split; [reflexivity|].
        split; [intros c; rewrite Hp4, Hp; reflexivity|].
        split; [reflexivity|]. rewrite Hd4. exact Hd.
      * eexists _, _. split; [reflexivity|]. exists (evs ++ [EvNextFile]), (length f).
        rewrite run_defers_unlock by exact Hf4. rewrite Hs2.
        split; [exact He2|]. split; [exact Hmap|]. split; [reflexivity|].
        right. right. right. right. split; [reflexivity|]. split; [reflexivity|].
        exists (elements st1.1), None. split; [reflexivity|].
        split; [rewrite <- Hs2; exact Hcs|].
        cbn. rewrite Ht4, Ht, <- !app_assoc. split; [reflexivity|].
        split; [intros c; rewrite Hp4, Hp; reflexivity|].
        split; reflexivity.
    + eexists _, _. split; [reflexivity|]. exists (evs ++ [EvNextFile]), (length f).
      rewrite run_defers_nil by exact Hf. rewrite Hs2.
      split; [exact He2|]. split; [exact Hmap|]. split; [reflexivity|].
      right. right. left. split; [reflexivity|]. split; [reflexivity|].
      split; [reflexivity|].
      cbn. rewrite Ht, <- !app_assoc. unfold same_pins. cbn. auto 10.
  - eexists _, _. split; [reflexivity|]. exists evs, k.
    rewrite Hrun. cbn. unfold same_pins. cbn. auto 15.
  - eexists _, _. split; [reflexivity|]. exists evs, k.
    cbn. unfold same_pins. cbn. auto 15.
Qed.
End FunctionFacts.

Lemma enter_exit w : set_defers (defers w) (run_defers (enter w)) = w.
Proof. destruct w. reflexivity. Qed.

Lemma DagPutCmd_Run_rejects env req w :
  opt_hash req <> EmptyString -> Names env !! opt_hash req = None ->
  exists e, DagPutCmd_Run env req w = (Next (Returned (Some e)), w) /\
            (GetNode env = inr tt -> e = ErrNotMultihashName (opt_hash req)).
Proof.
  intros Hne Hnone. unfold DagPutCmd_Run, func, bind, cmdenv_GetNode.
  destruct (GetNode env) as [e|[]].
  - exists e. unfold return_. rewrite enter_exit. split; [reflexivity|discriminate].
  - apply String.eqb_neq in Hne. rewrite Hne, Hnone.
    exists (ErrNotMultihashName (opt_hash req)). unfold return_.
    rewrite enter_exit. split; reflexivity.
Qed.

Lemma DagPutCmd_Run_spec env req w :
  (exists e, DagPutCmd_Run env req w = (Next (Returned (Some e)), w)) \/
  exists r w1 o w' tail,
    addAllAndPin env (opt_input_enc req) (opt_format req) (request_mhType env req)
      (opt_pin req) (Files req) (producer_start w) = (Next r, w1) /\
    DagPutCmd_Run env req w = (Next o, w') /\
    trace w' = trace w1 ++ tail /\ (tail = [EvClose] \/ tail = []) /\
    pins w' = pins w1 /\ durable_pins w' = durable_pins w1 /\
    pin_locked w' = pin_locked w1 /\ store w' = store w1.
Proof.
  unfold DagPutCmd_Run, request_mhType.
  unfold func, bind, cmdenv_GetNode, ret, return_, defer_, res_Emit_outChan.
  destruct (GetNode env) as [e|[]].
  { left. exists e. rewrite enter_exit. reflexivity. }
  destruct (String.eqb (opt_hash req) EmptyString);
    [|destruct (Names env !! opt_hash req) as [t|];
      [|left; eexists; rewrite enter_exit; reflexivity]].
  all: right.
  all: change (set_defers (DeferClose :: defers (set_defers [] (set_defers [] w)))
                 (set_defers [] (set_defers [] w))) with (producer_start w).
  all: match goal with
       | |- context [addAllAndPin ?a ?b ?c ?mh ?d ?f ?w0] =>
           destruct (addAllAndPin_spec a b c mh d f (producer_start w))
             as (r & w1 & Hcall & (evs & k & _ & _ & Hdef & _))
       end.
  all: exists r, w1; rewrite Hcall; cbn in Hdef.
  all: destruct r as [e|]; unfold deliver, return_, blocked; cbv beta iota zeta.
  all: try (assert (Hrd : run_defers w1 = set_defers [] (record EvClose w1))
              by (unfold run_defers; rewrite Hdef; reflexivity);
            rewrite Hrd;
            match goal with |- context [res_Emit ?en ?x] => destruct (res_Emit en x) as [e'|] end;
            eexists _, _, [EvClose]; (split; [reflexivity|]); (split; [reflexivity|]);
            cbn; auto 10).
  all: match goal with |- context [res_Emit ?en ?x] => destruct (res_Emit en x) as [e'|] end;
       eexists _, _, []; (split; [reflexivity|]); (split; [reflexivity|]);
       cbn; rewrite app_nil_r; auto 10.
Qed.

Lemma urlAdd_Run_trace env k url t dopin w :
  match urlAdd_Run env k url t dopin w with
  | (o, w') =>
      exists r evs, o = Next r /\ trace w' = trace w ++ evs /\
        lock_held_after false evs = false /\
        mutations_guarded false evs = true /\
        (In EvPinLock evs -> pin_locked w' = false)
  end.
Proof.
  unfold_urlAdd. run_cases.
  all: cbn [trace record set_defers set_pins set_pin_locked set_durable_pins
            defers fold_left run_deferred pin_locked].
  all: eexists _, _; (split; [reflexivity|]).
  all: rewrite <- ?app_assoc.
  all: try (split; [rewrite <- (app_nil_r (trace w)) at 1; reflexivity|]).
  all: try (split; [reflexivity|]).
  all: cbn; repeat split; try reflexivity.
  all: intros H; repeat (destruct H as [H|H]; try discriminate H); contradiction.
Qed.

Lemma lock_held_after_app h evs1 evs2 :
  lock_held_after h (evs1 ++ evs2) = lock_held_after (lock_held_after h evs1) evs2.
Proof.
  revert h. induction evs1 as [|ev evs1 IH]; intros h; [reflexivity|].
  destruct ev; cbn; apply IH.
Qed.

Lemma mutations_guarded_app h evs1 evs2 :
  mutations_guarded h (evs1 ++ evs2) =
  mutations_guarded h evs1 && mutations_guarded (lock_held_after h evs1) evs2.
Proof.
  revert h. induction evs1 as [|ev evs1 IH]; intros h; [reflexivity|].
  destruct ev; cbn; rewrite ?IH, ?andb_assoc; reflexivity.
Qed.

Lemma loop_events_quiet h evs :
  forallb is_loop_event evs = true ->
  lock_held_after h evs = h /\ mutations_guarded h evs = true /\
  existsb is_pin_mutation evs = false /\
  ~ In EvPinLock evs /\ (forall e, ~ In (EvCommit e) evs).
Proof.
  induction evs as [|ev evs IH]; cbn [forallb].
  - intros _. cbn. split; [reflexivity|]. split; [reflexivity|]. split; [reflexivity|].
    split; [tauto|]. intros e. tauto.
  - intros H. apply andb_prop in H as (Hev & Hevs).
    destruct (IH Hevs) as (Hl & Hg & Hm & Hp & Hc).
    destruct ev; try discriminate Hev; cbn; rewrite ?Hl, ?Hg, ?Hm;
      (split; [reflexivity|]); (split; [reflexivity|]); (split; [reflexivity|]);
      (split; [intros [H|H]; [discriminate H|contradiction]|]);
      intros e [H|H]; try discriminate H; eapply Hc; eassumption.
Qed.

Lemma pin_events_guarded cs :
  lock_held_after true (map (fun c => EvPinWithMode c Recursive) cs) = true /\
  mutations_guarded true (map (fun c => EvPinWithMode c Recursive) cs) = true.
Proof. induction cs as [|c cs [IH1 IH2]]; cbn; auto. Qed.

(** * Properties of the commands *)

(** ** Peer IDs *)

Lemma Cast_nonempty ValidCode buf m :
  Multihash.Cast ValidCode buf = inr m -> buf <> [] /\ m = buf.
Proof.
  unfold Multihash.Cast, Multihash.Decode. intros H. split.
  - intros ->. discriminate H.
  - destruct (length buf <? 2)%nat; [discriminate H|].
    destruct (Multihash.uvarint buf) as [e|[code buf1]]; [discriminate H|].
    destruct (Multihash.uvarint buf1) as [e|[len buf2]]; [discriminate H|].
    destruct (2 ^ 31 - 1 <? len)%Z; [discriminate H|].
    destruct (Z.of_nat (length buf2) =? len)%Z; [|discriminate H].
    cbn [Multihash.Code] in H. destruct (ValidCode code); congruence.
Qed.

(** C10.  For every peer ID whose bytes are a valid multihash (that is,
    [mh.Cast] accepts them), decoding its base58 text gives the ID back
    with a nil error: [IDB58Decode(IDB58Encode(id)) = (id, nil)]. *)
Theorem IDB58Decode_IDB58Encode (ValidCode : Z -> bool) (id : peer.ID) (m : list byte) :
  Multihash.Cast ValidCode (list_byte_of_string id) = inr m ->
  peer.IDB58Decode ValidCode (peer.IDB58Encode id) = (id, None).
Proof.
  intros Hcast. pose proof (Cast_nonempty _ _ _ Hcast) as (Hne & ->).
  unfold peer.IDB58Decode, peer.IDB58Encode, Multihash.FromB58String.
  rewrite (Base58_Decode_Encode _ Hne), Hcast, string_of_list_byte_of_string.
  reflexivity.
Qed.

Lemma IDB58Decode_IDB58Encode_witness :
  Multihash.Cast sample_ValidCode
    (list_byte_of_string (string_of_list_byte sample_id)) = inr sample_id /\
  peer.IDB58Encode (string_of_list_byte sample_id) =
    "QmZtnFaddFtzGNT8BxdHVbQrhSFdq1pWxud5z4fA4kxfDt" /\
  peer.IDB58Decode sample_ValidCode
    (peer.IDB58Encode (string_of_list_byte sample_id)) =
    (string_of_list_byte sample_id, None).
Proof.
  split; [vm_compute; reflexivity|]. split; [vm_compute; reflexivity|].
  apply (IDB58Decode_IDB58Encode sample_ValidCode _ sample_id).
  vm_compute. reflexivity.
Defined.

(** ** [dag put]: the hash name *)

(** C3.  When the request names a hash function that [mh.Names] does not
    know, [DagPutCmd.Run] returns an error and leaves the state exactly as
    it found it: nothing is read, parsed, staged, committed, sent or
    pinned.  Unless [GetNode] fails first, the error is the one naming the
    hash. *)
Theorem DagPut_unknown_hash_no_io (env : Env) (req : PutRequest) (w : World) :
  opt_hash req <> EmptyString ->
  Names env !! opt_hash req = None ->
  exists e,
    DagPutCmd_Run env req w = (Next (Returned (Some e)), w) /\
    (GetNode env = inr tt -> e = ErrNotMultihashName (opt_hash req)).
Proof. apply DagPutCmd_Run_rejects. Qed.

Lemma DagPut_unknown_hash_no_io_witness :
  exists e,
    DagPutCmd_Run (sample_env keeps_up None 200)
      (sample_request true "sha9" [sample_file "f1" [x61; x62]]) (initial ∅ ∅) =
      (Next (Returned (Some e)), initial ∅ ∅) /\
    (GetNode (sample_env keeps_up None 200) = inr tt ->
     e = ErrNotMultihashName "sha9").
Proof.
  apply (DagPut_unknown_hash_no_io (sample_env keeps_up None 200)
           (sample_request true "sha9" [sample_file "f1" [x61; x62]])).
  - discriminate.
  - vm_compute. reflexivity.
Defined.

(** ** [urlstore add] *)

(** C5.  When the HTTP GET answers with a status other than 200,
    [urlAdd] returns the error "expected code 200, got: <status>" and the
    only thing it has done is the GET: no lock, no chunking or layout, no
    pin, no emitted record. *)
Theorem UrlAdd_non_200_aborts (env : Env) (k : UrlConsts) (url : string)
    (useTrickledag dopin : bool) (w : World) (cfg : Config)
    (hreq : Request) (hres : Response) :
  GetNode env = inr tt ->
  IsURL env url = true ->
  Repo_Config env = inr cfg -> UrlstoreEnabled cfg = true ->
  NewRequest env "GET" url = inr hreq ->
  Client_Do env hreq = inr hres ->
  StatusCode hres <> 200%Z ->
  urlAdd_Run env k url useTrickledag dopin w =
    (Next (Returned (Some (ErrStatusCode (StatusCode hres)))),
     record (EvHTTPDo hreq) w) /\
  Error (ErrStatusCode (StatusCode hres)) =
    "expected code 200, got: " +:+ fmt_d (StatusCode hres).
Proof.
  intros Hnode Hurl Hcfg Hen Hreq Hdo Hcode. split; [|reflexivity].
  unfold_urlAdd. rewrite Hnode, Hurl, Hcfg, Hen, Hreq, Hdo.
  apply Z.eqb_neq in Hcode. unfold StatusOK. rewrite Hcode.
  cbn. destruct w. reflexivity.
Qed.

Lemma UrlAdd_non_200_aborts_witness :
  urlAdd_Run (sample_env keeps_up None 404) sample_consts "http://example.org/a"
    false true (initial ∅ ∅) =
    (Next (Returned (Some (errorString "expected code 200, got: 404"))),
     record (EvHTTPDo (mkRequest "GET" "http://example.org/a")) (initial ∅ ∅)) /\
  Error (ErrStatusCode 404) = "expected code 200, got: 404".
Proof.
  apply (UrlAdd_non_200_aborts (sample_env keeps_up None 404) sample_consts
           "http://example.org/a" false true (initial ∅ ∅) (mkConfig true)
           (mkRequest "GET" "http://example.org/a") (sample_response 404));
    try reflexivity.
  cbn. discriminate.
Defined.

Lemma to_int_id x : is_int64 x -> to_int x = x.
Proof.
  unfold is_int64, to_int, to_int64. intros H.
  rewrite Z.mod_small by lia. lia.
Qed.

(** C6.  When [urlAdd] succeeds it has emitted exactly one record, and
    the [Size] of that record is the [ContentLength] of the HTTP response
    (an [int64], converted to [int]). *)
Theorem UrlAdd_Size_is_ContentLength (env : Env) (k : UrlConsts) (url : string)
    (useTrickledag dopin : bool) (w w' : World) (hreq : Request) (hres : Response) :
  NewRequest env "GET" url = inr hreq ->
  Client_Do env hreq = inr hres ->
  is_int64 (ContentLength hres) ->
  urlAdd_Run env k url useTrickledag dopin w = (Next (Returned None), w') ->
  exists evs key,
    trace w' = trace w ++ evs /\
    emitted_of evs = [ {| Key := key; Size := ContentLength hres |} ].
Proof.
  intros Hreq Hdo Hrange. unfold_urlAdd. rewrite Hreq, Hdo.
  rewrite (to_int_id _ Hrange).
  run_cases; intros [= <-].
  all: cbn [trace record set_defers set_pins set_pin_locked set_durable_pins
            defers fold_left run_deferred].
  all: rewrite <- ?app_assoc; eexists _, _; split; reflexivity.
Qed.

Lemma UrlAdd_Size_is_ContentLength_witness :
  fst (urlAdd_Run quiet_env sample_consts "http://example.org/a" false true
         (initial ∅ ∅)) = Next (Returned None) /\
  exists evs key,
    trace (snd (urlAdd_Run quiet_env sample_consts "http://example.org/a" false true
                  (initial ∅ ∅))) = trace (initial ∅ ∅) ++ evs /\
    emitted_of evs = [ {| Key := key; Size := 3 |} ].
Proof.
  split; [vm_compute; reflexivity|].
  apply (UrlAdd_Size_is_ContentLength quiet_env sample_consts
           "http://example.org/a" false true (initial ∅ ∅) _
           (mkRequest "GET" "http://example.org/a") (sample_response 200)).
  - reflexivity.
  - reflexivity.
  - unfold is_int64. cbn. lia.
  - vm_compute. reflexivity.
Defined.

(** ** The pin lock *)

Lemma addAllAndPin_lock env ienc format mhType dopin f w r w' :
  addAllAndPin_shape env ienc format mhType dopin f w r w' ->
  exists evs, trace w' = trace w ++ evs /\
    lock_held_after false evs = false /\
    mutations_guarded false evs = true /\
    (In EvPinLock evs -> pin_locked w' = false).
Proof.
  intros (evs & k & He & _ & _ & Hcases).
  destruct (loop_events_quiet false evs He) as (Hl & Hg & _ & Hnl & _).
  destruct Hcases as [(_ & Ht & _)|[(_ & e & _ & Ht & _)|[(_ & _ & _ & Ht & _)|
    [(_ & _ & _ & _ & Ht & _)|
     (_ & _ & cs & ferr & _ & _ & Ht & _ & Hlock & _)]]]].
  - exists evs. split; [exact Ht|]. split; [exact Hl|]. split; [exact Hg|].
    intros Hin. contradiction.
  - exists (evs ++ [EvCommit (Some e)]). split; [exact Ht|].
    rewrite lock_held_after_app, mutations_guarded_app, Hl, Hg.
    split; [reflexivity|]. split; [reflexivity|].
    intros Hin. apply in_app_or in Hin as [Hin|[Hin|[]]]; [contradiction|discriminate].
  - exists (evs ++ [EvCommit None]). split; [exact Ht|].
    rewrite lock_held_after_app, mutations_guarded_app, Hl, Hg.
    split; [reflexivity|]. split; [reflexivity|].
    intros Hin. apply in_app_or in Hin as [Hin|[Hin|[]]]; [contradiction|discriminate].
  - exists (evs ++ [EvCommit None]). split; [exact Ht|].
    rewrite lock_held_after_app, mutations_guarded_app, Hl, Hg.
    split; [reflexivity|]. split; [reflexivity|].
    intros Hin. apply in_app_or in Hin as [Hin|[Hin|[]]]; [contradiction|discriminate].
  - destruct (pin_events_guarded cs) as (Hl2 & Hg2).
    eexists. split; [exact Ht|].
    rewrite lock_held_after_app, mutations_guarded_app, Hl, Hg.
    cbn [app lock_held_after mutations_guarded is_pin_mutation negb orb andb].
    rewrite lock_held_after_app, mutations_guarded_app, Hl2, Hg2.
    split; [reflexivity|]. split; [reflexivity|]. intros _. exact Hlock.
Qed.

Lemma DagPutCmd_Run_lock env req w :
  exists evs,
    trace (snd (DagPutCmd_Run env req w)) = trace w ++ evs /\
    lock_held_after false evs = false /\
    mutations_guarded false evs = true /\
    (In EvPinLock evs -> pin_locked (snd (DagPutCmd_Run env req w)) = false).
Proof.
  destruct (DagPutCmd_Run_spec env req w) as
    [(e & ->)|(r & w1 & o & w' & tail & Hcall & -> & Ht & Htail & _ & _ & Hlock & _)].
  - exists []. cbn. rewrite app_nil_r. repeat split; tauto.
  - destruct (addAllAndPin_spec env (opt_input_enc req) (opt_format req)
                (request_mhType env req) (opt_pin req) (Files req) (producer_start w))
      as (r' & w1' & Hcall' & Hshape).
    rewrite Hcall in Hcall'. injection Hcall' as <- <-.
    destruct (addAllAndPin_lock _ _ _ _ _ _ _ _ _ Hshape) as (evs & Ht1 & Hl & Hg & Hp).
    exists (evs ++ tail). cbn [snd]. rewrite Ht, Ht1, <- app_assoc.
    split; [reflexivity|].
    rewrite lock_held_after_app, mutations_guarded_app, Hl, Hg, Hlock.
    destruct Htail as [-> | ->]; cbn.
    + repeat split. intros Hin. apply Hp.
      apply in_app_or in Hin as [Hin|[Hin|[]]]; [exact Hin|discriminate].
    + repeat split. intros Hin. apply Hp. rewrite app_nil_r in Hin. exact Hin.
Qed.

(** C7.  In every run of [dag put] and of [urlstore add], the acquisitions
    and releases of the pin lock pair up: after the events of the run the
    lock is not held, whatever the run returned (a [Flush] failure
    included), and a run that acquired the lock leaves it free. *)
Theorem pin_lock_released_on_every_exit (env : Env) (req : PutRequest)
    (k : UrlConsts) (url : string) (useTrickledag dopin : bool) (w : World) :
  (exists evs,
     trace (snd (DagPutCmd_Run env req w)) = trace w ++ evs /\
     lock_held_after false evs = false /\
     (In EvPinLock evs -> pin_locked (snd (DagPutCmd_Run env req w)) = false)) /\
  (exists evs,
     trace (snd (urlAdd_Run env k url useTrickledag dopin w)) = trace w ++ evs /\
     lock_held_after false evs = false /\
     (In EvPinLock evs ->
      pin_locked (snd (urlAdd_Run env k url useTrickledag dopin w)) = false)).
Proof.
  split.
  - destruct (DagPutCmd_Run_lock env req w) as (evs & Ht & Hl & _ & Hp).
    exists evs. auto.
  - pose proof (urlAdd_Run_trace env k url useTrickledag dopin w) as H.
    destruct (urlAdd_Run env k url useTrickledag dopin w) as [o w'].
    destruct H as (r & evs & _ & Ht & Hl & _ & Hp). exists evs. auto.
Qed.

(** C8.  In every run of [dag put] and of [urlstore add], each
    [PinWithMode] call and each [Flush] happens between an acquisition of
    the pin lock and its release. *)
Theorem pin_mutations_hold_lock (env : Env) (req : PutRequest)
    (k : UrlConsts) (url : string) (useTrickledag dopin : bool) (w : World) :
  (exists evs,
     trace (snd (DagPutCmd_Run env req w)) = trace w ++ evs /\
     mutations_guarded false evs = true) /\
  (exists evs,
     trace (snd (urlAdd_Run env k url useTrickledag dopin w)) = trace w ++ evs /\
     mutations_guarded false evs = true).
Proof.
  split.
  - destruct (DagPutCmd_Run_lock env req w) as (evs & Ht & _ & Hg & _).
    exists evs. auto.
  - pose proof (urlAdd_Run_trace env k url useTrickledag dopin w) as H.
    destruct (urlAdd_Run env k url useTrickledag dopin w) as [o w'].
    destruct H as (r & evs & _ & Ht & _ & Hg & _). exists evs. auto.
Qed.

(** A [Flush] failure in [dag put]: the error is returned, and the lock
    taken before the pins is released before the channel is closed. *)
Example DagPut_flush_failure :
  fst (DagPutCmd_Run failing_flush_env
         (sample_request true "sha2-256" [sample_file "doc" [x61; x62]])
         (initial ∅ ∅)) = Next (Returned (Some (errorString "disk full"))) /\
  trace (snd (DagPutCmd_Run failing_flush_env
                (sample_request true "sha2-256" [sample_file "doc" [x61; x62]])
                (initial ∅ ∅))) =
    [EvNextFile; EvParseInputs (mkFile "doc" [x61; x62]);
     EvBatchAdd "a"; EvBatchAdd "b"; EvSend (mkOutputObject "a"); EvNextFile;
     EvCommit None; EvPinLock; EvPinWithMode "a" Recursive;
     EvFlush (Some (errorString "disk full")); EvUnlock; EvClose] /\
  pin_locked (snd (DagPutCmd_Run failing_flush_env
                     (sample_request true "sha2-256" [sample_file "doc" [x61; x62]])
                     (initial ∅ ∅))) = false.
Proof. vm_compute. auto. Qed.

(** The same in [urlstore add], where the lock is taken before the
    layout is built and released after the error return. *)
Example UrlAdd_flush_failure :
  fst (urlAdd_Run failing_flush_env sample_consts "http://example.org/a" true true
         (initial ∅ ∅)) = Next (Returned (Some (errorString "disk full"))) /\
  map is_pin_mutation
    (trace (snd (urlAdd_Run failing_flush_env sample_consts "http://example.org/a"
                   true true (initial ∅ ∅)))) =
    [false; false; false; true; true; false] /\
  lock_held_after false
    (trace (snd (urlAdd_Run failing_flush_env sample_consts "http://example.org/a"
                   true true (initial ∅ ∅)))) = false.
Proof. vm_compute. auto. Qed.


(** ** [dag put]: a unit without nodes, and cancellation *)

Lemma put_units_defers env ienc format mhType f st w o w' :
  put_units env ienc format mhType f st w = (o, w') ->
  defers w' = defers w /\ pins w' = pins w /\ durable_pins w' = durable_pins w /\
  exists evs, trace w' = trace w ++ evs /\ forallb is_loop_event evs = true.
Proof.
  intros E. pose proof (put_units_spec env ienc format mhType f st w) as H.
  rewrite E in H. destruct H as (evs & k & (Ht & Hp & Hd & _ & Hf & He) & _).
  eauto 10.
Qed.

Lemma add_nodes_defers env nds b w o w' :
  add_nodes env nds b w = (o, w') ->
  defers w' = defers w /\ pins w' = pins w /\ durable_pins w' = durable_pins w /\
  exists evs, trace w' = trace w ++ evs /\ forallb is_loop_event evs = true.
Proof.
  intros E. destruct (add_nodes_spec env nds b w) as (evs & H & _).
  rewrite E in H. destruct H as (Ht & Hp & Hd & _ & Hf & He). eauto 10.
Qed.

(** C4.  When the loop of [addAllAndPin] comes to an input unit whose
    parse succeeds with zero nodes, the call returns the error
    "no node returned from ParseInputs": after reading and parsing the
    unit nothing more happens; [Commit] is not called and nothing is
    pinned. *)
Theorem addAllAndPin_no_nodes (env : Env) (ienc format : string) (mhType : Z)
    (dopin : bool) (f1 f2 : list (error + File)) (file : File) (w : World)
    (st1 : gset string * gmap string Node) (w1 : World) :
  put_units env ienc format mhType f1 (∅, NewBatch) (enter w) = (Next st1, w1) ->
  ParseInputs env ienc format file mhType (-1) = inr [] ->
  exists w',
    addAllAndPin env ienc format mhType dopin (f1 ++ inr file :: f2) w =
      (Next (Returned (Some ErrNoNodes)), w') /\
    trace w' = trace w1 ++ [EvNextFile; EvParseInputs file] /\
    (exists evs, trace w' = trace w ++ evs /\ forallb is_loop_event evs = true) /\
    pins w' = pins w /\ durable_pins w' = durable_pins w.
Proof.
  intros Hpre Hparse.
  destruct (put_units_defers _ _ _ _ _ _ _ _ _ Hpre) as (Hf & Hp & Hd & evs & Ht & He).
  cbn in Ht.
  unfold addAllAndPin, func, put_loop, bind.
  rewrite put_units_app. change (set_defers [] w) with (enter w). rewrite Hpre.
  cbn [put_units]. unfold bind, put_unit, bind, log, ret, coredag_ParseInputs.
  cbv beta iota zeta. rewrite Hparse. unfold return_.
  eexists. split; [reflexivity|].
  rewrite run_defers_nil by exact Hf.
  cbn. rewrite <- app_assoc. split; [reflexivity|]. split; [|auto].
  exists (evs ++ [EvNextFile; EvParseInputs file]).
  rewrite Ht, <- app_assoc, forallb_app, He. split; reflexivity.
Qed.

(** C9.  When the loop of [addAllAndPin] has staged a unit and its send
    on the result channel has to wait (the buffer is full) while the
    request context is done, the call returns nil at once: the value in
    flight is not sent, no further input is read, [Commit] is not called
    and nothing is pinned. *)
Theorem addAllAndPin_cancelled_while_queuing (env : Env) (ienc format : string)
    (mhType : Z) (dopin : bool) (f1 f2 : list (error + File)) (file : File)
    (w : World) (st1 : gset string * gmap string Node) (w1 : World)
    (nd0 : Node) (nds : list Node) (b2 : gmap string Node) (w2 : World) :
  put_units env ienc format mhType f1 (∅, NewBatch) (enter w) = (Next st1, w1) ->
  ParseInputs env ienc format file mhType (-1) = inr (nd0 :: nds) ->
  add_nodes env (nd0 :: nds) (snd st1)
    (record (EvParseInputs file) (record EvNextFile w1)) = (Next b2, w2) ->
  (outChan_cap <= length (skipn (drained (select_env env w2)) (outChan w2)))%nat ->
  ctx_done (select_env env w2) = true ->
  exists w',
    addAllAndPin env ienc format mhType dopin (f1 ++ inr file :: f2) w =
      (Next (Returned None), w') /\
    trace w' = trace w2 /\
    (exists evs, trace w' = trace w ++ evs /\ forallb is_loop_event evs = true /\
                 sent_of evs = sent_of (skipn (length (trace w)) (trace w1))) /\
    pins w' = pins w /\ durable_pins w' = durable_pins w.
Proof.
  intros Hpre Hparse Hadd Hfull Hdone.
  destruct (put_units_defers _ _ _ _ _ _ _ _ _ Hpre) as (Hf & Hp & Hd & evs & Ht & He).
  destruct (add_nodes_defers _ _ _ _ _ _ Hadd) as (Hf2 & Hp2 & Hd2 & evs2 & Ht2 & He2).
  destruct (add_nodes_spec env (nd0 :: nds) (snd st1)
              (record (EvParseInputs file) (record EvNextFile w1))) as (evs3 & H3 & Hs3).
  rewrite Hadd in H3. cbn [snd] in H3. destruct H3 as (Ht3 & _).
  cbn in Hf, Hp, Hd, Ht, Hf2, Hp2, Hd2, Ht2, Ht3.
  unfold addAllAndPin, func, put_loop, bind.
  rewrite put_units_app. change (set_defers [] w) with (enter w). rewrite Hpre.
  cbn [put_units]. unfold bind, put_unit, bind, log, ret, coredag_ParseInputs.
  cbv beta iota zeta. rewrite Hparse, Hadd.
  unfold select_outChan. cbv beta iota zeta.
  apply Nat.ltb_ge in Hfull. rewrite Hfull, Hdone. unfold return_.
  eexists. split; [reflexivity|].
  rewrite run_defers_nil by (cbn; congruence).
  cbn. split; [reflexivity|]. split; [|split; congruence].
  exists (evs ++ [EvNextFile; EvParseInputs file] ++ evs2).
  assert (Hsame : evs2 = evs3).
  { rewrite Ht3 in Ht2. apply app_inv_head in Ht2. congruence. }
  split; [rewrite Ht2, Ht, <- !app_assoc; reflexivity|].
  split; [rewrite !forallb_app, He, He2; reflexivity|].
  rewrite Ht, skipn_app, Nat.sub_diag, skipn_all. cbn [skipn app].
  rewrite sent_of_app. cbn [app sent_of]. rewrite Hsame, Hs3, app_nil_r. reflexivity.
Qed.

Lemma addAllAndPin_no_nodes_witness :
  exists w',
    addAllAndPin quiet_env "json" "cbor" MaxUint64 true
      ([sample_file "doc" [x61; x62]] ++ inr (mkFile "empty" []) :: [sample_file "more" [x63]])
      (initial ∅ ∅) = (Next (Returned (Some ErrNoNodes)), w') /\
    trace w' =
      trace (snd (after_units quiet_env [sample_file "doc" [x61; x62]] (initial ∅ ∅))) ++
      [EvNextFile; EvParseInputs (mkFile "empty" [])] /\
    (exists evs, trace w' = trace (initial ∅ ∅) ++ evs /\
                 forallb is_loop_event evs = true) /\
    pins w' = pins (initial ∅ ∅) /\
    durable_pins w' = durable_pins (initial ∅ ∅).
Proof.
  apply (addAllAndPin_no_nodes quiet_env "json" "cbor" MaxUint64 true
           [sample_file "doc" [x61; x62]] [sample_file "more" [x63]]
           (mkFile "empty" []) (initial ∅ ∅)
           (fst (after_units quiet_env [sample_file "doc" [x61; x62]] (initial ∅ ∅)))).
  - vm_compute. reflexivity.
  - reflexivity.
Defined.

Lemma addAllAndPin_cancelled_while_queuing_witness :
  exists w',
    addAllAndPin stalled_env "json" "cbor" MaxUint64 true
      (eight_files ++ inr ninth_file :: [sample_file "f" [x6a]]) (initial ∅ ∅) =
      (Next (Returned None), w') /\
    trace w' = trace (snd ninth_staged) /\
    (exists evs, trace w' = trace (initial ∅ ∅) ++ evs /\
                 forallb is_loop_event evs = true /\
                 sent_of evs =
                   sent_of (skipn (length (trace (initial ∅ ∅)))
                              (trace (snd (after_units stalled_env eight_files
                                             (initial ∅ ∅)))))) /\
    pins w' = pins (initial ∅ ∅) /\
    durable_pins w' = durable_pins (initial ∅ ∅).
Proof.
  apply (addAllAndPin_cancelled_while_queuing stalled_env "json" "cbor" MaxUint64 true
           eight_files [sample_file "f" [x6a]] ninth_file (initial ∅ ∅)
           (fst (after_units stalled_env eight_files (initial ∅ ∅)))
           (snd (after_units stalled_env eight_files (initial ∅ ∅)))
           (byte_node x69) [] (fst ninth_staged)).
  - vm_compute. reflexivity.
  - reflexivity.
  - vm_compute. reflexivity.
  - vm_compute. lia.
  - vm_compute. reflexivity.
Defined.

Example cancelled_run_sends_eight :
  sent_of (trace (snd (addAllAndPin stalled_env "json" "cbor" MaxUint64 true
                         (eight_files ++ inr ninth_file :: [sample_file "f" [x6a]])
                         (initial ∅ ∅)))) =
  ["a"; "b"; "c"; "d"; "e"; "f"; "g"; "h"].
Proof. vm_compute. reflexivity. Qed.

(** * Further properties: text forms of peer IDs *)

Section Base58Text.
Import Radix Base58.
Local Open Scope N_scope.

Lemma char_digit_inv c d :
  char_digit c = Some d -> d < 58 /\ digit_char d = c.
Proof.
  assert (H : match char_digit c with
              | Some d' => (d' <? 58) && Ascii.eqb (digit_char d') c
              | None => true
              end = true).
  { destruct c as [[] [] [] [] [] [] [] []]; vm_compute; reflexivity. }
  intros E. rewrite E in H. apply andb_prop in H as (H1 & H2).
  split; [apply N.ltb_lt, H1|apply Ascii.eqb_eq, H2].
Qed.

Lemma digits_of_inv cs ds :
  digits_of cs = Some ds ->
  Forall (fun d => d < 58) ds /\ map digit_char ds = cs.
Proof.
  revert ds. induction cs as [|c cs IH]; intros ds; cbn [digits_of].
  - intros [= <-]. split; [constructor|reflexivity].
  - destruct (char_digit c) as [d|] eqn:Ec; [|discriminate].
    destruct (digits_of cs) as [ds'|]; [|discriminate].
    intros [= <-]. destruct (IH ds' eq_refl) as (Hall & Hmap).
    destruct (char_digit_inv c d Ec) as (Hd & Hc).
    split; [constructor; assumption|]. cbn [map]. rewrite Hc, Hmap. reflexivity.
Qed.

Lemma byte_of_N_to_N d : d < 256 -> Byte.to_N (byte_of_N d) = d.
Proof.
  intros Hd. unfold byte_of_N.
  destruct (Byte.of_N d) as [b|] eqn:E.
  - apply Byte.to_of_N, E.
  - exfalso. apply Byte.of_N_None_iff in E. lia.
Qed.

Lemma strip_leading_Forall {A} (p : A -> bool) (P : A -> Prop) l :
  Forall P l -> Forall P (strip_leading p l).
Proof.
  induction 1 as [|x l Hx Hl IH]; cbn [strip_leading]; [constructor|].
  destruct (p x); [exact IH|constructor; assumption].
Qed.

Lemma to_base_of_base_strip base ds :
  2 <= base -> Forall (fun d => d < base) ds ->
  to_base base (of_base base ds) = strip_leading (N.eqb 0) ds.
Proof.
  intros Hb Hall. rewrite <- (of_base_strip_leading base ds).
  apply to_base_of_base; [exact Hb|].
  pose proof (strip_leading_Forall (N.eqb 0) _ ds Hall) as Hs.
  destruct (strip_leading (N.eqb 0) ds) as [|d l] eqn:E; [exact I|].
  apply canonical_le_rev_cons. split; [exact Hs|].
  apply strip_leading_head in E. apply N.eqb_neq in E. congruence.
Qed.

Lemma Encode_Decode str bin :
  Base58.Decode str = inr bin -> Base58.Encode bin = str.
Proof.
  unfold Base58.Decode, Base58.Encode.
  destruct (String.length str =? 0)%nat; [discriminate|].
  destruct (digits_of (list_ascii_of_string str)) as [ds|] eqn:Eds; [|discriminate].
  intros [= <-].
  destruct (digits_of_inv _ _ Eds) as (Hall & Hmap).
  set (z := count_leading (N.eqb 0) ds).
  set (body := to_base 256 (of_base 58 ds)).
  assert (Hbody : Forall (fun d => d < 256) body) by (apply to_base_bound; lia).
  assert (Hvals : map Byte.to_N (map byte_of_N body) = body).
  { rewrite map_map. clearbody body. induction Hbody as [|d l Hd _ IH]; [reflexivity|].
    cbn [map]. rewrite byte_of_N_to_N by exact Hd. f_equal. exact IH. }
  assert (Hz : count_leading (Byte.eqb x00) (repeat x00 z ++ map byte_of_N body) = z).
  { apply count_leading_repeat_app; [reflexivity|].
    intros b l E. destruct body as [|d body'] eqn:Eb; [discriminate|].
    cbn [map] in E. injection E as <- _.
    assert (Hd : d <> 0) by (eapply (to_base_head_nonzero 256); [lia|exact Eb]).
    inversion Hbody; subst.
    destruct (Byte.eqb x00 (byte_of_N d)) eqn:Eq; [|reflexivity].
    apply Byte.byte_dec_bl in Eq.
    exfalso. apply Hd. rewrite <- (byte_of_N_to_N d) by assumption.
    rewrite <- Eq. reflexivity. }
  rewrite Hz, map_app, Hvals.
  assert (Hzeros : map Byte.to_N (repeat x00 z) = repeat 0 z)
    by (clear; induction z; cbn; congruence).
  rewrite Hzeros, of_base_leading_zeros. unfold body.
  rewrite of_base_to_base by lia.
  rewrite (to_base_of_base_strip 58 ds) by (lia || exact Hall).
  rewrite <- (string_of_list_ascii_of_string str), <- Hmap. f_equal.
  transitivity (map digit_char (repeat 0 z ++ strip_leading (N.eqb 0) ds)).
  - rewrite map_app. f_equal. clearbody z. clear.
    induction z as [|z IH]; [reflexivity|]. cbn [repeat map]. rewrite <- IH. reflexivity.
  - f_equal. apply count_strip_leading.
    intros x Hx. apply N.eqb_eq in Hx. congruence.
Qed.

Lemma Encode_nonempty bin : bin <> [] -> Base58.Encode bin <> EmptyString.
Proof.
  intros Hne E. pose proof (Base58_Decode_Encode bin Hne) as H.
  rewrite E in H. discriminate H.
Qed.

Lemma Encode_inj b1 b2 : Base58.Encode b1 = Base58.Encode b2 -> b1 = b2.
Proof.
  intros E. destruct b1 as [|x1 b1], b2 as [|x2 b2]; [reflexivity| | |].
  - exfalso. eapply (Encode_nonempty (x2 :: b2)); [discriminate|]. rewrite <- E. reflexivity.
  - exfalso. eapply (Encode_nonempty (x1 :: b1)); [discriminate|]. rewrite E. reflexivity.
  - assert (H1 := Base58_Decode_Encode (x1 :: b1) ltac:(discriminate)).
    assert (H2 := Base58_Decode_Encode (x2 :: b2) ltac:(discriminate)).
    rewrite E in H1. congruence.
Qed.

End Base58Text.

(** * Hexadecimal text *)

Section HexFacts.
Import Hex.
Local Open Scope N_scope.

Lemma list_pair_ind {A} (P : list A -> Prop) :
  P [] -> (forall x, P [x]) -> (forall x y l, P l -> P (x :: y :: l)) ->
  forall l, P l.
Proof.
  intros H0 H1 H2 l.
  enough (H : P l /\ forall x, P (x :: l)) by apply H.
  induction l as [|y l [IH1 IH2]]; split; auto.
Qed.

Lemma fromHexChar_hexdigit d : d < 16 -> fromHexChar (hexdigit d) = Some d.
Proof.
  intros Hd.
  assert (Hall : forallb (fun k => match fromHexChar (hexdigit (N.of_nat k)) with
                                   | Some d' => d' =? N.of_nat k
                                   | None => false
                                   end) (seq 0 16) = true) by (vm_compute; reflexivity).
  rewrite forallb_forall in Hall. specialize (Hall (N.to_nat d)).
  rewrite N2Nat.id in Hall.
  specialize (Hall ltac:(apply in_seq; lia)).
  destruct (fromHexChar (hexdigit d)) as [d'|]; [|discriminate].
  apply N.eqb_eq in Hall. congruence.
Qed.

Lemma fromHexChar_inv c d :
  fromHexChar c = Some d -> d < 16 /\ hexdigit d = lower_ascii c.
Proof.
  assert (H : match fromHexChar c with
              | Some d' => (d' <? 16) && Ascii.eqb (hexdigit d') (lower_ascii c)
              | None => true
              end = true).
  { destruct c as [[] [] [] [] [] [] [] []]; vm_compute; reflexivity. }
  intros E. rewrite E in H. apply andb_prop in H as (H1 & H2).
  split; [apply N.ltb_lt, H1|apply Ascii.eqb_eq, H2].
Qed.

Lemma nibbles_of_byte b :
  N.shiftr (Byte.to_N b) 4 < 16 /\ N.land (Byte.to_N b) 15 < 16 /\
  Base58.byte_of_N (N.lor (N.shiftl (N.shiftr (Byte.to_N b) 4) 4)
                          (N.land (Byte.to_N b) 15)) = b.
Proof. destruct b; vm_compute; auto. Qed.

Lemma byte_of_nibbles a b :
  a < 16 -> b < 16 ->
  N.shiftr (Byte.to_N (Base58.byte_of_N (N.lor (N.shiftl a 4) b))) 4 = a /\
  N.land (Byte.to_N (Base58.byte_of_N (N.lor (N.shiftl a 4) b))) 15 = b.
Proof.
  intros Ha Hb.
  assert (Hall : forallb (fun i => forallb (fun j =>
            let v := Byte.to_N (Base58.byte_of_N
                       (N.lor (N.shiftl (N.of_nat i) 4) (N.of_nat j))) in
            (N.shiftr v 4 =? N.of_nat i) && (N.land v 15 =? N.of_nat j))
            (seq 0 16)) (seq 0 16) = true) by (vm_compute; reflexivity).
  rewrite forallb_forall in Hall.
  specialize (Hall (N.to_nat a) ltac:(apply in_seq; lia)).
  rewrite forallb_forall in Hall.
  specialize (Hall (N.to_nat b) ltac:(apply in_seq; lia)).
  rewrite !N2Nat.id in Hall. cbv zeta in Hall.
  apply andb_prop in Hall as (H1 & H2).
  split; apply N.eqb_eq; assumption.
Qed.

Lemma Hex_Decode_Encode src : Decode (Encode src) = inr src.
Proof.
  induction src as [|b src IH]; [reflexivity|].
  destruct (nibbles_of_byte b) as (Hhi & Hlo & Hb).
  cbn [Encode Decode].
  rewrite (fromHexChar_hexdigit _ Hhi), (fromHexChar_hexdigit _ Hlo), IH, Hb.
  reflexivity.
Qed.

Lemma Hex_Encode_Decode src dst :
  Decode src = inr dst -> Encode dst = map lower_ascii src.
Proof.
  revert dst. induction src as [| c | c1 c2 src IH] using list_pair_ind; intros dst.
  - intros [= <-]. reflexivity.
  - cbn [Decode]. destruct (fromHexChar c); discriminate.
  - cbn [Decode].
    destruct (fromHexChar c1) as [a|] eqn:E1; [|discriminate].
    destruct (fromHexChar c2) as [b|] eqn:E2; [|discriminate].
    destruct (Decode src) as [e|dst']; [discriminate|].
    intros [= <-].
    destruct (fromHexChar_inv _ _ E1) as (Ha & Hc1).
    destruct (fromHexChar_inv _ _ E2) as (Hb & Hc2).
    destruct (byte_of_nibbles a b Ha Hb) as (Hhi & Hlo).
    cbn [Encode map]. rewrite Hhi, Hlo, Hc1, Hc2, (IH dst' eq_refl). reflexivity.
Qed.

Lemma Hex_DecodeString_EncodeToString src :
  DecodeString (EncodeToString src) = inr src.
Proof.
  unfold DecodeString, EncodeToString.
  rewrite list_ascii_of_string_of_list_ascii. apply Hex_Decode_Encode.
Qed.

Lemma Hex_EncodeToString_inj b1 b2 :
  EncodeToString b1 = EncodeToString b2 -> b1 = b2.
Proof.
  intros E. pose proof (Hex_DecodeString_EncodeToString b1) as H1.
  rewrite E, Hex_DecodeString_EncodeToString in H1. congruence.
Qed.

End HexFacts.

(** * Peer IDs: building, printing, comparing *)

Lemma string_length_append s1 s2 :
  String.length (s1 +:+ s2) = (String.length s1 + String.length s2)%nat.
Proof. induction s1 as [|c s1 IH]; simpl; [reflexivity|]. f_equal. exact IH. Qed.

Lemma substring_length n m s :
  (n + m <= String.length s)%nat -> String.length (substring n m s) = m.
Proof.
  revert n m. induction s as [|c s IH]; intros n m H; cbn in H.
  - assert (n = 0%nat) by lia. assert (m = 0%nat) by lia. subst. reflexivity.
  - destruct n as [|n]; cbn [substring].
    + destruct m as [|m]; [reflexivity|]. simpl. f_equal. apply IH. lia.
    + apply IH. lia.
Qed.

Lemma string_of_list_byte_nonempty b :
  b <> [] -> string_of_list_byte b <> EmptyString.
Proof. destruct b; [congruence|discriminate]. Qed.

Section PeerText.
Variable ValidCode : Z -> bool.

Lemma IDFromString_IDFromBytes s :
  peer.IDFromString ValidCode s = peer.IDFromBytes ValidCode (list_byte_of_string s).
Proof.
  unfold peer.IDFromString, peer.IDFromBytes.
  destruct (Multihash.Cast ValidCode (list_byte_of_string s)); [reflexivity|].
  rewrite string_of_list_byte_of_string. reflexivity.
Qed.

Lemma IDFromBytes_well_formed b :
  well_formed_result ValidCode (peer.IDFromBytes ValidCode b).
Proof.
  unfold peer.IDFromBytes.
  destruct (Multihash.Cast ValidCode b) as [e|m] eqn:E; cbn; [reflexivity|].
  destruct (Cast_nonempty _ _ _ E) as (Hne & ->).
  split.
  - unfold peer.Validate.
    destruct (String.eqb_spec (string_of_list_byte b) EmptyString) as [H|_]; [|reflexivity].
    destruct (string_of_list_byte_nonempty b Hne H).
  - unfold peer.IDFromString. rewrite list_byte_of_string_of_list_byte, E. reflexivity.
Qed.

(** X1.  Decoding the base58 text of an ID does what [IDFromString] does
    to the ID itself, error included: a multihash comes back unchanged,
    anything else is refused with the same error.  (The empty ID has the
    empty text, which the decoder refuses on its own.) *)
Theorem IDB58Decode_of_IDB58Encode (id : peer.ID) :
  id <> EmptyString ->
  peer.IDB58Decode ValidCode (peer.IDB58Encode id) = peer.IDFromString ValidCode id.
Proof.
  intros Hne.
  assert (Hb : list_byte_of_string id <> []).
  { intros H. apply Hne. rewrite <- (string_of_list_byte_of_string id), H. reflexivity. }
  unfold peer.IDB58Decode, peer.IDB58Encode, Multihash.FromB58String, peer.IDFromString.
  rewrite (Base58_Decode_Encode _ Hb).
  destruct (Multihash.Cast ValidCode (list_byte_of_string id)) as [e|m] eqn:E; [reflexivity|].
  destruct (Cast_nonempty _ _ _ E) as (_ & ->).
  rewrite string_of_list_byte_of_string. reflexivity.
Qed.

(** X2.  The base58 text is canonical: an ID that [IDB58Decode] accepts
    encodes back to exactly the text it was decoded from. *)
Theorem IDB58Encode_of_IDB58Decode (s : string) (id : peer.ID) :
  peer.IDB58Decode ValidCode s = (id, None) -> peer.IDB58Encode id = s.
Proof.
  unfold peer.IDB58Decode, peer.IDB58Encode, Multihash.FromB58String.
  destruct (Base58.Decode s) as [e|b] eqn:Ed; [discriminate|].
  destruct (Multihash.Cast ValidCode b) as [e|m] eqn:E; [discriminate|].
  destruct (Cast_nonempty _ _ _ E) as (_ & ->).
  intros [= <-]. rewrite list_byte_of_string_of_list_byte.
  apply Encode_Decode, Ed.
Qed.

(** X3.  Decoding the hex text of an ID does what [IDFromString] does to
    the ID itself, for every ID and error included. *)
Theorem IDHexDecode_of_IDHexEncode (id : peer.ID) :
  peer.IDHexDecode ValidCode (peer.IDHexEncode id) = peer.IDFromString ValidCode id.
Proof.
  unfold peer.IDHexDecode, peer.IDHexEncode, Multihash.FromHexString, peer.IDFromString.
  rewrite Hex_DecodeString_EncodeToString.
  destruct (Multihash.Cast ValidCode (list_byte_of_string id)) as [e|m] eqn:E; [reflexivity|].
  destruct (Cast_nonempty _ _ _ E) as (_ & ->).
  rewrite string_of_list_byte_of_string. reflexivity.
Qed.

(** X4.  The hex decoder reads both cases and the encoder writes lower
    case: an ID that [IDHexDecode] accepts encodes back to the lower-case
    form of the text it was decoded from. *)
Theorem IDHexEncode_of_IDHexDecode (s : string) (id : peer.ID) :
  peer.IDHexDecode ValidCode s = (id, None) -> peer.IDHexEncode id = ToLower s.
Proof.
  unfold peer.IDHexDecode, peer.IDHexEncode, Multihash.FromHexString, Hex.DecodeString.
  destruct (Hex.Decode (list_ascii_of_string s)) as [e|b] eqn:Ed; [discriminate|].
  destruct (Multihash.Cast ValidCode b) as [e|m] eqn:E; [discriminate|].
  destruct (Cast_nonempty _ _ _ E) as (_ & ->).
  intros [= <-]. rewrite list_byte_of_string_of_list_byte.
  unfold Hex.EncodeToString, ToLower. rewrite (Hex_Encode_Decode _ _ Ed). reflexivity.
Qed.

(** X5.  Every function that builds an ID from text or bytes returns a
    well-formed result: with a nil error a non-empty ID that [Validate]
    accepts and that is a multihash; with an error the empty ID. *)
Theorem ID_builders_well_formed (s : string) (b : list byte) :
  well_formed_result ValidCode (peer.IDFromString ValidCode s) /\
  well_formed_result ValidCode (peer.IDFromBytes ValidCode b) /\
  well_formed_result ValidCode (peer.IDB58Decode ValidCode s) /\
  well_formed_result ValidCode (peer.IDHexDecode ValidCode s).
Proof.
  split; [rewrite IDFromString_IDFromBytes; apply IDFromBytes_well_formed|].
  split; [apply IDFromBytes_well_formed|]. split.
  - unfold peer.IDB58Decode, Multihash.FromB58String.
    destruct (Base58.Decode s) as [e|m]; [reflexivity|].
    pose proof (IDFromBytes_well_formed m) as H. unfold peer.IDFromBytes in H.
    destruct (Multihash.Cast ValidCode m) as [e|m'] eqn:E; [exact H|].
    destruct (Cast_nonempty _ _ _ E) as (_ & ->). exact H.
  - unfold peer.IDHexDecode, Multihash.FromHexString.
    destruct (Hex.DecodeString s) as [e|m]; [reflexivity|].
    pose proof (IDFromBytes_well_formed m) as H. unfold peer.IDFromBytes in H.
    destruct (Multihash.Cast ValidCode m) as [e|m'] eqn:E; [exact H|].
    destruct (Cast_nonempty _ _ _ E) as (_ & ->). exact H.
Qed.

End PeerText.

Lemma list_byte_of_string_inj s1 s2 :
  list_byte_of_string s1 = list_byte_of_string s2 -> s1 = s2.
Proof.
  intros E. rewrite <- (string_of_list_byte_of_string s1), E.
  apply string_of_list_byte_of_string.
Qed.

(** X6.  Both text forms tell IDs apart: two IDs with the same [Pretty]
    text, or with the same hex text, are the same ID. *)
Theorem ID_text_forms_injective (id1 id2 : peer.ID) :
  (peer.Pretty id1 = peer.Pretty id2 -> id1 = id2) /\
  (peer.IDHexEncode id1 = peer.IDHexEncode id2 -> id1 = id2).
Proof.
  split; intros E; apply list_byte_of_string_inj.
  - apply Encode_inj, E.
  - apply Hex_EncodeToString_inj, E.
Qed.

Lemma ID_String_shape (id : peer.ID) :
  exists s,
    peer.ID_String id = Some s /\
    ((peer.len (peer.Pretty id) <= 10)%Z ->
     s = "<peer.ID " +:+ peer.Pretty id +:+ ">") /\
    ((10 < peer.len (peer.Pretty id))%Z ->
     s = "<peer.ID " +:+ substring 0 2 (peer.Pretty id) +:+ "*" +:+
         substring (String.length (peer.Pretty id) - 6) 6 (peer.Pretty id) +:+ ">" /\
     String.length s = 19%nat).
Proof.
  unfold peer.ID_String, peer.slice, peer.len.
  set (pid := peer.Pretty id).
  destruct (Z.leb_spec (Z.of_nat (String.length pid)) 10) as [Hle|Hgt].
  - eexists. split; [reflexivity|]. split; [reflexivity|]. lia.
  - assert (H1 : ((0 <=? 0) && (0 <=? 2) && (2 <=? Z.of_nat (String.length pid)))%Z = true).
    { apply andb_true_intro. split; [reflexivity|]. apply Z.leb_le. lia. }
    assert (H2 : ((0 <=? Z.of_nat (String.length pid) - 6) &&
                  (Z.of_nat (String.length pid) - 6 <=? Z.of_nat (String.length pid)) &&
                  (Z.of_nat (String.length pid) <=? Z.of_nat (String.length pid)))%Z = true).
    { rewrite !andb_true_iff, !Z.leb_le. lia. }
    rewrite H1, H2.
    replace (Z.to_nat (Z.of_nat (String.length pid) - 6)) with (String.length pid - 6)%nat by lia.
    replace (Z.to_nat (Z.of_nat (String.length pid) - (Z.of_nat (String.length pid) - 6)))
      with 6%nat by lia.
    change (Z.to_nat 0) with 0%nat. change (Z.to_nat (2 - 0)) with 2%nat.
    eexists. split; [reflexivity|]. split; [lia|]. intros _. split; [reflexivity|].
    rewrite !string_length_append, !substring_length by lia. reflexivity.
Qed.

(** X7.  [String] never slices out of range, whatever the ID: a text of
    at most 10 characters is shown whole, a longer one as its first two
    and last six characters around a star, 19 characters in all. *)
Theorem ID_String_total (id : peer.ID) :
  exists s,
    peer.ID_String id = Some s /\
    ((peer.len (peer.Pretty id) <= 10)%Z ->
     s = "<peer.ID " +:+ peer.Pretty id +:+ ">") /\
    ((10 < peer.len (peer.Pretty id))%Z ->
     s = "<peer.ID " +:+ substring 0 2 (peer.Pretty id) +:+ "*" +:+
         substring (String.length (peer.Pretty id) - 6) 6 (peer.Pretty id) +:+ ">" /\
     String.length s = 19%nat).
Proof. apply ID_String_shape. Qed.

(** ** [IDSlice] *)

Lemma ascii_compare_refl c : Ascii.compare c c = Eq.
Proof. unfold Ascii.compare. apply N.compare_refl. Qed.

Lemma string_compare_refl s : String.compare s s = Eq.
Proof.
  induction s as [|c s IH]; [reflexivity|]. cbn. rewrite ascii_compare_refl. exact IH.
Qed.

Lemma string_compare_lt_trans s1 s2 s3 :
  String.compare s1 s2 = Lt -> String.compare s2 s3 = Lt -> String.compare s1 s3 = Lt.
Proof.
  revert s2 s3. induction s1 as [|c1 s1 IH]; intros [|c2 s2] [|c3 s3]; cbn;
    try discriminate; try reflexivity.
  unfold Ascii.compare.
  destruct (N.compare_spec (N_of_ascii c1) (N_of_ascii c2)) as [E12|L12|G12];
    destruct (N.compare_spec (N_of_ascii c2) (N_of_ascii c3)) as [E23|L23|G23];
    try discriminate; intros H12 H23.
  - rewrite E12, E23, N.compare_refl. eapply IH; eassumption.
  - rewrite E12. apply N.compare_lt_iff in L23. rewrite L23. reflexivity.
  - rewrite <- E23. apply N.compare_lt_iff in L12. rewrite L12. reflexivity.
  - assert (L13 : (N_of_ascii c1 < N_of_ascii c3)%N) by lia.
    apply N.compare_lt_iff in L13. rewrite L13. reflexivity.
Qed.

Lemma string_ltb_irrefl s : String.ltb s s = false.
Proof. unfold String.ltb. rewrite string_compare_refl. reflexivity. Qed.

Lemma string_ltb_asym s1 s2 : String.ltb s1 s2 = true -> String.ltb s2 s1 = false.
Proof.
  unfold String.ltb. rewrite (String.compare_antisym s2 s1).
  destruct (String.compare s1 s2); cbn; congruence.
Qed.

Lemma string_ltb_trans s1 s2 s3 :
  String.ltb s1 s2 = true -> String.ltb s2 s3 = true -> String.ltb s1 s3 = true.
Proof.
  unfold String.ltb. intros H12 H23.
  rewrite (string_compare_lt_trans s1 s2 s3); [reflexivity| |].
  - destruct (String.compare s1 s2); congruence.
  - destruct (String.compare s2 s3); congruence.
Qed.

Lemma string_ltb_total s1 s2 :
  String.ltb s1 s2 = false -> String.ltb s2 s1 = false -> s1 = s2.
Proof.
  unfold String.ltb. rewrite (String.compare_antisym s2 s1).
  destruct (String.compare s1 s2) eqn:E; cbn; try discriminate.
  intros _ _. apply String.compare_eq_iff, E.
Qed.

Lemma index_Some es i a :
  peer.index es i = Some a <-> (0 <= i)%Z /\ es !! Z.to_nat i = Some a.
Proof.
  unfold peer.index. destruct (Z.ltb_spec i 0); split.
  - discriminate.
  - intros (H0 & _). lia.
  - intros E. split; [lia|exact E].
  - intros (_ & E). exact E.
Qed.

Lemma index_is_Some es i :
  is_Some (peer.index es i) <-> (0 <= i < peer.Len es)%Z.
Proof.
  unfold peer.index, peer.Len. destruct (Z.ltb_spec i 0).
  - split; [intros (a & E); discriminate|lia].
  - rewrite lookup_lt_is_Some. lia.
Qed.

Lemma Less_Some es i j r :
  peer.Less es i j = Some r <->
  exists a b, peer.index es i = Some a /\ peer.index es j = Some b /\
              r = String.ltb a b.
Proof.
  unfold peer.Less. split.
  - destruct (peer.index es i) as [a|]; [|discriminate].
    destruct (peer.index es j) as [b|]; [|discriminate].
    intros [= <-]. eauto.
  - intros (a & b & -> & -> & ->). reflexivity.
Qed.

(** X8.  [Less] is defined exactly on two indices in range, and on the
    entries of the slice it is a strict total order: no entry is below
    itself, two entries are never below each other, below is transitive,
    and two entries neither of which is below the other are the same ID. *)
Theorem IDSlice_Less_strict_total_order (es : peer.IDSlice) (i j k : Z) :
  (is_Some (peer.Less es i j) <->
   (0 <= i < peer.Len es)%Z /\ (0 <= j < peer.Len es)%Z) /\
  ((0 <= i < peer.Len es)%Z -> peer.Less es i i = Some false) /\
  (peer.Less es i j = Some true -> peer.Less es j i = Some false) /\
  (peer.Less es i j = Some true -> peer.Less es j k = Some true ->
   peer.Less es i k = Some true) /\
  (peer.Less es i j = Some false -> peer.Less es j i = Some false ->
   peer.index es i = peer.index es j).
Proof.
  split; [|split; [|split; [|split]]].
  - rewrite <- !index_is_Some. split.
    + intros (r & Hr). apply Less_Some in Hr as (a & b & Ha & Hb & _).
      split; eexists; eassumption.
    + intros ((a & Ha) & (b & Hb)). exists (String.ltb a b).
      apply Less_Some. eauto.
  - intros Hi. apply index_is_Some in Hi as (a & Ha).
    apply Less_Some. exists a, a. rewrite string_ltb_irrefl. auto.
  - intros H. apply Less_Some in H as (a & b & Ha & Hb & Hlt).
    apply Less_Some. exists b, a. symmetry in Hlt.
    rewrite (string_ltb_asym _ _ Hlt). auto.
  - intros H1 H2. apply Less_Some in H1 as (a & b & Ha & Hb & Hab).
    apply Less_Some in H2 as (b' & c & Hb' & Hc & Hbc).
    assert (b' = b) by congruence. subst b'.
    apply Less_Some. exists a, c. symmetry in Hab, Hbc.
    rewrite (string_ltb_trans _ _ _ Hab Hbc). auto.
  - intros H1 H2. apply Less_Some in H1 as (a & b & Ha & Hb & Hab).
    apply Less_Some in H2 as (b' & a' & Hb' & Ha' & Hba).
    assert (b' = b) by congruence. assert (a' = a) by congruence. subst.
    symmetry in Hab, Hba. rewrite Ha, Hb, (string_ltb_total _ _ Hab Hba). reflexivity.
Qed.

Lemma nth_error_lookup {A} (l : list A) n : nth_error l n = l !! n.
Proof.
  revert n. induction l as [|x l IH]; intros [|n]; cbn; try reflexivity. apply IH.
Qed.

Lemma swap_lookup {A} (l : list A) i j a b n :
  (i < length l)%nat -> (j < length l)%nat ->
  <[j:=a]> (<[i:=b]> l) !! n =
  if decide (n = j) then Some a else if decide (n = i) then Some b else l !! n.
Proof.
  intros Hi Hj. destruct (decide (n = j)) as [->|Hn].
  - apply list_lookup_insert_eq. rewrite length_insert. exact Hj.
  - rewrite list_lookup_insert_ne by congruence.
    destruct (decide (n = i)) as [->|Hn'].
    + apply list_lookup_insert_eq, Hi.
    + apply list_lookup_insert_ne. congruence.
Qed.

Lemma swap_swap {A} (l : list A) i j a b :
  l !! i = Some a -> l !! j = Some b ->
  <[j:=b]> (<[i:=a]> (<[j:=a]> (<[i:=b]> l))) = l.
Proof.
  intros Ei Ej.
  assert (Hi : (i < length l)%nat) by (eapply lookup_lt_Some; eassumption).
  assert (Hj : (j < length l)%nat) by (eapply lookup_lt_Some; eassumption).
  apply list_eq. intros n.
  rewrite swap_lookup by (rewrite !length_insert; assumption).
  destruct (decide (n = j)) as [->|Hn]; [symmetry; exact Ej|].
  destruct (decide (n = i)) as [->|Hn']; [symmetry; exact Ei|].
  rewrite swap_lookup by assumption.
  rewrite !decide_False by assumption. reflexivity.
Qed.

(** X9.  [Swap] succeeds only on two indices in range; it exchanges
    the two entries and leaves every other one where it was, so the
    slice keeps its length and its members, and the same [Swap] again
    restores it. *)
Theorem IDSlice_Swap_exchanges (es es' : peer.IDSlice) (i j : Z) :
  peer.Swap es i j = Some es' ->
  ((0 <= i < peer.Len es)%Z /\ (0 <= j < peer.Len es)%Z) /\
  peer.Len es' = peer.Len es /\
  peer.index es' i = peer.index es j /\
  peer.index es' j = peer.index es i /\
  (forall k, k <> i -> k <> j -> peer.index es' k = peer.index es k) /\
  Permutation es es' /\
  peer.Swap es' i j = Some es.
Proof.
  unfold peer.IDSlice, peer.ID in *. unfold peer.Swap.
  destruct (peer.index es i) as [a|] eqn:Ei; [|discriminate].
  destruct (peer.index es j) as [b|] eqn:Ej; [|discriminate].
  intros [= <-].
  assert (Hi : (0 <= i < peer.Len es)%Z) by (apply index_is_Some; eauto).
  assert (Hj : (0 <= j < peer.Len es)%Z) by (apply index_is_Some; eauto).
  pose proof Ei as Ei'. pose proof Ej as Ej'.
  apply index_Some in Ei as (_ & Ei). apply index_Some in Ej as (_ & Ej).
  unfold peer.Len, peer.IDSlice, peer.ID in *.
  set (ni := Z.to_nat i) in *. set (nj := Z.to_nat j) in *.
  assert (Hni : (ni < length es)%nat) by lia.
  assert (Hnj : (nj < length es)%nat) by lia.
  assert (Hlook : forall n, <[nj:=a]> (<[ni:=b]> es) !! n =
            if decide (n = nj) then Some a
            else if decide (n = ni) then Some b else es !! n).
  { intros n. destruct (decide (n = nj)) as [->|Hn].
    - apply list_lookup_insert_eq. rewrite length_insert. exact Hnj.
    - rewrite list_lookup_insert_ne by congruence.
      destruct (decide (n = ni)) as [->|Hn'].
      + apply list_lookup_insert_eq, Hni.
      + apply list_lookup_insert_ne. congruence. }
  assert (Hidx : forall k, (0 <= k)%Z ->
            peer.index (<[nj:=a]> (<[ni:=b]> es)) k =
            if decide (k = j) then Some a
            else if decide (k = i) then Some b else peer.index es k).
  { intros k Hk. unfold peer.index.
    destruct (Z.ltb_spec k 0) as [|_]; [lia|]. rewrite Hlook.
    destruct (decide (Z.to_nat k = nj)) as [E|E], (decide (k = j)) as [E'|E'];
      try reflexivity; try (exfalso; subst nj; lia).
    destruct (decide (Z.to_nat k = ni)) as [E2|E2], (decide (k = i)) as [E2'|E2'];
      try reflexivity; exfalso; subst ni; lia. }
  split; [auto|]. split; [rewrite !length_insert; reflexivity|].
  split.
  { rewrite Hidx by lia.
    destruct (decide (i = j)) as [->|_]; [congruence|].
    rewrite decide_True by reflexivity. reflexivity. }
  split.
  { rewrite Hidx by lia. rewrite decide_True by reflexivity. reflexivity. }
  split.
  { intros k Hki Hkj. destruct (Z.lt_ge_cases k 0) as [Hk|Hk].
    - unfold peer.index. destruct (Z.ltb_spec k 0); [reflexivity|lia].
    - rewrite Hidx by lia. rewrite !decide_False by assumption. reflexivity. }
  split.
  { apply Permutation_nth_error. split; [rewrite !length_insert; reflexivity|].
    exists (fun n => if decide (n = nj) then ni else if decide (n = ni) then nj else n).
    split.
    - intros x y. repeat destruct (decide _); intros; subst; congruence.
    - intros n. rewrite !nth_error_lookup, Hlook.
      destruct (decide (n = nj)) as [->|Hn]; [symmetry; exact Ei|].
      destruct (decide (n = ni)) as [->|Hn']; [symmetry; exact Ej|reflexivity]. }
  rewrite !Hidx by lia.
  rewrite (decide_True (P := j = j)) by reflexivity.
  destruct (decide (i = j)) as [Hij|Hij].
  - assert (a = b) by congruence. subst b.
    f_equal. apply swap_swap; assumption.
  - rewrite (decide_True (P := i = i)) by reflexivity.
    f_equal. apply swap_swap; assumption.
Qed.

(** ** The text of a SHA2-256 ID *)

Section RadixSplit.
Import Radix.
Local Open Scope N_scope.
Variable base : N.
Hypothesis base_ge_2 : 2 <= base.

Lemma digits_le_fuel f1 f2 n :
  n < 2 ^ N.of_nat f1 -> n < 2 ^ N.of_nat f2 ->
  digits_le f1 base n = digits_le f2 base n.
Proof.
  intros H1 H2.
  rewrite <- (value_le_digits_le base base_ge_2 f1 n H1) at 2.
  symmetry. apply digits_le_value_le; [exact base_ge_2| |].
  - apply canonical_le_digits_le; assumption.
  - rewrite value_le_digits_le by assumption. exact H2.
Qed.

Lemma to_base_step n :
  n <> 0 -> to_base base n = to_base base (n / base) ++ [n mod base].
Proof.
  intros Hn. unfold to_base.
  assert (Hsz : n < 2 ^ N.of_nat (N.to_nat (N.size n)))
    by (rewrite N2Nat.id; apply N.size_gt).
  destruct (N.to_nat (N.size n)) as [|f] eqn:Ef.
  - change (2 ^ N.of_nat 0) with 1 in Hsz. apply N.lt_1_r in Hsz. contradiction.
  - cbn [digits_le]. destruct (N.eqb_spec n 0) as [|_]; [contradiction|].
    cbn [rev]. f_equal. f_equal.
    apply digits_le_fuel.
    + apply div_base_fuel; assumption.
    + rewrite N2Nat.id. apply N.size_gt.
Qed.

Lemma to_base_split k n :
  n / base ^ N.of_nat k <> 0 ->
  exists low, to_base base n = to_base base (n / base ^ N.of_nat k) ++ low /\
              length low = k.
Proof.
  revert n. induction k as [|k IH]; intros n Hn.
  - exists []. change (base ^ N.of_nat 0) with 1. rewrite N.div_1_r, app_nil_r. auto.
  - rewrite Nat2N.inj_succ, N.pow_succ_r' in *.
    assert (Hdiv : n / (base * base ^ N.of_nat k) = n / base / base ^ N.of_nat k).
    { rewrite N.Div0.div_div. reflexivity. }
    rewrite Hdiv in *.
    assert (Hn0 : n <> 0).
    { intros ->. apply Hn. rewrite !N.Div0.div_0_l. reflexivity. }
    destruct (IH (n / base) Hn) as (low & E & Hlen).
    exists (low ++ [n mod base]). rewrite to_base_step by exact Hn0.
    rewrite E, <- app_assoc. split; [reflexivity|].
    rewrite length_app, Hlen. cbn. lia.
Qed.

Lemma value_le_snoc l d :
  value_le base (l ++ [d]) = value_le base l + d * base ^ N.of_nat (length l).
Proof.
  induction l as [|x l IH]; cbn [app value_le length].
  - change (base ^ N.of_nat 0) with 1. lia.
  - rewrite IH, Nat2N.inj_succ, N.pow_succ_r'. lia.
Qed.

Lemma of_base_cons d ds :
  of_base base (d :: ds) = d * base ^ N.of_nat (length ds) + of_base base ds.
Proof.
  unfold of_base. cbn [rev]. rewrite value_le_snoc, length_rev. lia.
Qed.

Lemma of_base_bound ds :
  Forall (fun d => d < base) ds -> of_base base ds < base ^ N.of_nat (length ds).
Proof.
  induction 1 as [|d ds Hd _ IH].
  - cbn. lia.
  - rewrite of_base_cons. cbn [length]. rewrite Nat2N.inj_succ, N.pow_succ_r'.
    remember (base ^ N.of_nat (length ds)) as p. nia.
Qed.

End RadixSplit.

Lemma SHA2_256_bytes_range (digest : list byte) :
  length digest = 32%nat ->
  (1378 * 58 ^ 44 <= Radix.of_base 256 (map Byte.to_N (x12 :: x20 :: digest))
   < 1379 * 58 ^ 44)%N.
Proof.
  intros Hlen. cbn [map].
  rewrite !(of_base_cons 256) by lia. cbn [length]. rewrite !length_map, Hlen.
  assert (Hb : (Radix.of_base 256 (map Byte.to_N digest) < 256 ^ 32)%N).
  { replace 32%N with (N.of_nat (length (map Byte.to_N digest)))
      by (rewrite length_map, Hlen; reflexivity).
    apply of_base_bound; [lia|].
    apply List.Forall_forall. intros x Hx. apply in_map_iff in Hx as (y & <- & _).
    pose proof (Byte.to_N_bounded y). lia. }
  change (Byte.to_N x12) with 18%N. change (Byte.to_N x20) with 32%N.
  change (N.of_nat (S 32)) with 33%N. change (N.of_nat 32) with 32%N.
  assert (H1 : (1378 * 58 ^ 44 <= 18 * 256 ^ 33 + 32 * 256 ^ 32)%N)
    by (apply N.leb_le; vm_compute; reflexivity).
  assert (H2 : (18 * 256 ^ 33 + 32 * 256 ^ 32 + 256 ^ 32 <= 1379 * 58 ^ 44)%N)
    by (apply N.leb_le; vm_compute; reflexivity).
  remember (Radix.of_base 256 (map Byte.to_N digest)) as v.
  remember (58 ^ 44)%N as p58. remember (256 ^ 33)%N as p33. remember (256 ^ 32)%N as p32.
  lia.
Qed.

Lemma Pretty_SHA2_256 (digest : list byte) :
  length digest = 32%nat ->
  exists rest,
    peer.Pretty (string_of_list_byte (x12 :: x20 :: digest)) =
      String "Q" (String "m" rest) /\
    String.length rest = 44%nat.
Proof.
  intros Hlen. unfold peer.Pretty, peer.IDB58Encode, Base58.Encode.
  rewrite list_byte_of_string_of_list_byte.
  destruct (SHA2_256_bytes_range digest Hlen) as (Hlo & Hhi).
  set (n := Radix.of_base 256 (map Byte.to_N (x12 :: x20 :: digest))) in *.
  assert (Hq : (n / 58 ^ N.of_nat 44 = 1378)%N).
  { change (N.of_nat 44) with 44%N. remember (58 ^ 44)%N as p.
    assert (Hp : (0 < p)%N) by (subst p; apply N.ltb_lt; vm_compute; reflexivity).
    apply N.le_antisymm.
    - apply N.lt_succ_r. apply N.Div0.div_lt_upper_bound. lia.
    - apply N.div_le_lower_bound; lia. }
  destruct (to_base_split 58 ltac:(lia) 44 n) as (low & E & Hlow).
  { rewrite Hq. discriminate. }
  rewrite Hq in E. change (Radix.to_base 58 1378) with [23; 44]%N in E.
  rewrite E. cbn [Radix.count_leading Byte.eqb repeat app map].
  exists (string_of_list_ascii (map Base58.digit_char low)).
  split; [reflexivity|].
  rewrite <- Hlow. clear. induction low as [|d low IH]; cbn; congruence.
Qed.

(** X10.  The ID of a SHA2-256 digest always prints the same way: its
    [Pretty] text is "Qm" followed by 44 more characters, and [String]
    shows it as "<peer.ID Qm*" followed by the last six of them. *)
Theorem SHA2_256_ID_prints_Qm (digest : list byte) :
  length digest = 32%nat ->
  exists rest,
    peer.Pretty (string_of_list_byte (x12 :: x20 :: digest)) =
      String "Q" (String "m" rest) /\
    String.length rest = 44%nat /\
    peer.ID_String (string_of_list_byte (x12 :: x20 :: digest)) =
      Some ("<peer.ID Qm*" +:+ substring 38 6 rest +:+ ">").
Proof.
  intros Hlen. destruct (Pretty_SHA2_256 digest Hlen) as (rest & Hp & Hrest).
  exists rest. split; [exact Hp|]. split; [exact Hrest|].
  destruct (ID_String_shape (string_of_list_byte (x12 :: x20 :: digest)))
    as (s & -> & _ & Hlong).
  rewrite Hp in Hlong. unfold peer.len in Hlong. cbn [String.length] in Hlong.
  rewrite Hrest in Hlong. destruct (Hlong ltac:(lia)) as (-> & _).
  cbn. assert (H0 : substring 0 0 rest = EmptyString) by (destruct rest; reflexivity).
  rewrite H0. reflexivity.
Qed.

Lemma SHA2_256_ID_prints_Qm_witness :
  exists rest,
    peer.Pretty (string_of_list_byte sample_id) = String "Q" (String "m" rest) /\
    String.length rest = 44%nat /\
    peer.ID_String (string_of_list_byte sample_id) =
      Some ("<peer.ID Qm*" +:+ substring 38 6 rest +:+ ">").
Proof. apply (SHA2_256_ID_prints_Qm (repeat xab 32)). reflexivity. Defined.

(** ** IDs and keys *)

Lemma Decode_SHA2_256 (digest : list byte) :
  length digest = 32%nat ->
  Multihash.Decode (x12 :: x20 :: digest) =
  inr {| Multihash.Code := 18; Multihash.Length := 32; Multihash.Digest := digest |}.
Proof.
  intros Hlen.
  assert (H1 : forall tail, Multihash.uvarint (x12 :: tail) = inr (18%Z, tail))
    by (intros tail; vm_compute; reflexivity).
  assert (H2 : forall tail, Multihash.uvarint (x20 :: tail) = inr (32%Z, tail))
    by (intros tail; vm_compute; reflexivity).
  unfold Multihash.Decode. rewrite H1, H2. cbn [length Nat.ltb Nat.leb].
  rewrite Hlen. reflexivity.
Qed.

Section KeyFacts.
Variable ValidCode : Z -> bool.
Variable Sum : list byte -> Z -> Z -> list byte * option error.
Variable UnmarshalPublicKey : list byte -> error + peer.PubKey.

(** [mh.Sum] with [SHA2_256] and the default length gives the multihash
    of a 32-byte digest, and [SHA2_256] is a known code. *)
Hypothesis Sum_SHA2_256 :
  forall data, exists digest,
    length digest = 32%nat /\
    Sum data peer.SHA2_256 (-1) = (x12 :: x20 :: digest, None).
Hypothesis ValidCode_SHA2_256 : ValidCode peer.SHA2_256 = true.

Lemma IDFromPublicKey_shape pk b :
  peer.PubKey_Bytes pk = inr b ->
  exists digest,
    length digest = 32%nat /\
    peer.IDFromPublicKey Sum pk = (string_of_list_byte (x12 :: x20 :: digest), None).
Proof.
  intros Hb. unfold peer.IDFromPublicKey. rewrite Hb.
  destruct (Sum_SHA2_256 b) as (digest & Hlen & ->). eauto.
Qed.

(** X11.  The ID derived from a key that serialises is a multihash
    ([IDFromString] and [Validate] accept it), the key matches it, and so
    does every private key with that public key. *)
Theorem derived_ID_is_valid_and_matches (pk : peer.PubKey) (b : list byte) :
  peer.PubKey_Bytes pk = inr b ->
  exists id,
    peer.IDFromPublicKey Sum pk = (id, None) /\
    peer.IDFromString ValidCode id = (id, None) /\
    peer.Validate id = None /\
    peer.MatchesPublicKey Sum id pk = true /\
    (forall sk, peer.GetPublic sk = pk ->
       peer.IDFromPrivateKey Sum sk = (id, None) /\
       peer.MatchesPrivateKey Sum id sk = true).
Proof.
  intros Hb. destruct (IDFromPublicKey_shape pk b Hb) as (digest & Hlen & Hid).
  exists (string_of_list_byte (x12 :: x20 :: digest)).
  split; [exact Hid|].
  assert (Hm : peer.MatchesPublicKey Sum (string_of_list_byte (x12 :: x20 :: digest)) pk = true).
  { unfold peer.MatchesPublicKey. rewrite Hid. apply String.eqb_refl. }
  split.
  { unfold peer.IDFromString, Multihash.Cast.
    rewrite list_byte_of_string_of_list_byte, (Decode_SHA2_256 digest Hlen).
    cbn [Multihash.Code]. change 18%Z with peer.SHA2_256.
    rewrite ValidCode_SHA2_256. reflexivity. }
  split; [reflexivity|]. split; [exact Hm|].
  intros sk <-. split; [exact Hid|exact Hm].
Qed.

(** X12.  The ID derived from a key does not embed the key:
    [ExtractPublicKey] answers [ErrNoPublicKey] for it, without a key. *)
Theorem derived_ID_embeds_no_key (pk : peer.PubKey) (b : list byte) (id : peer.ID) :
  peer.PubKey_Bytes pk = inr b ->
  peer.IDFromPublicKey Sum pk = (id, None) ->
  peer.ExtractPublicKey UnmarshalPublicKey id = (None, Some peer.ErrNoPublicKey).
Proof.
  intros Hb Hid. destruct (IDFromPublicKey_shape pk b Hb) as (digest & Hlen & Hid').
  rewrite Hid in Hid'. injection Hid' as ->.
  unfold peer.ExtractPublicKey.
  rewrite list_byte_of_string_of_list_byte, (Decode_SHA2_256 digest Hlen).
  reflexivity.
Qed.

End KeyFacts.

Lemma sample_Sum_digest data :
  exists digest,
    length digest = 32%nat /\
    sample_Sum data peer.SHA2_256 (-1) = (x12 :: x20 :: digest, None).
Proof.
  exists (firstn 32 (data ++ repeat x00 32)). split; [|reflexivity].
  rewrite length_firstn, length_app, repeat_length. lia.
Qed.

Lemma derived_ID_is_valid_and_matches_witness :
  exists id,
    peer.IDFromPublicKey sample_Sum sample_pk = (id, None) /\
    peer.IDFromString sample_ValidCode id = (id, None) /\
    peer.Validate id = None /\
    peer.MatchesPublicKey sample_Sum id sample_pk = true /\
    (forall sk, peer.GetPublic sk = sample_pk ->
       peer.IDFromPrivateKey sample_Sum sk = (id, None) /\
       peer.MatchesPrivateKey sample_Sum id sk = true).
Proof.
  apply (derived_ID_is_valid_and_matches sample_ValidCode sample_Sum
           sample_Sum_digest eq_refl sample_pk [x01; x02; x03]).
  reflexivity.
Defined.

Lemma derived_ID_embeds_no_key_witness :
  peer.ExtractPublicKey sample_Unmarshal
    (fst (peer.IDFromPublicKey sample_Sum sample_pk)) =
  (None, Some peer.ErrNoPublicKey).
Proof.
  apply (derived_ID_embeds_no_key sample_Sum sample_Unmarshal sample_Sum_digest
           sample_pk [x01; x02; x03]).
  - reflexivity.
  - reflexivity.
Defined.


(** ** Instances *)

Lemma IDB58Decode_of_IDB58Encode_witness :
  peer.IDB58Encode "ab" = "8Qq" /\
  peer.IDB58Decode sample_ValidCode (peer.IDB58Encode "ab") =
    peer.IDFromString sample_ValidCode "ab" /\
  snd (peer.IDFromString sample_ValidCode "ab") <> None.
Proof.
  split; [vm_compute; reflexivity|]. split.
  - apply (IDB58Decode_of_IDB58Encode sample_ValidCode "ab"). discriminate.
  - vm_compute. discriminate.
Defined.

Lemma IDB58Encode_of_IDB58Decode_witness :
  peer.IDB58Encode (string_of_list_byte sample_id) =
    "QmZtnFaddFtzGNT8BxdHVbQrhSFdq1pWxud5z4fA4kxfDt".
Proof.
  apply (IDB58Encode_of_IDB58Decode sample_ValidCode
           "QmZtnFaddFtzGNT8BxdHVbQrhSFdq1pWxud5z4fA4kxfDt"
           (string_of_list_byte sample_id)).
  vm_compute. reflexivity.
Defined.

Lemma IDHexEncode_of_IDHexDecode_witness :
  peer.IDHexEncode (string_of_list_byte [x12; x02; xab; xcd]) = "1202abcd".
Proof.
  apply (IDHexEncode_of_IDHexDecode sample_ValidCode "1202AbCD"
           (string_of_list_byte [x12; x02; xab; xcd])).
  vm_compute. reflexivity.
Defined.

Lemma IDSlice_Swap_exchanges_witness :
  ((0 <= 0 < peer.Len ["a"; "b"; "c"])%Z /\ (0 <= 2 < peer.Len ["a"; "b"; "c"])%Z) /\
  peer.Len ["c"; "b"; "a"] = peer.Len ["a"; "b"; "c"] /\
  peer.index ["c"; "b"; "a"] 0 = peer.index ["a"; "b"; "c"] 2 /\
  peer.index ["c"; "b"; "a"] 2 = peer.index ["a"; "b"; "c"] 0 /\
  (forall k, k <> 0%Z -> k <> 2%Z ->
     peer.index ["c"; "b"; "a"] k = peer.index ["a"; "b"; "c"] k) /\
  Permutation ["a"; "b"; "c"] ["c"; "b"; "a"] /\
  peer.Swap ["c"; "b"; "a"] 0 2 = Some ["a"; "b"; "c"].
Proof.
  apply (IDSlice_Swap_exchanges ["a"; "b"; "c"] ["c"; "b"; "a"] 0 2).
  reflexivity.
Defined.

(** * Further properties: [dag put] *)

Section StoreFacts.

Lemma staged_nil s : staged s [] ∅.
Proof.
  split.
  - intros nd [].
  - intros c nd H. rewrite lookup_empty in H. discriminate H.
Qed.

Lemma staged_add s done b nd :
  staged s done b -> staged s (done ++ [nd]) (stage b nd s).
Proof.
  intros (H1 & H2). unfold stage.
  destruct (b !! Node_Cid nd) as [x|] eqn:Eb; [|destruct (s !! Node_Cid nd) as [y|] eqn:Es].
  - split.
    + intros nd' Hin. apply in_app_or in Hin as [Hin|[<-|[]]]; [apply H1, Hin|].
      left. rewrite Eb. eauto.
    + intros c nd' Hb. destruct (H2 c nd' Hb) as (Hin & Hc & Hs).
      split; [apply in_or_app; left; exact Hin|]. split; assumption.
  - split.
    + intros nd' Hin. apply in_app_or in Hin as [Hin|[<-|[]]]; [apply H1, Hin|].
      right. rewrite Es. eauto.
    + intros c nd' Hb. destruct (H2 c nd' Hb) as (Hin & Hc & Hs).
      split; [apply in_or_app; left; exact Hin|]. split; assumption.
  - split.
    + intros nd' Hin. apply in_app_or in Hin as [Hin|[<-|[]]].
      * destruct (H1 nd' Hin) as [Hb|Hs]; [left|right; exact Hs].
        apply lookup_insert_is_Some'. right. exact Hb.
      * left. rewrite lookup_insert_eq. eauto.
    + intros c nd' Hb. destruct (decide (Node_Cid nd = c)) as [<-|Hne].
      * rewrite lookup_insert_eq in Hb. injection Hb as <-.
        split; [apply in_or_app; right; left; reflexivity|]. split; [reflexivity|exact Es].
      * rewrite lookup_insert_ne in Hb by exact Hne.
        destruct (H2 c nd' Hb) as (Hin & Hc & Hs).
        split; [apply in_or_app; left; exact Hin|]. split; assumption.
Qed.

Lemma store_grown_refl s nds : store_grown s nds s.
Proof. split; [auto|]. intros c nd H1 H2. congruence. Qed.

Lemma store_grown_more s0 nds nds' s :
  store_grown s0 nds s -> (forall nd, In nd nds -> In nd nds') -> store_grown s0 nds' s.
Proof.
  intros (H1 & H2) Hsub. split; [exact H1|].
  intros c nd Hc Hn. destruct (H2 c nd Hc Hn). auto.
Qed.

(** Writing part of a batch through to the store keeps both invariants. *)
Lemma written_through_grown env w s0 nds b s :
  staged s nds b -> store_grown s0 nds s ->
  staged (written_through env w b ∪ s) nds (still_staged env w b) /\
  store_grown s0 nds (written_through env w b ∪ s).
Proof.
  intros (Hb1 & Hb2) (Hs1 & Hs2). unfold written_through, still_staged.
  split; [split|split].
  - intros nd Hin. destruct (Hb1 nd Hin) as [(x & Hx)|Hs].
    + destruct (Batch_persists env w (Node_Cid nd)) eqn:Ep.
      * right. apply lookup_union_is_Some. left. exists x.
        apply map_lookup_filter_Some. split; [exact Hx|exact Ep].
      * left. exists x. apply map_lookup_filter_Some. split; [exact Hx|exact Ep].
    + right. apply lookup_union_is_Some. right. exact Hs.
  - intros c nd Hc. apply map_lookup_filter_Some in Hc as (Hc & Hp). cbn [fst] in Hp.
    destruct (Hb2 c nd Hc) as (Hin & Hcid & Hnone).
    split; [exact Hin|]. split; [exact Hcid|].
    apply lookup_union_None. split; [|exact Hnone].
    apply map_lookup_filter_None. right. intros x _. cbn [fst]. rewrite Hp. discriminate.
  - intros c nd Hc. apply lookup_union_Some_raw. right. split; [|apply Hs1, Hc].
    apply map_lookup_filter_None.
    destruct (b !! c) as [x|] eqn:Eb; [|left; reflexivity].
    destruct (Hb2 c x Eb) as (_ & _ & Hnone).
    destruct (s !! c) as [y|] eqn:Es; [discriminate Hnone|].
    rewrite (Hs1 c nd Hc) in Es. discriminate Es.
  - intros c nd Hc Hnone. apply lookup_union_Some_raw in Hc as [Hc|(_ & Hc)].
    + apply map_lookup_filter_Some in Hc as (Hc & _).
      destruct (Hb2 c nd Hc) as (Hin & Hcid & _). auto.
    + apply Hs2; assumption.
Qed.

(** A successful [Commit] keeps what was stored and stores every node. *)
Lemma committed_grown s0 nds b s :
  staged s nds b -> store_grown s0 nds s ->
  store_grown s0 nds (b ∪ s) /\
  (forall nd, In nd nds -> is_Some ((b ∪ s) !! Node_Cid nd)).
Proof.
  intros (Hb1 & Hb2) (Hs1 & Hs2). split; [split|].
  - intros c nd Hc. apply lookup_union_Some_raw. right. split; [|apply Hs1, Hc].
    destruct (b !! c) as [x|] eqn:Eb; [|reflexivity].
    destruct (Hb2 c x Eb) as (_ & _ & Hnone).
    rewrite (Hs1 c nd Hc) in Hnone. discriminate Hnone.
  - intros c nd Hc Hnone. apply lookup_union_Some_raw in Hc as [Hc|(_ & Hc)].
    + destruct (Hb2 c nd Hc) as (Hin & Hcid & _). auto.
    + apply Hs2; assumption.
  - intros nd Hin. apply lookup_union_is_Some. destruct (Hb1 nd Hin); auto.
Qed.

End StoreFacts.

Section PutLoop.
Variable env : Env.
Variables (ienc format : string) (mhType : Z).

Lemma add_nodes_Next nds b w b' w' :
  add_nodes env nds b w = (Next b', w') ->
  trace w' = trace w ++ map (fun nd => EvBatchAdd (Node_Cid nd)) nds.
Proof.
  revert b w. induction nds as [|nd nds IH]; intros b w; cbn [add_nodes].
  - unfold ret. intros [= <- <-]. rewrite app_nil_r. reflexivity.
  - unfold bind at 1. unfold Batch_Add. cbv zeta.
    destruct (Batch_Add_err env w nd) as [e|]; [discriminate|].
    intros H. apply IH in H. cbn in H. rewrite H, <- app_assoc. reflexivity.
Qed.

(** Whatever becomes of [add_nodes], the store has only gained nodes it
    was given; when it comes through, every node given is staged or
    stored. *)
Lemma add_nodes_store nds b w o w' s0 done :
  add_nodes env nds b w = (o, w') ->
  staged (store w) done b -> store_grown s0 done (store w) ->
  store_grown s0 (done ++ nds) (store w') /\
  (forall b', o = Next b' -> staged (store w') (done ++ nds) b').
Proof.
  revert b w done. induction nds as [|nd nds IH]; intros b w done; cbn [add_nodes].
  - unfold ret. intros [= <- <-] Hb Hs. rewrite app_nil_r.
    split; [exact Hs|]. intros b' [= <-]. exact Hb.
  - unfold bind at 1. unfold Batch_Add. cbv zeta.
    destruct (Batch_Add_err env w nd) as [e|].
    + intros [= <- <-] Hb Hs. cbn [store set_store record].
      destruct (written_through_grown env w s0 done b (store w) Hb Hs) as (_ & Hs').
      split; [|discriminate].
      apply (store_grown_more _ _ _ _ Hs'). intros x Hx. apply in_or_app. left. exact Hx.
    + intros H Hb Hs.
      assert (Hb1 : staged (store w) (done ++ [nd]) (stage b nd (store w)))
        by apply staged_add, Hb.
      assert (Hs1 : store_grown s0 (done ++ [nd]) (store w)).
      { apply (store_grown_more _ _ _ _ Hs). intros x Hx. apply in_or_app. left. exact Hx. }
      destruct (written_through_grown env w s0 _ _ _ Hb1 Hs1) as (Hb2 & Hs2).
      replace (done ++ nd :: nds) with ((done ++ [nd]) ++ nds)
        by (rewrite <- app_assoc; reflexivity).
      eapply IH; [exact H| |]; cbn [store set_store record]; assumption.
Qed.

Lemma add_nodes_stops nds b w o w' :
  add_nodes env nds b w = (o, w') ->
  (forall b', o <> Next b') ->
  (exists e, o = Return (Some e)) /\
  exists w0 nd, In nd nds /\ Batch_Add_err env w0 nd <> None.
Proof.
  revert b w. induction nds as [|nd nds IH]; intros b w; cbn [add_nodes].
  - unfold ret. intros [= <- <-] Hno. destruct (Hno b). reflexivity.
  - unfold bind at 1. unfold Batch_Add. cbv zeta.
    destruct (Batch_Add_err env w nd) as [e|] eqn:Eerr.
    + unfold return_. intros [= <- <-] _. split; [eauto|].
      exists w, nd. split; [left; reflexivity|]. rewrite Eerr. discriminate.
    + intros H Hno. destruct (IH _ _ H Hno) as (He & w0 & nd' & Hin & Herr).
      split; [exact He|]. exists w0, nd'. split; [right; exact Hin|exact Herr].
Qed.

Lemma put_unit_Next next st w st' w' :
  put_unit env ienc format mhType next st w = (Next st', w') ->
  exists file nd0 nds,
    next = inr file /\
    ParseInputs env ienc format file mhType (-1) = inr (nd0 :: nds) /\
    trace w' = trace w ++ unit_events env ienc format mhType next /\
    fst st' = {[Node_Cid nd0]} ∪ fst st.
Proof.
  unfold put_unit, unit_events, bind, log, ret, coredag_ParseInputs, return_.
  destruct next as [err|file]; [discriminate|].
  destruct (ParseInputs env ienc format file mhType (-1)) as [err|[|nd0 nds]] eqn:Eparse;
    [discriminate..|].
  set (w1 := record (EvParseInputs file) (record EvNextFile w)).
  destruct (add_nodes env (nd0 :: nds) (snd st) w1) as [[b'|e|] w2] eqn:Eadd;
    [|discriminate..].
  apply add_nodes_Next in Eadd as Ht. cbn in Ht.
  pose proof (select_outChan_spec env (mkOutputObject (Node_Cid nd0)) w2) as Hsel.
  destruct (select_outChan env (mkOutputObject (Node_Cid nd0)) w2) as [[[|]|e|] w3];
    [|discriminate..].
  intros [= <- <-]. destruct Hsel as (Ht3 & _).
  exists file, nd0, nds. split; [reflexivity|]. split; [exact Eparse|].
  split; [|reflexivity].
  rewrite Ht3, Ht. cbn. rewrite <- !app_assoc. reflexivity.
Qed.

Lemma select_outChan_store o w r w' :
  select_outChan env o w = (r, w') -> store w' = store w.
Proof.
  unfold select_outChan. cbv zeta.
  destruct (length _ <? outChan_cap)%nat, (ctx_done _); try destruct (pick_send _);
    intros [= <- <-]; reflexivity.
Qed.

Lemma add_nodes_outChan nds b w o w' :
  add_nodes env nds b w = (o, w') -> outChan w' = outChan w.
Proof.
  revert b w. induction nds as [|nd nds IH]; intros b w; cbn [add_nodes].
  - unfold ret. intros [= <- <-]. reflexivity.
  - unfold bind at 1. unfold Batch_Add. cbv zeta.
    destruct (Batch_Add_err env w nd) as [e|].
    + intros [= <- <-]. reflexivity.
    + intros H. apply IH in H. exact H.
Qed.

Lemma select_outChan_chan o w r w' :
  select_outChan env o w = (r, w') -> chan_ok w -> chan_ok w'.
Proof.
  unfold select_outChan, chan_ok. cbv zeta.
  pose proof (length_skipn (drained (select_env env w)) (outChan w)) as Hq.
  destruct (length _ <? outChan_cap)%nat eqn:Eroom;
    [apply Nat.ltb_lt in Eroom|];
    destruct (ctx_done _); try destruct (pick_send _);
    intros [= <- <-] Hok; cbn [outChan set_outChan record];
    rewrite ?length_app; cbn [length]; lia.
Qed.

Lemma select_outChan_stops o w r w' :
  select_outChan env o w = (r, w') -> r <> Next SendCase -> chan_ok w ->
  (exists w0, chan_ok w0 /\ ctx_done (select_env env w0) = true) \/
  (exists w0, chan_ok w0 /\
     (outChan_cap <= length (skipn (drained (select_env env w0)) (outChan w0)))%nat).
Proof.
  unfold select_outChan. cbv zeta.
  destruct (length _ <? outChan_cap)%nat eqn:Eroom.
  - destruct (ctx_done (select_env env w)) eqn:Ed.
    + intros _ _ Hok. left. exists w. auto.
    + intros [= <- <-] H. destruct H. reflexivity.
  - intros _ _ Hok. right. exists w. split; [exact Hok|]. apply Nat.ltb_ge. exact Eroom.
Qed.

Lemma put_unit_store next st w o w' s0 done :
  put_unit env ienc format mhType next st w = (o, w') ->
  staged (store w) done (snd st) -> store_grown s0 done (store w) ->
  store_grown s0 (done ++ unit_nodes env ienc format mhType next) (store w') /\
  (forall st', o = Next st' ->
     staged (store w') (done ++ unit_nodes env ienc format mhType next) (snd st')).
Proof.
  unfold put_unit, unit_nodes, bind, log, ret, coredag_ParseInputs, return_.
  intros H Hb Hs.
  assert (Hquiet : forall w1, store w1 = store w ->
            store_grown s0 (done ++ []) (store w1)).
  { intros w1 ->. rewrite app_nil_r. exact Hs. }
  destruct next as [err|file].
  { injection H as <- <-. split; [apply Hquiet; reflexivity|discriminate]. }
  destruct (ParseInputs env ienc format file mhType (-1)) as [err|[|nd0 nds]] eqn:Eparse.
  { injection H as <- <-. split; [apply Hquiet; reflexivity|discriminate]. }
  { injection H as <- <-. split; [apply Hquiet; reflexivity|discriminate]. }
  set (w1 := record (EvParseInputs file) (record EvNextFile w)) in *.
  destruct (add_nodes env (nd0 :: nds) (snd st) w1) as [o2 w2] eqn:Eadd.
  destruct (add_nodes_store _ _ _ _ _ s0 done Eadd Hb Hs) as (Hs2 & Hb2).
  destruct o2 as [b'|e|]; [|injection H as <- <-; split; [exact Hs2|discriminate]..].
  specialize (Hb2 b' eq_refl).
  destruct (select_outChan env (mkOutputObject (Node_Cid nd0)) w2) as [r w3] eqn:Esel.
  apply select_outChan_store in Esel as Hs3.
  destruct r as [[|]|e|]; injection H as <- <-; rewrite Hs3;
    (split; [exact Hs2|]); try discriminate.
  intros st' [= <-]. exact Hb2.
Qed.

Lemma put_unit_chan next st w o w' :
  put_unit env ienc format mhType next st w = (o, w') -> chan_ok w -> chan_ok w'.
Proof.
  unfold put_unit, bind, log, ret, coredag_ParseInputs, return_.
  destruct next as [err|file]; [intros [= <- <-]; auto|].
  destruct (ParseInputs env ienc format file mhType (-1)) as [err|[|nd0 nds]];
    [intros [= <- <-]; auto..|].
  set (w1 := record (EvParseInputs file) (record EvNextFile w)).
  destruct (add_nodes env (nd0 :: nds) (snd st) w1) as [o2 w2] eqn:Eadd.
  apply add_nodes_outChan in Eadd.
  assert (Hok2 : chan_ok w -> chan_ok w2) by (unfold chan_ok; rewrite Eadd; auto).
  destruct o2 as [b'|e|]; [|intros [= <- <-]; exact Hok2..].
  destruct (select_outChan env (mkOutputObject (Node_Cid nd0)) w2) as [r w3] eqn:Esel.
  intros H Hok. apply (select_outChan_chan _ _ _ _ Esel) in Hok2; [|exact Hok].
  destruct r as [[|]|e|]; injection H as <- <-; exact Hok2.
Qed.

Lemma put_unit_stops next st w o w' :
  put_unit env ienc format mhType next st w = (o, w') ->
  (forall st', o <> Next st') -> chan_ok w ->
  unit_stops env ienc format mhType next.
Proof.
  unfold put_unit, unit_stops, bind, log, ret, coredag_ParseInputs, return_.
  destruct next as [err|file]; [auto|].
  destruct (ParseInputs env ienc format file mhType (-1)) as [err|[|nd0 nds]] eqn:Eparse;
    [auto..|].
  set (w1 := record (EvParseInputs file) (record EvNextFile w)).
  destruct (add_nodes env (nd0 :: nds) (snd st) w1) as [o2 w2] eqn:Eadd.
  assert (Hcase : (exists b', o2 = Next b') \/ (forall b', o2 <> Next b'))
    by (destruct o2; [left; eauto|right; discriminate..]).
  destruct Hcase as [(b' & ->)|Hno2].
  - destruct (select_outChan env (mkOutputObject (Node_Cid nd0)) w2) as [r w3] eqn:Esel.
    intros H Hno Hok. right. eapply select_outChan_stops; [exact Esel| |].
    + intros ->. injection H as <- <-. eapply Hno. reflexivity.
    + apply add_nodes_outChan in Eadd. unfold chan_ok. rewrite Eadd. exact Hok.
  - intros _ _ _. left.
    destruct (add_nodes_stops _ _ _ _ _ Eadd Hno2) as (_ & Hw). exact Hw.
Qed.

Lemma put_units_Next f st w st' w' :
  put_units env ienc format mhType f st w = (Next st', w') ->
  trace w' = trace w ++ flat_map (unit_events env ienc format mhType) f /\
  Forall (fun next => is_Some (unit_root env ienc format mhType next)) f /\
  fst st' = list_to_set (omap (unit_root env ienc format mhType) f) ∪ fst st.
Proof.
  revert st w. induction f as [|next f IH]; intros st w; cbn [put_units].
  - unfold ret. intros [= <- <-]. cbn. rewrite app_nil_r.
    split; [reflexivity|]. split; [constructor|].
    symmetry; apply (left_id_L ∅ (∪)).
  - unfold bind.
    destruct (put_unit env ienc format mhType next st w) as [[st1|e|] w1] eqn:E1;
      [|discriminate..].
    intros E2.
    apply put_unit_Next in E1 as (file & nd0 & nds & -> & Hparse & Ht1 & Hc1).
    apply IH in E2 as (Ht2 & Hall & Hc2).
    split.
    { rewrite Ht2, Ht1. cbn [flat_map]. rewrite <- app_assoc. reflexivity. }
    split.
    { constructor; [|exact Hall]. unfold unit_root. rewrite Hparse. eauto. }
    rewrite Hc2, Hc1. cbn [omap list_omap unit_root]. rewrite Hparse. cbn [list_to_set].
    rewrite (assoc_L (∪)), (comm_L (∪) _ {[Node_Cid nd0]}). reflexivity.
Qed.

Lemma parsed_nodes_cons next f :
  parsed_nodes env ienc format mhType (next :: f) =
  unit_nodes env ienc format mhType next ++ parsed_nodes env ienc format mhType f.
Proof. reflexivity. Qed.

Lemma put_units_store f st w o w' s0 done :
  put_units env ienc format mhType f st w = (o, w') ->
  staged (store w) done (snd st) -> store_grown s0 done (store w) ->
  store_grown s0 (done ++ parsed_nodes env ienc format mhType f) (store w') /\
  (forall st', o = Next st' ->
     staged (store w') (done ++ parsed_nodes env ienc format mhType f) (snd st')).
Proof.
  revert st w done. induction f as [|next f IH]; intros st w done; cbn [put_units].
  - unfold ret. intros [= <- <-] Hb Hs. cbn. rewrite app_nil_r.
    split; [exact Hs|]. intros st' [= <-]. exact Hb.
  - unfold bind. intros H Hb Hs.
    destruct (put_unit env ienc format mhType next st w) as [o1 w1] eqn:E1.
    destruct (put_unit_store _ _ _ _ _ s0 done E1 Hb Hs) as (Hs1 & Hb1).
    rewrite parsed_nodes_cons, app_assoc.
    destruct o1 as [st1|e|].
    + eapply IH; [exact H| |exact Hs1]. apply Hb1. reflexivity.
    + injection H as <- <-. split; [|discriminate].
      apply (store_grown_more _ _ _ _ Hs1). intros x Hx. apply in_or_app. left. exact Hx.
    + injection H as <- <-. split; [|discriminate].
      apply (store_grown_more _ _ _ _ Hs1). intros x Hx. apply in_or_app. left. exact Hx.
Qed.

(** When the loop does not come through, it stopped at a unit that gave
    it a reason to; the units before that one were worked in full, and
    of the one it stopped at nothing was sent. *)
Lemma put_units_stops f st w o w' :
  put_units env ienc format mhType f st w = (o, w') ->
  (forall st', o <> Next st') ->
  exists k next pre,
    f !! k = Some next /\
    (chan_ok w -> unit_stops env ienc format mhType next) /\
    Forall (fun next => is_Some (unit_root env ienc format mhType next)) (take k f) /\
    trace w' = trace w ++ flat_map (unit_events env ienc format mhType) (take k f) ++ pre /\
    forallb is_loop_event pre = true /\ sent_of pre = [].
Proof.
  revert st w. induction f as [|next f IH]; intros st w; cbn [put_units].
  - unfold ret. intros [= <- <-] Hno. destruct (Hno st). reflexivity.
  - unfold bind. intros H Hno.
    pose proof (put_unit_spec env ienc format mhType next st w) as Hspec.
    destruct (put_unit env ienc format mhType next st w) as [o1 w1] eqn:E1.
    destruct o1 as [st1|e|].
    + pose proof (put_unit_chan _ _ _ _ _ E1) as Hok1.
      apply put_unit_Next in E1 as (file & nd0 & nds & -> & Hparse & Ht1 & _).
      destruct (IH _ _ H Hno) as (k & nx & pre & Hk & Hstop & Hall & Ht & He & Hsent).
      exists (S k), nx, pre. split; [exact Hk|]. split; [auto|].
      split.
      { cbn [take]. constructor; [|exact Hall]. unfold unit_root. rewrite Hparse. eauto. }
      split; [|auto]. rewrite Ht, Ht1. cbn [take flat_map]. rewrite <- !app_assoc.
      reflexivity.
    + injection H as <- <-. destruct Hspec as (evs & (Ht & _ & _ & _ & _ & He) & Hsent).
      exists 0%nat, next, evs. split; [reflexivity|].
      split; [eapply put_unit_stops; [exact E1|discriminate]|].
      split; [constructor|]. auto.
    + injection H as <- <-. destruct Hspec as (evs & (Ht & _ & _ & _ & _ & He) & Hsent).
      exists 0%nat, next, evs. split; [reflexivity|].
      split; [eapply put_unit_stops; [exact E1|discriminate]|].
      split; [constructor|]. auto.
Qed.

End PutLoop.

Section PutFunction.
Variable env : Env.
Variables (ienc format : string) (mhType : Z) (dopin : bool).

Lemma addAllAndPin_unfinished f w o w1 :
  put_units env ienc format mhType f (∅, NewBatch) (enter w) = (o, w1) ->
  (forall st, o <> Next st) ->
  exists w',
    addAllAndPin env ienc format mhType dopin f w =
      (Next match o with Return e => Returned e | _ => Blocks end, w') /\
    trace w' = trace w1 /\ store w' = store w1 /\
    same_pins w w' /\ defers w' = defers w.
Proof.
  intros E Ho.
  pose proof (put_units_spec env ienc format mhType f (∅, NewBatch) (enter w)) as H.
  rewrite E in H. destruct H as (evs & k & (Ht & Hp & Hd & Hl & Hf & He) & _).
  cbn in Ht, Hp, Hd, Hl, Hf.
  unfold addAllAndPin, func, put_loop. unfold bind at 1 2.
  change (set_defers [] w) with (enter w). rewrite E.
  destruct o as [st|e|]; [destruct (Ho st); reflexivity| |].
  - eexists. split; [reflexivity|]. rewrite run_defers_nil by exact Hf.
    unfold same_pins. cbn. auto 10.
  - eexists. split; [reflexivity|]. unfold same_pins. cbn. auto 10.
Qed.

Lemma addAllAndPin_finished f w st w1 :
  put_units env ienc format mhType f (∅, NewBatch) (enter w) = (Next st, w1) ->
  exists r w' cerr pin_evs,
    addAllAndPin env ienc format mhType dopin f w = (Next r, w') /\
    trace w' = trace w1 ++ [EvNextFile; EvCommit cerr] ++ pin_evs /\
    store w' = match cerr with
               | None => snd st ∪ store w1
               | Some _ => written_through env (record EvNextFile w1) (snd st) ∪ store w1
               end /\
    defers w' = defers w /\
    match cerr with
    | Some e => r = Returned (Some e) /\ pin_evs = [] /\ same_pins w w' /\
                Batch_Commit_err env (record EvNextFile w1) = Some e
    | None =>
        if dopin then
          if pin_locked w then r = Blocks /\ pin_evs = [] /\ same_pins w w'
          else
            exists ferr, r = Returned ferr /\
              pin_evs = pin_phase (elements (fst st)) ferr /\
              (forall c, pins w' !! c =
                         if decide (c ∈ fst st) then Some Recursive else pins w !! c) /\
              pin_locked w' = false /\
              durable_pins w' = match ferr with
                                | None => pins w'
                                | Some _ => durable_pins w
                                end
        else r = Returned None /\ pin_evs = [] /\ same_pins w w'
    end.
Proof.
  intros E.
  pose proof (put_units_spec env ienc format mhType f (∅, NewBatch) (enter w)) as H.
  rewrite E in H. destruct H as (evs & k & (Ht & Hp & Hd & Hl & Hf & He) & _).
  cbn in Ht, Hp, Hd, Hl, Hf.
  unfold addAllAndPin, func, put_loop. unfold bind at 1 2.
  change (set_defers [] w) with (enter w). rewrite E.
  unfold bind, log, Batch_Commit, return_, ret. cbv beta iota zeta.
  set (w2 := record EvNextFile w1).
  destruct (Batch_Commit_err env w2) as [e|] eqn:Ecommit.
  { eexists _, _, (Some e), []. split; [reflexivity|].
    rewrite run_defers_nil by exact Hf. unfold same_pins. cbn.
    rewrite <- app_assoc. auto 10. }
  destruct dopin.
  - unfold PinLock, defer_. cbv beta iota zeta.
    cbn [pin_locked set_store record]. subst w2. cbn [pin_locked record]. rewrite Hl.
    destruct (pin_locked w) eqn:Elock.
    { eexists _, _, None, []. split; [reflexivity|].
      unfold same_pins. cbn. rewrite <- app_assoc.
      repeat split; congruence. }
    match goal with
    | |- context [ForEach ?cs ?g ?w3] =>
        destruct (ForEach_PinWithMode cs w3) as (w4 & -> & Ht4 & Hp4 & Hd4 & Hl4 & Hs4 & Hf4 & _)
    end.
    cbn in Ht4, Hp4, Hd4, Hl4, Hs4, Hf4. rewrite Hf in Hf4.
    unfold Flush. cbv beta iota zeta.
    assert (Hpins : forall c, pins w4 !! c =
              if decide (c ∈ st.1) then Some Recursive else pins w !! c).
    { intros c. rewrite Hp4, Hp.
      destruct (decide (c ∈ elements st.1)) as [Hin|Hnin], (decide (c ∈ st.1)) as [Hin'|Hnin'];
        try reflexivity; exfalso.
      - apply Hnin', elem_of_elements, Hin.
      - apply Hnin, elem_of_elements, Hin'. }
    destruct (Pinning_Flush_err env w4) as [fe|] eqn:Eflush.
    + eexists _, _, None, _. split; [reflexivity|].
      rewrite run_defers_unlock by exact Hf4. cbn.
      rewrite Ht4, Hs4. cbn. rewrite <- !app_assoc.
      split; [reflexivity|]. split; [reflexivity|]. split; [reflexivity|].
      exists (Some fe). split; [reflexivity|]. split; [reflexivity|].
      split; [exact Hpins|]. split; [reflexivity|]. rewrite Hd4. exact Hd.
    + eexists _, _, None, _. split; [reflexivity|].
      rewrite run_defers_unlock by exact Hf4. cbn.
      rewrite Ht4, Hs4. cbn. rewrite <- !app_assoc.
      split; [reflexivity|]. split; [reflexivity|]. split; [reflexivity|].
      exists None. split; [reflexivity|]. split; [reflexivity|].
      split; [exact Hpins|]. split; reflexivity.
  - eexists _, _, None, []. split; [reflexivity|].
    rewrite run_defers_nil by exact Hf. unfold same_pins. cbn.
    rewrite <- app_assoc. auto 10.
Qed.

End PutFunction.

Section PutCancel.
Variable env : Env.
Variables (ienc format : string) (mhType : Z).

Lemma put_unit_Return_nil next st w w' :
  put_unit env ienc format mhType next st w = (Return None, w') ->
  exists w0, ctx_done (select_env env w0) = true.
Proof.
  unfold put_unit, bind, log, ret, coredag_ParseInputs, return_.
  destruct next as [err|file]; [discriminate|].
  destruct (ParseInputs env ienc format file mhType (-1)) as [err|[|nd0 nds]];
    [discriminate..|].
  destruct (add_nodes env (nd0 :: nds) (snd st) _) as [[b'|e|] w2] eqn:Eadd.
  - unfold select_outChan. cbv beta iota zeta.
    destruct (length _ <? outChan_cap)%nat, (ctx_done (select_env env w2)) eqn:Ed;
      try destruct (pick_send _); try discriminate; intros _; exists w2; exact Ed.
  - intros [= -> <-].
    destruct (add_nodes_stops _ _ _ _ _ _ Eadd) as ((e & He) & _);
      [discriminate|discriminate He].
  - discriminate.
Qed.

Lemma put_units_Return_nil f st w w' :
  put_units env ienc format mhType f st w = (Return None, w') ->
  exists w0, ctx_done (select_env env w0) = true.
Proof.
  revert st w. induction f as [|next f IH]; intros st w; cbn [put_units].
  - discriminate.
  - unfold bind.
    destruct (put_unit env ienc format mhType next st w) as [[st1|e|] w1] eqn:E1.
    + apply IH.
    + intros [= -> <-]. eapply put_unit_Return_nil, E1.
    + discriminate.
Qed.

Lemma unit_events_loop next :
  forallb is_loop_event (unit_events env ienc format mhType next) = true.
Proof.
  unfold unit_events. destruct next as [e|file]; [reflexivity|].
  destruct (ParseInputs env ienc format file mhType (-1)) as [e|[|nd0 nds]];
    try reflexivity.
  cbn [forallb is_loop_event andb]. rewrite forallb_app.
  apply andb_true_intro. split; [|reflexivity].
  cbn [map forallb is_loop_event andb].
  induction nds as [|nd nds IH]; [reflexivity|exact IH].
Qed.

Lemma flat_unit_events_loop f :
  forallb is_loop_event (flat_map (unit_events env ienc format mhType) f) = true.
Proof.
  induction f as [|next f IH]; [reflexivity|].
  cbn [flat_map]. rewrite forallb_app, unit_events_loop, IH. reflexivity.
Qed.

End PutCancel.

Lemma DagPutCmd_Run_result env req w :
  (request_rejected env req /\
   exists e, DagPutCmd_Run env req w = (Next (Returned (Some e)), w)) \/
  ~ request_rejected env req /\
  exists r w1 o w' tail,
    addAllAndPin env (opt_input_enc req) (opt_format req) (request_mhType env req)
      (opt_pin req) (Files req) (producer_start w) = (Next r, w1) /\
    DagPutCmd_Run env req w = (Next o, w') /\
    (o = r \/ exists e, o = Returned (Some e)) /\
    tail = match r with Returned _ => [EvClose] | Blocks => [] end /\
    trace w' = trace w1 ++ tail /\
    pins w' = pins w1 /\ durable_pins w' = durable_pins w1 /\
    pin_locked w' = pin_locked w1 /\ store w' = store w1.
Proof.
  unfold DagPutCmd_Run, request_mhType, request_rejected.
  unfold func, bind, cmdenv_GetNode, ret, return_, defer_, res_Emit_outChan.
  destruct (GetNode env) as [e|[]].
  { left. split; [left; discriminate|]. exists e. rewrite enter_exit. reflexivity. }
  destruct (String.eqb_spec (opt_hash req) EmptyString) as [Hh|Hh];
    [|destruct (Names env !! opt_hash req) as [t|] eqn:En;
      [|left; split; [right; auto|]; eexists; rewrite enter_exit; reflexivity]].
  all: right; split;
    [intros [Hr|(Hr1 & Hr2)]; [apply Hr; reflexivity|congruence]|].
  all: change (set_defers (DeferClose :: defers (set_defers [] (set_defers [] w)))
                 (set_defers [] (set_defers [] w))) with (producer_start w).
  all: match goal with
       | |- context [addAllAndPin ?a ?b ?c ?mh ?d ?f ?w0] =>
           destruct (addAllAndPin_spec a b c mh d f (producer_start w))
             as (r & w1 & Hcall & (evs & k & _ & _ & Hdef & _))
       end.
  all: exists r, w1; rewrite Hcall; cbn in Hdef.
  all: destruct r as [e|]; unfold deliver, return_, blocked; cbv beta iota zeta.
  all: try (assert (Hrd : run_defers w1 = set_defers [] (record EvClose w1))
              by (unfold run_defers; rewrite Hdef; reflexivity);
            rewrite Hrd;
            match goal with |- context [res_Emit ?en ?x] => destruct (res_Emit en x) as [e'|] end;
            eexists _, _, [EvClose]; (split; [reflexivity|]); (split; [reflexivity|]);
            cbn; eauto 10).
  all: match goal with |- context [res_Emit ?en ?x] => destruct (res_Emit en x) as [e'|] end;
       eexists _, _, []; (split; [reflexivity|]); (split; [reflexivity|]);
       cbn; rewrite app_nil_r; eauto 10.
Qed.

(** Every run of [dag put], in the answers of its collaborators: the
    request is turned down; or the loop stops at a unit that gives it a
    reason to; or the whole input is worked through and [Commit] is
    called. *)
Lemma DagPutCmd_Run_full env req w :
  exists o w',
    DagPutCmd_Run env req w = (Next o, w') /\
    store_grown (store w) (request_nodes env req) (store w') /\
    ((request_rejected env req /\ w' = w /\ exists e, o = Returned (Some e))
     \/
     (~ request_rejected env req /\
      exists k next pre tail,
        Files req !! k = Some next /\
        (chan_ok w ->
         unit_stops env (opt_input_enc req) (opt_format req) (request_mhType env req)
           next) /\
        Forall (fun next => is_Some (unit_root env (opt_input_enc req) (opt_format req)
                                       (request_mhType env req) next))
               (take k (Files req)) /\
        trace w' = trace w ++
                   flat_map (unit_events env (opt_input_enc req) (opt_format req)
                               (request_mhType env req)) (take k (Files req)) ++
                   pre ++ tail /\
        forallb is_loop_event pre = true /\ sent_of pre = [] /\
        (tail = [EvClose] \/ tail = []) /\
        same_pins w w' /\
        (o = Returned None -> exists w0, ctx_done (select_env env w0) = true))
     \/
     (~ request_rejected env req /\
      exists (cids : gset string) cerr pin_evs r tail,
        request_complete env req /\
        cids = list_to_set (request_roots env req) /\
        trace w' = trace w ++ request_events env req ++
                   [EvNextFile; EvCommit cerr] ++ pin_evs ++ tail /\
        (o = r \/ exists e, o = Returned (Some e)) /\
        match cerr with
        | Some e => r = Returned (Some e) /\ pin_evs = [] /\ tail = [EvClose] /\
                    same_pins w w' /\ exists w0, Batch_Commit_err env w0 = Some e
        | None =>
            (forall nd, In nd (request_nodes env req) ->
               is_Some (store w' !! Node_Cid nd)) /\
            if opt_pin req then
              if pin_locked w then
                r = Blocks /\ pin_evs = [] /\ tail = [] /\ same_pins w w'
              else
                exists ferr, r = Returned ferr /\
                  pin_evs = pin_phase (elements cids) ferr /\ tail = [EvClose] /\
                  (forall c, pins w' !! c =
                             if decide (c ∈ cids) then Some Recursive else pins w !! c) /\
                  pin_locked w' = false /\
                  durable_pins w' = match ferr with
                                    | None => pins w'
                                    | Some _ => durable_pins w
                                    end
            else r = Returned None /\ pin_evs = [] /\ tail = [EvClose] /\ same_pins w w'
        end)).
Proof.
  unfold request_complete, request_roots, request_nodes, request_events.
  destruct (DagPutCmd_Run_result env req w) as
    [(Hrej & e & ->)|
     (Hok & r & w1 & o & w' & tail & Hcall & -> & Ho & -> & Ht & Hp & Hd & Hl & Hs)].
  { eexists _, _. split; [reflexivity|]. split; [apply store_grown_refl|].
    left. eauto. }
  exists o, w'. split; [reflexivity|].
  set (ienc := opt_input_enc req) in *. set (format := opt_format req) in *.
  set (mh := request_mhType env req) in *.
  destruct (put_units env ienc format mh (Files req) (∅, NewBatch)
              (enter (producer_start w))) as [o1 w2] eqn:Eloop.
  destruct (put_units_store env ienc format mh _ _ _ _ _ (store w) [] Eloop
              (staged_nil _) (store_grown_refl _ _)) as (Hg2 & Hb2).
  cbn [app] in Hg2, Hb2.
  assert (Hcase : (exists st, o1 = Next st) \/ (forall st, o1 <> Next st))
    by (destruct o1; [left; eauto|right; discriminate..]).
  destruct Hcase as [(st & ->)|Hno].
  - specialize (Hb2 st eq_refl).
    destruct (addAllAndPin_finished env ienc format mh (opt_pin req) _ _ _ _ Eloop)
      as (r' & w1' & cerr & pin_evs & Hcall' & Ht' & Hs' & Hdef & Hrest).
    rewrite Hcall in Hcall'. injection Hcall' as -> <-.
    apply put_units_Next in Eloop as (Ht1 & Hall & Hc).
    cbn in Ht1, Hc. rewrite (right_id_L ∅ (∪)) in Hc.
    destruct (committed_grown _ _ _ _ Hb2 Hg2) as (Hg3 & Hall3).
    destruct (written_through_grown env (record EvNextFile w2) _ _ _ _ Hb2 Hg2)
      as (_ & Hg4).
    split.
    { rewrite Hs, Hs'. destruct cerr; assumption. }
    right. right. split; [exact Hok|].
    exists (fst st), cerr, pin_evs, r',
      (match r' with Returned _ => [EvClose] | Blocks => [] end).
    split; [exact Hall|]. split; [exact Hc|].
    split; [rewrite Ht, Ht', Ht1, <- !app_assoc; reflexivity|].
    split; [exact Ho|].
    unfold same_pins in *. rewrite Hp, Hd, Hl, Hs, Hs'. cbn [pin_locked] in Hrest.
    destruct cerr as [e|].
    { destruct Hrest as (-> & -> & Hsp & Herr). eauto 10. }
    split; [exact Hall3|].
    destruct (opt_pin req).
    + change (pin_locked (producer_start w)) with (pin_locked w) in Hrest.
      destruct (pin_locked w).
      * destruct Hrest as (-> & -> & Hsp). auto.
      * destruct Hrest as (ferr & -> & H2 & H3 & H4 & H5). exists ferr. auto 10.
    + destruct Hrest as (-> & -> & Hsp). auto.
  - destruct (addAllAndPin_unfinished env ienc format mh (opt_pin req) _ _ _ _ Eloop Hno)
      as (w1' & Hcall' & Ht' & Hs' & Hsp & Hdef).
    rewrite Hcall in Hcall'. injection Hcall' as -> <-.
    split; [rewrite Hs, Hs'; exact Hg2|].
    right. left. split; [exact Hok|].
    destruct (put_units_stops env ienc format mh _ _ _ _ _ Eloop Hno)
      as (k & next & pre & Hk & Hstop & Hroots & Ht2 & He & Hsent).
    cbn in Ht2, Hsp.
    exists k, next, pre, (match o1 with Return _ => [EvClose] | _ => [] end).
    split; [exact Hk|]. split; [exact Hstop|]. split; [exact Hroots|].
    split; [rewrite Ht, Ht', Ht2, <- !app_assoc; destruct o1; reflexivity|].
    split; [exact He|]. split; [exact Hsent|]. split; [destruct o1; auto|].
    split; [unfold same_pins in *; rewrite Hp, Hd, Hl; exact Hsp|].
    intros ->. destruct o1 as [st|[e|]|].
    + destruct (Hno st). reflexivity.
    + destruct Ho as [Ho|(e' & Ho)]; discriminate Ho.
    + eapply put_units_Return_nil, Eloop.
    + destruct Ho as [Ho|(e' & Ho)]; discriminate Ho.
Qed.

(** The same, with the runs that do not reach [Commit] taken together. *)
Lemma DagPutCmd_Run_ways env req w :
  exists o w',
    DagPutCmd_Run env req w = (Next o, w') /\
    ((exists evs tail,
        trace w' = trace w ++ evs ++ tail /\
        forallb is_loop_event evs = true /\ (tail = [EvClose] \/ tail = []) /\
        same_pins w w' /\
        (o = Returned None -> exists w0, ctx_done (select_env env w0) = true))
     \/
     (exists (cids : gset string) cerr pin_evs r tail,
        request_complete env req /\
        cids = list_to_set (request_roots env req) /\
        trace w' = trace w ++ request_events env req ++
                   [EvNextFile; EvCommit cerr] ++ pin_evs ++ tail /\
        (tail = [EvClose] \/ tail = []) /\
        (o = r \/ exists e, o = Returned (Some e)) /\
        match cerr with
        | Some e => r = Returned (Some e) /\ pin_evs = [] /\ same_pins w w'
        | None =>
            (forall nd, In nd (request_nodes env req) ->
               is_Some (store w' !! Node_Cid nd)) /\
            if opt_pin req then
              (r = Blocks /\ pin_evs = [] /\ same_pins w w') \/
              exists ferr, r = Returned ferr /\
                pin_evs = pin_phase (elements cids) ferr /\ tail = [EvClose] /\
                (forall c, pins w' !! c =
                           if decide (c ∈ cids) then Some Recursive else pins w !! c) /\
                pin_locked w' = false /\
                durable_pins w' = match ferr with
                                  | None => pins w'
                                  | Some _ => durable_pins w
                                  end
            else r = Returned None /\ pin_evs = [] /\ same_pins w w'
        end)).
Proof.
  destruct (DagPutCmd_Run_full env req w) as (o & w' & Hrun & _ & Hcases).
  exists o, w'. split; [exact Hrun|].
  destruct Hcases as [(_ & -> & e & ->)|
    [(_ & k & next & pre & tail & _ & _ & _ & Ht & He & _ & Htail & Hsp & Hdone)|
     (_ & cids & cerr & pin_evs & r & tail & Hall & Hcids & Ht & Ho & Hrest)]].
  - left. exists [], []. rewrite app_nil_r. unfold same_pins.
    split; [reflexivity|]. split; [reflexivity|]. split; [auto|]. split; [auto|].
    discriminate.
  - left. eexists (_ ++ pre), tail. rewrite <- app_assoc.
    split; [exact Ht|]. split; [|auto].
    rewrite forallb_app, flat_unit_events_loop, He. reflexivity.
  - right. exists cids, cerr, pin_evs, r, tail.
    split; [exact Hall|]. split; [exact Hcids|]. split; [exact Ht|].
    destruct cerr as [e|].
    { destruct Hrest as (Hr & Hp & Htl & Hsp & _). auto 10. }
    destruct Hrest as (Hst & Hrest). destruct (opt_pin req).
    + destruct (pin_locked w).
      * destruct Hrest as (Hr & Hp & Htl & Hsp). auto 10.
      * destruct Hrest as (ferr & Hr & Hp & Htl & Hrest). split; [auto|].
        split; [exact Ho|]. split; [exact Hst|]. right. exists ferr. auto.
    + destruct Hrest as (Hr & Hp & Htl & Hsp). auto 10.
Qed.

Lemma pin_phase_closing cs ferr :
  forallb is_closing_event (pin_phase cs ferr) = true.
Proof.
  unfold pin_phase. cbn [app forallb is_closing_event andb].
  rewrite forallb_app. apply andb_true_intro. split; [|reflexivity].
  induction cs as [|c cs IH]; [reflexivity|exact IH].
Qed.

Lemma closing_not_commit evs e :
  forallb is_closing_event evs = true -> ~ In (EvCommit e) evs.
Proof.
  intros H Hin. rewrite forallb_forall in H. apply H in Hin. discriminate Hin.
Qed.

Lemma sent_of_unit_events env ienc format mhType f :
  sent_of (flat_map (unit_events env ienc format mhType) f) =
  omap (unit_root env ienc format mhType) f.
Proof.
  induction f as [|next f IH]; [reflexivity|].
  cbn [flat_map omap list_omap]. rewrite sent_of_app, IH.
  unfold unit_events, unit_root. destruct next as [e|file]; [reflexivity|].
  destruct (ParseInputs env ienc format file mhType (-1)) as [e|[|nd0 nds]];
    try reflexivity.
  cbn [sent_of]. rewrite sent_of_app.
  replace (sent_of (map (fun nd => EvBatchAdd (Node_Cid nd)) (nd0 :: nds))) with (@nil string).
  - reflexivity.
  - generalize (nd0 :: nds). intros l. induction l as [|x l IHl]; [reflexivity|exact IHl].
Qed.

Lemma pinned_of_app evs1 evs2 :
  pinned_of (evs1 ++ evs2) = pinned_of evs1 ++ pinned_of evs2.
Proof.
  induction evs1 as [|ev evs1 IH]; [reflexivity|].
  destruct ev; cbn; rewrite ?IH; reflexivity.
Qed.

Lemma pinned_of_loop evs :
  forallb is_loop_event evs = true -> pinned_of evs = [].
Proof.
  induction evs as [|ev evs IH]; [reflexivity|].
  cbn [forallb]. intros H. apply andb_prop in H as (Hev & Hevs).
  destruct ev; try discriminate Hev; cbn; apply IH, Hevs.
Qed.

Lemma pinned_of_pin_events cs :
  pinned_of (map (fun c => EvPinWithMode c Recursive) cs) = cs.
Proof. induction cs as [|c cs IH]; [reflexivity|]. cbn. rewrite IH. reflexivity. Qed.

Lemma request_events_quiet env req :
  (forall e, ~ In (EvCommit e) (request_events env req)) /\
  ~ In EvPinLock (request_events env req) /\
  pinned_of (request_events env req) = [] /\
  sent_of (request_events env req) = request_roots env req.
Proof.
  pose proof (flat_unit_events_loop env (opt_input_enc req) (opt_format req)
                (request_mhType env req) (Files req)) as H.
  destruct (loop_events_quiet false _ H) as (_ & _ & _ & Hl & Hnc).
  split; [exact Hnc|]. split; [exact Hl|]. split; [apply pinned_of_loop, H|].
  apply sent_of_unit_events.
Qed.

Lemma In_tail (ev : Event) tail :
  tail = [EvClose] \/ tail = [] -> In ev tail -> ev = EvClose.
Proof. intros [-> | ->] Hin; [destruct Hin as [<-|[]]; reflexivity|destruct Hin]. Qed.

(** ** [dag put]: the records sent and the pins set *)









(** A pinning run over two units: both roots end up [Recursive], and the
    second node of the first unit, which was not sent, is not pinned. *)
Example DagPut_pins_roots :
  sent_of (trace (snd (DagPutCmd_Run quiet_env pinning_request (initial ∅ ∅)))) =
    ["a"; "c"] /\
  map (fun c => pins (snd (DagPutCmd_Run quiet_env pinning_request (initial ∅ ∅))) !! c)
      ["a"; "b"; "c"] =
    [Some Recursive; None; Some Recursive].
Proof. vm_compute. auto. Qed.

(** A batch that writes through as it goes leaves the nodes of the units
    before a failing one in the store, though [Commit] was never
    called. *)
Example DagPut_written_through_before_failure :
  fst (DagPutCmd_Run flushing_env
         (sample_request true "" [sample_file "d1" [x61; x62]; sample_file "empty" []])
         (initial ∅ ∅)) = Next (Returned (Some ErrNoNodes)) /\
  map (fun c => store (snd (DagPutCmd_Run flushing_env
                              (sample_request true ""
                                 [sample_file "d1" [x61; x62]; sample_file "empty" []])
                              (initial ∅ ∅))) !! c) ["a"; "b"] =
    [Some (byte_node x61); Some (byte_node x62)].
Proof. vm_compute. auto. Qed.

(** The pin lock held by another party: the run stages and commits, and
    then waits at [PinLock]; nothing is pinned and the channel stays
    open. *)
Example DagPut_waits_for_the_lock :
  fst (DagPutCmd_Run quiet_env pinning_request
         (set_pin_locked true (initial ∅ ∅))) = Next Blocks /\
  existsb is_pin_mutation
    (trace (snd (DagPutCmd_Run quiet_env pinning_request
                   (set_pin_locked true (initial ∅ ∅))))) = false /\
  In (EvCommit None)
    (trace (snd (DagPutCmd_Run quiet_env pinning_request
                   (set_pin_locked true (initial ∅ ∅))))) /\
  ~ In EvClose
    (trace (snd (DagPutCmd_Run quiet_env pinning_request
                   (set_pin_locked true (initial ∅ ∅))))).
Proof.
  split; [vm_compute; reflexivity|]. split; [vm_compute; reflexivity|].
  split; [vm_compute; repeat first [left; reflexivity | right]|].
  vm_compute. intros H. repeat (destruct H as [H|H]; [discriminate H|]). exact H.
Qed.

(** ** [dag put]: further properties *)

(** X13.  When the loop of [addAllAndPin] comes to an input unit that
    cannot be read ([NextFile] fails, other than with [io.EOF]) or cannot
    be parsed, the call returns that very error: nothing happens after the
    failing call, the units behind it are not read, and nothing is
    committed or pinned.  The store holds what it held and, beyond that,
    at most nodes of the units before the failing one. *)
Theorem addAllAndPin_unit_error (env : Env) (ienc format : string) (mhType : Z)
    (dopin : bool) (f1 f2 : list (error + File)) (next : error + File) (e : error)
    (w : World) (st1 : gset string * gmap string Node) (w1 : World) :
  put_units env ienc format mhType f1 (∅, NewBatch) (enter w) = (Next st1, w1) ->
  (next = inl e \/
   exists file, next = inr file /\
                ParseInputs env ienc format file mhType (-1) = inl e) ->
  exists w',
    addAllAndPin env ienc format mhType dopin (f1 ++ next :: f2) w =
      (Next (Returned (Some e)), w') /\
    trace w' = trace w1 ++ unit_events env ienc format mhType next /\
    store_grown (store w) (parsed_nodes env ienc format mhType f1) (store w') /\
    pins w' = pins w /\ durable_pins w' = durable_pins w.
Proof.
  intros Hpre Hnext.
  destruct (put_units_defers _ _ _ _ _ _ _ _ _ Hpre) as (Hf & Hp & Hd & _).
  destruct (put_units_store env ienc format mhType _ _ _ _ _ (store w) [] Hpre
              (staged_nil _) (store_grown_refl _ _)) as (Hg & _).
  cbn [app] in Hg.
  unfold addAllAndPin, func, put_loop, bind.
  rewrite put_units_app. change (set_defers [] w) with (enter w). rewrite Hpre.
  cbn [put_units]. unfold bind, put_unit, unit_events, bind, log, ret, coredag_ParseInputs.
  cbv beta iota zeta.
  destruct Hnext as [->|(file & -> & Hparse)].
  - unfold return_. eexists. split; [reflexivity|].
    rewrite run_defers_nil by exact Hf. cbn. auto.
  - rewrite Hparse. unfold return_. eexists. split; [reflexivity|].
    rewrite run_defers_nil by exact Hf. cbn. rewrite <- app_assoc. auto.
Qed.

Lemma addAllAndPin_unit_error_witness :
  exists w',
    addAllAndPin quiet_env "json" "cbor" MaxUint64 true
      ([sample_file "doc" [x61; x62]] ++ inl (errorString "read error") ::
       [sample_file "more" [x63]])
      (initial ∅ ∅) = (Next (Returned (Some (errorString "read error"))), w') /\
    trace w' =
      trace (snd (after_units quiet_env [sample_file "doc" [x61; x62]] (initial ∅ ∅))) ++
      unit_events quiet_env "json" "cbor" MaxUint64 (inl (errorString "read error")) /\
    store_grown (store (initial ∅ ∅))
      (parsed_nodes quiet_env "json" "cbor" MaxUint64 [sample_file "doc" [x61; x62]])
      (store w') /\
    pins w' = pins (initial ∅ ∅) /\
    durable_pins w' = durable_pins (initial ∅ ∅).
Proof.
  apply (addAllAndPin_unit_error quiet_env "json" "cbor" MaxUint64 true
           [sample_file "doc" [x61; x62]] [sample_file "more" [x63]]
           (inl (errorString "read error")) (errorString "read error") (initial ∅ ∅)
           (fst (after_units quiet_env [sample_file "doc" [x61; x62]] (initial ∅ ∅)))).
  - vm_compute. reflexivity.
  - left. reflexivity.
Defined.

(** X14.  [Commit] is called at most once in a run of [dag put], and only
    after the whole input has been worked through: every unit was read and
    parsed to at least one node, all its nodes were staged in the order
    of the parse and its root was sent, unit after unit in input order,
    and [NextFile] then reported the end of the input.  After [Commit]
    the run only pins, flushes, unlocks and closes the channel. *)
Theorem DagPut_commit_follows_complete_input (env : Env) (req : PutRequest) (w : World) :
  exists evs,
    trace (snd (DagPutCmd_Run env req w)) = trace w ++ evs /\
    forall e, In (EvCommit e) evs ->
      request_complete env req /\
      exists rest,
        evs = request_events env req ++ [EvNextFile; EvCommit e] ++ rest /\
        forallb is_closing_event rest = true.
Proof.
  destruct (DagPutCmd_Run_ways env req w) as (o & w' & -> & Hcases). cbn [snd].
  destruct Hcases as [(evs & tail & Ht & He & Htail & _)|
    (cids & cerr & pin_evs & r & tail & Hall & _ & Ht & Htail & _ & Hrest)].
  - exists (evs ++ tail). split; [exact Ht|]. intros e Hin. exfalso.
    apply in_app_or in Hin as [Hin|Hin].
    + destruct (loop_events_quiet false evs He) as (_ & _ & _ & _ & Hnc).
      exact (Hnc e Hin).
    + apply (In_tail _ _ Htail) in Hin. discriminate Hin.
  - eexists. split; [exact Ht|]. intros e Hin.
    assert (Hclose : forallb is_closing_event (pin_evs ++ tail) = true).
    { rewrite forallb_app. apply andb_true_intro.
      split; [|destruct Htail as [-> | ->]; reflexivity].
      destruct cerr as [e'|]; [destruct Hrest as (_ & -> & _); reflexivity|].
      destruct Hrest as (_ & Hrest).
      destruct (opt_pin req); [|destruct Hrest as (_ & -> & _); reflexivity].
      destruct Hrest as [(_ & -> & _)|(ferr & _ & -> & _)];
        [reflexivity|apply pin_phase_closing]. }
    assert (e = cerr) as ->.
    { apply in_app_or in Hin as [Hin|Hin].
      - exfalso. destruct (request_events_quiet env req) as (Hnc & _).
        exact (Hnc e Hin).
      - destruct Hin as [Hin|[Hin|Hin]]; [discriminate Hin|congruence|].
        exfalso. exact (closing_not_commit _ e Hclose Hin). }
    split; [exact Hall|]. exists (pin_evs ++ tail). split; [reflexivity|exact Hclose].
Qed.


Lemma pinned_of_pin_phase cs ferr : pinned_of (pin_phase cs ferr) = cs.
Proof.
  unfold pin_phase. cbn [app pinned_of].
  rewrite pinned_of_app, pinned_of_pin_events. cbn. apply app_nil_r.
Qed.

Lemma elem_of_request_roots env req (cids : gset string) c :
  cids = list_to_set (request_roots env req) ->
  c ∈ cids <-> In c (request_roots env req).
Proof. intros ->. rewrite elem_of_list_to_set. apply list_elem_of_In. Qed.

Lemma pinned_of_tail tail : tail = [EvClose] \/ tail = [] -> pinned_of tail = [].
Proof. intros [-> | ->]; reflexivity. Qed.

(** X16.  [dag put] pins the roots it has sent and nothing else.  The
    CIDs handed to [PinWithMode] in a run are pairwise distinct, also when
    two units have the same root; each of them was sent on the result
    channel and ends up [Recursive] in the pin set; and the entry of every
    other CID in the pin set is as it was before the run. *)
Theorem DagPut_pins_only_roots_once (env : Env) (req : PutRequest) (w : World) :
  exists evs,
    trace (snd (DagPutCmd_Run env req w)) = trace w ++ evs /\
    NoDup (pinned_of evs) /\
    (forall c, In c (pinned_of evs) ->
       In c (sent_of evs) /\ In (EvPinWithMode c Recursive) evs /\
       pins (snd (DagPutCmd_Run env req w)) !! c = Some Recursive) /\
    (forall c, ~ In c (pinned_of evs) ->
       pins (snd (DagPutCmd_Run env req w)) !! c = pins w !! c).
Proof.
  destruct (DagPutCmd_Run_ways env req w) as (o & w' & -> & Hcases). cbn [snd].
  destruct Hcases as [(evs & tail & Ht & He & Htail & (Hp & _) & _)|
    (cids & cerr & pin_evs & r & tail & _ & Hcids & Ht & Htail & _ & Hrest)].
  - exists (evs ++ tail). split; [exact Ht|].
    assert (Hnone : pinned_of (evs ++ tail) = []).
    { rewrite pinned_of_app, (pinned_of_loop _ He), (pinned_of_tail _ Htail). reflexivity. }
    rewrite Hnone. split; [constructor|]. split; [intros c []|].
    intros c _. rewrite Hp. reflexivity.
  - destruct (request_events_quiet env req) as (_ & _ & Hpn & Hsent).
    eexists. split; [exact Ht|].
    rewrite !pinned_of_app, Hpn, (pinned_of_tail _ Htail). cbn [app pinned_of].
    rewrite app_nil_r.
    assert (Hquiet : pin_evs = [] -> same_pins w w' ->
              NoDup (pinned_of pin_evs) /\
              (forall c, In c (pinned_of pin_evs) ->
                 In c (sent_of (request_events env req ++
                                [EvNextFile; EvCommit cerr] ++ pin_evs ++ tail)) /\
                 In (EvPinWithMode c Recursive)
                    (request_events env req ++
                     [EvNextFile; EvCommit cerr] ++ pin_evs ++ tail) /\
                 pins w' !! c = Some Recursive) /\
              (forall c, ~ In c (pinned_of pin_evs) -> pins w' !! c = pins w !! c)).
    { intros -> (Hp & _). cbn [pinned_of]. split; [constructor|].
      split; [intros c []|]. intros c _. rewrite Hp. reflexivity. }
    destruct cerr as [e|]; [destruct Hrest as (_ & Hnil & Hsp); auto|].
    destruct Hrest as (_ & Hrest).
    destruct (opt_pin req); [|destruct Hrest as (_ & Hnil & Hsp); auto].
    destruct Hrest as [(_ & Hnil & Hsp)|(ferr & _ & -> & _ & Hpins & _)]; [auto|].
    rewrite pinned_of_pin_phase.
    split; [apply NoDup_elements|]. split.
    + intros c Hin. apply list_elem_of_In, elem_of_elements in Hin.
      split; [|split].
      * rewrite sent_of_app, Hsent. apply in_or_app. left.
        apply (elem_of_request_roots env req cids c Hcids), Hin.
      * apply in_or_app. right. right. right. apply in_or_app. left.
        unfold pin_phase. apply in_or_app. right. apply in_or_app. left.
        apply in_map_iff. exists c. split; [reflexivity|].
        apply list_elem_of_In, elem_of_elements, Hin.
      * rewrite Hpins, decide_True by exact Hin. reflexivity.
    + intros c Hnin. rewrite Hpins, decide_False; [reflexivity|].
      intros Hin. apply Hnin, list_elem_of_In, elem_of_elements, Hin.
Qed.

(** X17.  [dag put] takes the pin lock at most once, only when asked to
    pin and only after the whole input was staged and [Commit] has
    succeeded; between [PinLock] and [Unlock] it does nothing but pin and
    flush, and it unlocks before the channel is closed.  Nothing is read,
    parsed, staged, sent or committed while the lock is held. *)
Theorem DagPut_lock_only_around_pins (env : Env) (req : PutRequest) (w : World) :
  exists evs,
    trace (snd (DagPutCmd_Run env req w)) = trace w ++ evs /\
    (~ In EvPinLock evs \/
     opt_pin req = true /\
     exists cs ferr,
       evs = request_events env req ++ [EvNextFile; EvCommit None] ++
             [EvPinLock] ++ map (fun c => EvPinWithMode c Recursive) cs ++
             [EvFlush ferr; EvUnlock; EvClose] /\
       ~ In EvPinLock (request_events env req)).
Proof.
  destruct (DagPutCmd_Run_ways env req w) as (o & w' & -> & Hcases). cbn [snd].
  destruct (request_events_quiet env req) as (_ & Hnl & _).
  destruct Hcases as [(evs & tail & Ht & He & Htail & _)|
    (cids & cerr & pin_evs & r & tail & _ & _ & Ht & Htail & _ & Hrest)].
  - exists (evs ++ tail). split; [exact Ht|]. left. intros Hin.
    apply in_app_or in Hin as [Hin|Hin].
    + destruct (loop_events_quiet false evs He) as (_ & _ & _ & Hl & _). exact (Hl Hin).
    + apply (In_tail _ _ Htail) in Hin. discriminate Hin.
  - eexists. split; [exact Ht|].
    assert (Hquiet : pin_evs = [] ->
              ~ In EvPinLock (request_events env req ++
                              [EvNextFile; EvCommit cerr] ++ pin_evs ++ tail)).
    { intros -> Hin. apply in_app_or in Hin as [Hin|Hin]; [exact (Hnl Hin)|].
      destruct Hin as [Hin|[Hin|Hin]]; [discriminate Hin..|].
      apply (In_tail _ _ Htail) in Hin. discriminate Hin. }
    destruct cerr as [e|]; [destruct Hrest as (_ & Hnil & _); auto|].
    destruct Hrest as (_ & Hrest).
    destruct (opt_pin req); [|destruct Hrest as (_ & Hnil & _); auto].
    destruct Hrest as [(_ & Hnil & _)|(ferr & _ & -> & -> & _)]; [auto|].
    right. split; [reflexivity|]. exists (elements cids), ferr.
    split; [|exact Hnl]. unfold pin_phase. rewrite <- !app_assoc. reflexivity.
Qed.

(** X18.  What a nil result of [dag put] promises when the request was not
    cancelled: every input unit was read and parsed, every node of every
    parse is in the store, and with pin=true every unit's root is pinned
    [Recursive] in the pin set and in its durable copy. *)
Theorem DagPut_success_means_stored_and_pinned (env : Env) (req : PutRequest)
    (w w' : World) :
  (forall w0, ctx_done (select_env env w0) = false) ->
  DagPutCmd_Run env req w = (Next (Returned None), w') ->
  request_complete env req /\
  (forall nd, In nd (request_nodes env req) -> is_Some (store w' !! Node_Cid nd)) /\
  (opt_pin req = true ->
   forall c, In c (request_roots env req) ->
     pins w' !! c = Some Recursive /\ durable_pins w' !! c = Some Recursive).
Proof.
  intros Hctx Hrun.
  destruct (DagPutCmd_Run_ways env req w) as (o & w'' & Hrun' & Hcases).
  rewrite Hrun in Hrun'. injection Hrun' as <- <-.
  destruct Hcases as [(evs & tail & _ & _ & _ & _ & Hdone)|
    (cids & cerr & pin_evs & r & tail & Hall & Hcids & _ & _ & Ho & Hrest)].
  - destruct (Hdone eq_refl) as (w0 & Hw0). rewrite Hctx in Hw0. discriminate Hw0.
  - assert (r = Returned None) as ->.
    { destruct Ho as [Ho|(e & Ho)]; [|discriminate Ho]. congruence. }
    destruct cerr as [e|]; [destruct Hrest as (Hr & _); discriminate Hr|].
    destruct Hrest as (Hst & Hrest).
    split; [exact Hall|]. split; [exact Hst|].
    intros Hpin c Hin. rewrite Hpin in Hrest.
    destruct Hrest as [(Hr & _)|(ferr & Hr & _ & _ & Hpins & _ & Hdur)];
      [discriminate Hr|].
    injection Hr as <-.
    rewrite Hdur, Hpins, decide_True; [auto|].
    apply (elem_of_request_roots env req cids c Hcids), Hin.
Qed.

Lemma DagPut_success_means_stored_and_pinned_witness :
  request_complete quiet_env
    (sample_request true "" [sample_file "d1" [x61; x62]; sample_file "d2" [x63]]) /\
  (forall nd,
     In nd (request_nodes quiet_env
              (sample_request true "" [sample_file "d1" [x61; x62]; sample_file "d2" [x63]])) ->
     is_Some (store (snd (DagPutCmd_Run quiet_env
                            (sample_request true ""
                               [sample_file "d1" [x61; x62]; sample_file "d2" [x63]])
                            (initial ∅ ∅))) !! Node_Cid nd)) /\
  (opt_pin (sample_request true "" [sample_file "d1" [x61; x62]; sample_file "d2" [x63]]) =
     true ->
   forall c,
     In c (request_roots quiet_env
             (sample_request true "" [sample_file "d1" [x61; x62]; sample_file "d2" [x63]])) ->
     pins (snd (DagPutCmd_Run quiet_env
                  (sample_request true ""
                     [sample_file "d1" [x61; x62]; sample_file "d2" [x63]])
                  (initial ∅ ∅))) !! c = Some Recursive /\
     durable_pins (snd (DagPutCmd_Run quiet_env
                          (sample_request true ""
                             [sample_file "d1" [x61; x62]; sample_file "d2" [x63]])
                          (initial ∅ ∅))) !! c = Some Recursive).
Proof.
  apply (DagPut_success_means_stored_and_pinned quiet_env
           (sample_request true "" [sample_file "d1" [x61; x62]; sample_file "d2" [x63]])
           (initial ∅ ∅)).
  - intros w0. reflexivity.
  - vm_compute. reflexivity.
Defined.

(** X19.  When the loop of [addAllAndPin] has staged a unit, the result
    channel is full and the request context is not done, the call parks on
    the send: it does not return, the value in flight is not sent, no
    further input is read, and nothing is committed or pinned.  The
    deferred calls of the caller stay pending.  The store holds what it
    held and, beyond that, at most nodes of the units worked so far. *)
Theorem addAllAndPin_parks_when_full (env : Env) (ienc format : string)
    (mhType : Z) (dopin : bool) (f1 f2 : list (error + File)) (file : File)
    (w : World) (st1 : gset string * gmap string Node) (w1 : World)
    (nd0 : Node) (nds : list Node) (b2 : gmap string Node) (w2 : World) :
  put_units env ienc format mhType f1 (∅, NewBatch) (enter w) = (Next st1, w1) ->
  ParseInputs env ienc format file mhType (-1) = inr (nd0 :: nds) ->
  add_nodes env (nd0 :: nds) (snd st1)
    (record (EvParseInputs file) (record EvNextFile w1)) = (Next b2, w2) ->
  (outChan_cap <= length (skipn (drained (select_env env w2)) (outChan w2)))%nat ->
  ctx_done (select_env env w2) = false ->
  exists w',
    addAllAndPin env ienc format mhType dopin (f1 ++ inr file :: f2) w =
      (Next Blocks, w') /\
    trace w' = trace w2 /\ defers w' = defers w /\
    store_grown (store w) (parsed_nodes env ienc format mhType f1 ++ nd0 :: nds)
      (store w') /\
    pins w' = pins w /\ durable_pins w' = durable_pins w.
Proof.
  intros Hpre Hparse Hadd Hfull Hdone.
  destruct (put_units_defers _ _ _ _ _ _ _ _ _ Hpre) as (Hf & Hp & Hd & _).
  destruct (add_nodes_defers _ _ _ _ _ _ Hadd) as (Hf2 & Hp2 & Hd2 & _).
  destruct (put_units_store env ienc format mhType _ _ _ _ _ (store w) [] Hpre
              (staged_nil _) (store_grown_refl _ _)) as (Hg1 & Hb1).
  specialize (Hb1 st1 eq_refl). cbn [app] in Hg1, Hb1.
  destruct (add_nodes_store env _ _ _ _ _ (store w) _ Hadd Hb1 Hg1) as (Hg2 & _).
  cbn in Hf, Hp, Hd, Hf2, Hp2, Hd2.
  unfold addAllAndPin, func, put_loop, bind.
  rewrite put_units_app. change (set_defers [] w) with (enter w). rewrite Hpre.
  cbn [put_units]. unfold bind, put_unit, bind, log, ret, coredag_ParseInputs.
  cbv beta iota zeta. rewrite Hparse, Hadd.
  unfold select_outChan. cbv beta iota zeta.
  apply Nat.ltb_ge in Hfull. rewrite Hfull, Hdone.
  eexists. split; [reflexivity|].
  cbn. split; [congruence|]. split; [congruence|]. split; [exact Hg2|].
  split; congruence.
Qed.

Lemma addAllAndPin_parks_when_full_witness :
  exists w',
    addAllAndPin parked_env "json" "cbor" MaxUint64 true
      (eight_files ++ inr ninth_file :: [sample_file "f" [x6a]]) (initial ∅ ∅) =
      (Next Blocks, w') /\
    trace w' = trace (snd ninth_staged_parked) /\ defers w' = defers (initial ∅ ∅) /\
    store_grown (store (initial ∅ ∅))
      (parsed_nodes parked_env "json" "cbor" MaxUint64 eight_files ++ byte_node x69 :: [])
      (store w') /\
    pins w' = pins (initial ∅ ∅) /\
    durable_pins w' = durable_pins (initial ∅ ∅).
Proof.
  apply (addAllAndPin_parks_when_full parked_env "json" "cbor" MaxUint64 true
           eight_files [sample_file "f" [x6a]] ninth_file (initial ∅ ∅)
           (fst (after_units parked_env eight_files (initial ∅ ∅)))
           (snd (after_units parked_env eight_files (initial ∅ ∅)))
           (byte_node x69) [] (fst ninth_staged_parked)).
  - vm_compute. reflexivity.
  - reflexivity.
  - vm_compute. reflexivity.
  - vm_compute. lia.
  - reflexivity.
Defined.



(** * Further properties: [urlstore add] *)

Ltac url_trace :=
  cbn [trace record set_defers set_pins set_pin_locked set_durable_pins
       defers fold_left run_deferred pin_locked pins durable_pins fst snd];
  rewrite <- ?app_assoc.

(** X21.  [urlstore add] goes to the network at most once, and only
    behind its guards: a run performs an HTTP request only if the address
    is a URL and the urlstore is enabled in the configuration; the request
    is the [GET] of that address, it is the first thing the run does, and
    it is not repeated.  A run stopped by a guard does nothing at all. *)
Theorem UrlAdd_one_GET_behind_the_guards (env : Env) (k : UrlConsts) (url : string)
    (useTrickledag dopin : bool) (w : World) :
  exists evs,
    trace (snd (urlAdd_Run env k url useTrickledag dopin w)) = trace w ++ evs /\
    (evs = [] \/
     exists hreq rest,
       evs = EvHTTPDo hreq :: rest /\
       (forall r, ~ In (EvHTTPDo r) rest) /\
       IsURL env url = true /\
       (exists cfg, Repo_Config env = inr cfg /\ UrlstoreEnabled cfg = true) /\
       NewRequest env "GET" url = inr hreq).
Proof.
  unfold_urlAdd. run_cases.
  all: url_trace.
  all: try (exists []; split; [symmetry; apply app_nil_r|left; reflexivity]).
  all: eexists; (split; [reflexivity|]); right; eexists _, _; (split; [reflexivity|]).
  all: repeat match goal with
              | H : negb _ = false |- _ => apply negb_false_iff in H
              end.
  all: split; [intros ? Hin; cbn in Hin;
               repeat (destruct Hin as [Hin|Hin]; [discriminate Hin|]); exact Hin|].
  all: split; [assumption|]. all: split; [eexists; split; [reflexivity|assumption]|].
  all: reflexivity.
Qed.

(** X22.  The guards of [urlstore add], with the node at hand: an address
    that is not a URL is refused with "unsupported url syntax: <url>"; a
    failure to read the configuration is returned as it is; and with the
    urlstore switched off the run returns
    [filestore.ErrUrlstoreNotEnabled].  In each case the state is exactly
    as before the run. *)
Theorem UrlAdd_guards_abort_untouched (env : Env) (k : UrlConsts) (url : string)
    (useTrickledag dopin : bool) (w : World) :
  GetNode env = inr tt ->
  (IsURL env url = false ->
   urlAdd_Run env k url useTrickledag dopin w =
     (Next (Returned (Some (ErrUnsupportedURL url))), w) /\
   Error (ErrUnsupportedURL url) = "unsupported url syntax: " +:+ url) /\
  (IsURL env url = true ->
   forall e, Repo_Config env = inl e ->
   urlAdd_Run env k url useTrickledag dopin w = (Next (Returned (Some e)), w)) /\
  (IsURL env url = true ->
   forall cfg, Repo_Config env = inr cfg -> UrlstoreEnabled cfg = false ->
   urlAdd_Run env k url useTrickledag dopin w =
     (Next (Returned (Some (ErrUrlstoreNotEnabled k))), w)).
Proof.
  intros Hnode. unfold_urlAdd. rewrite Hnode.
  split; [|split].
  - intros ->. cbn. destruct w. split; reflexivity.
  - intros -> e ->. cbn. destruct w. reflexivity.
  - intros -> cfg -> ->. cbn. destruct w. reflexivity.
Qed.

Lemma UrlAdd_guards_abort_untouched_witness :
  urlAdd_Run disabled_env sample_consts "ftp://example.org/a" false true (initial ∅ ∅) =
    (Next (Returned (Some (errorString "unsupported url syntax: ftp://example.org/a"))),
     initial ∅ ∅) /\
  urlAdd_Run disabled_env sample_consts "http://example.org/a" false true (initial ∅ ∅) =
    (Next (Returned (Some (errorString "urlstore is not enabled"))), initial ∅ ∅).
Proof.
  split.
  - exact (proj1 (proj1 (UrlAdd_guards_abort_untouched disabled_env sample_consts
                           "ftp://example.org/a" false true (initial ∅ ∅) eq_refl)
                        eq_refl)).
  - exact (proj2 (proj2 (UrlAdd_guards_abort_untouched disabled_env sample_consts
                           "http://example.org/a" false true (initial ∅ ∅) eq_refl))
                 eq_refl (mkConfig false) eq_refl eq_refl).
Defined.

(** X23.  What a nil result of [urlstore add] promises: the [GET] was
    answered with status 200; the layout chosen by the trickle flag was
    built over the response body with raw leaves, no copying, the default
    block size and links per block, and the URL; the one record emitted
    carries the CID of the root of that layout; and with pin=true exactly
    that root was added to the pin set as [Recursive] and the pin set was
    flushed, while with pin=false the pin set is untouched. *)
Theorem UrlAdd_success_is_complete (env : Env) (k : UrlConsts) (url : string)
    (useTrickledag dopin : bool) (w w' : World) :
  urlAdd_Run env k url useTrickledag dopin w = (Next (Returned None), w') ->
  exists hreq hres root evs,
    NewRequest env "GET" url = inr hreq /\
    Client_Do env hreq = inr hres /\
    StatusCode hres = 200%Z /\
    url_layout env useTrickledag (url_params env k url) (DefaultBlockSize env)
      (Body hres) = inr root /\
    trace w' = trace w ++ evs /\
    In (EvLayout useTrickledag (url_params env k url)) evs /\
    emitted_of evs = [ {| Key := Cid_String env (Node_Cid root);
                          Size := to_int (ContentLength hres) |} ] /\
    (if dopin
     then pins w' = <[Node_Cid root := Recursive]> (pins w) /\
          durable_pins w' = pins w' /\ pin_locked w' = false
     else same_pins w w').
Proof.
  unfold_urlAdd. unfold url_layout, url_params, same_pins.
  destruct (GetNode env) as [e|n]; [discriminate|].
  destruct (IsURL env url); [|discriminate]. cbn [negb].
  destruct (Repo_Config env) as [e|cfg]; [discriminate|].
  destruct (UrlstoreEnabled cfg); [|discriminate]. cbn [negb].
  destruct (NewRequest env "GET" url) as [e|hreq] eqn:Ereq; [discriminate|].
  destruct (Client_Do env hreq) as [e|hres] eqn:Edo; [discriminate|].
  destruct (Z.eqb_spec (StatusCode hres) StatusOK) as [Hcode|]; [|discriminate].
  cbn [negb].
  destruct dopin, useTrickledag; cbv beta iota zeta.
  all: cbn [pin_locked record set_defers].
  all: try (destruct (pin_locked w) eqn:Elock; [discriminate|]; cbv beta iota zeta).
  all: match goal with
       | |- context [match ?l ?p ?s ?b with _ => _ end] =>
           destruct (l p s b) as [e|root] eqn:Elayout; [discriminate|]
       end.
  all: cbv beta iota zeta.
  all: repeat match goal with
              | |- context [match Pinning_Flush_err ?en ?x with _ => _ end] =>
                  destruct (Pinning_Flush_err en x); [discriminate|]
              | |- context [match EmitOnce_err ?en ?x with _ => _ end] =>
                  destruct (EmitOnce_err en x); [discriminate|]
              end.
  all: intros [= <-]; url_trace.
  all: exists hreq, hres, root; eexists.
  all: split; [reflexivity|]; split; [exact Edo|]; split; [exact Hcode|].
  all: split; [exact Elayout|]; split; [reflexivity|].
  all: split; [cbn; auto 10|]; split; [reflexivity|]; cbn; auto.
Qed.

Lemma UrlAdd_success_is_complete_witness :
  exists hreq hres root evs,
    NewRequest quiet_env "GET" "http://example.org/a" = inr hreq /\
    Client_Do quiet_env hreq = inr hres /\
    StatusCode hres = 200%Z /\
    url_layout quiet_env true (url_params quiet_env sample_consts "http://example.org/a")
      (DefaultBlockSize quiet_env) (Body hres) = inr root /\
    trace (snd (urlAdd_Run quiet_env sample_consts "http://example.org/a" true true
                  (initial ∅ ∅))) = trace (initial ∅ ∅) ++ evs /\
    In (EvLayout true (url_params quiet_env sample_consts "http://example.org/a")) evs /\
    emitted_of evs = [ {| Key := Cid_String quiet_env (Node_Cid root);
                          Size := to_int (ContentLength hres) |} ] /\
    (pins (snd (urlAdd_Run quiet_env sample_consts "http://example.org/a" true true
                  (initial ∅ ∅))) = <[Node_Cid root := Recursive]> (pins (initial ∅ ∅)) /\
     durable_pins (snd (urlAdd_Run quiet_env sample_consts "http://example.org/a" true true
                          (initial ∅ ∅))) =
       pins (snd (urlAdd_Run quiet_env sample_consts "http://example.org/a" true true
                    (initial ∅ ∅))) /\
     pin_locked (snd (urlAdd_Run quiet_env sample_consts "http://example.org/a" true true
                        (initial ∅ ∅))) = false).
Proof.
  apply (UrlAdd_success_is_complete quiet_env sample_consts "http://example.org/a"
           true true (initial ∅ ∅)).
  vm_compute. reflexivity.
Defined.



(** X25.  With pin=true [urlstore add] takes the pin lock before it
    builds the layout and keeps it until it returns: the layout, the pin,
    the flush and the emitted record all happen under the lock.  With
    pin=false it never touches the lock or the pin set. *)
Theorem UrlAdd_lock_spans_the_work (env : Env) (k : UrlConsts) (url : string)
    (useTrickledag dopin : bool) (w : World) :
  exists evs,
    trace (snd (urlAdd_Run env k url useTrickledag dopin w)) = trace w ++ evs /\
    (dopin = true -> under_lock is_url_work false evs = true) /\
    (dopin = false ->
     forallb (fun ev => negb (is_lock_event ev) && negb (is_pin_mutation ev)) evs = true /\
     same_pins w (snd (urlAdd_Run env k url useTrickledag dopin w))).
Proof.
  unfold_urlAdd. unfold same_pins. run_cases.
  all: url_trace.
  all: try (exists []; split; [symmetry; apply app_nil_r|];
            split; [reflexivity|]; intros _; cbn; auto).
  all: eexists; (split; [reflexivity|]).
  all: split; [try discriminate; reflexivity|].
  all: try discriminate; intros _; cbn; auto.
Qed.


(** * Further properties: [dag resolve] *)

Lemma strings_Join_cons e rest sep :
  rest <> [] -> strings_Join (e :: rest) sep = e +:+ sep +:+ strings_Join rest sep.
Proof. destruct rest; [intros H; destruct H; reflexivity|reflexivity]. Qed.

(** X27.  What 'dag resolve' prints is the path made of the CID of the
    last node and the segments that remain.  When the path parses and
    resolves, [Run] emits one value; its text is the CID followed by a
    slash and the joined remainder, which is [path.Join] of the CID and
    the segments; and when the remainder joins to the empty string the
    text is the CID alone, without a trailing slash. *)
Theorem DagResolve_prints_path (GetNode : error + unit)
    (ParsePath : string -> error + string)
    (ResolveToLastNode : string -> error + Cid * list string)
    (Emit_err : ResolveOutput -> option error) (Cid_String : Cid -> string)
    (ref p : string) (lastCid : Cid) (rem : list string) :
  GetNode = inr tt ->
  ParsePath ref = inr p ->
  ResolveToLastNode p = inr (lastCid, rem) ->
  exists out,
    DagResolveCmd_Run GetNode ParsePath ResolveToLastNode Emit_err ref =
      (Emit_err out, [out]) /\
    ResolveOutput_Cid out = lastCid /\
    DagResolveCmd_Text Cid_String out =
      (if String.eqb (path_Join rem) EmptyString then Cid_String lastCid
       else Cid_String lastCid +:+ "/" +:+ path_Join rem) /\
    (rem = [] \/ path_Join rem <> EmptyString ->
     DagResolveCmd_Text Cid_String out = path_Join (Cid_String lastCid :: rem)).
Proof.
  intros Hnode Hparse Hres. unfold DagResolveCmd_Run. rewrite Hnode, Hparse, Hres.
  eexists. split; [reflexivity|]. split; [reflexivity|].
  unfold DagResolveCmd_Text. cbn [ResolveOutput_Cid RemPath].
  destruct (String.eqb_spec (path_Join rem) EmptyString) as [E|E]; cbn [negb].
  - split; [reflexivity|]. intros [->|H]; [reflexivity|contradiction].
  - split; [reflexivity|]. intros _. unfold path_Join at 3.
    rewrite strings_Join_cons; [reflexivity|]. intros ->. apply E. reflexivity.
Qed.

Lemma DagResolve_prints_path_witness :
  exists out,
    DagResolveCmd_Run (inr tt) (fun s => inr s)
      (fun _ => inr ("QmRoot", ["a"; "b"])) (fun _ => None) "/ipfs/QmRoot/a/b" =
      (None, [out]) /\
    ResolveOutput_Cid out = "QmRoot" /\
    DagResolveCmd_Text (fun c => c) out = "QmRoot/a/b" /\
    (["a"; "b"] = [] \/ path_Join ["a"; "b"] <> EmptyString ->
     DagResolveCmd_Text (fun c => c) out = path_Join ["QmRoot"; "a"; "b"]).
Proof.
  apply (DagResolve_prints_path (inr tt) (fun s => inr s)
           (fun _ => inr ("QmRoot", ["a"; "b"])) (fun _ => None) (fun c => c)
           "/ipfs/QmRoot/a/b" "/ipfs/QmRoot/a/b" "QmRoot" ["a"; "b"]);
    reflexivity.
Defined.

(** * Further properties: the swarm API *)

Section SwarmFacts.
Import coreapi.
Variable k : IfaceErrors.
Variable ParseMultiaddr : Multiaddr -> error + IPFSAddr.

Lemma close_matching_spec taddr conns :
  match close_matching taddr conns with
  | None => Forall (fun c => Equal (RemoteMultiaddr c) taddr = false) conns
  | Some r =>
      exists pre c post,
        conns = pre ++ c :: post /\
        Forall (fun c => Equal (RemoteMultiaddr c) taddr = false) pre /\
        Equal (RemoteMultiaddr c) taddr = true /\
        r = (Close_err c, [EvConnClose c])
  end.
Proof.
  induction conns as [|conn rest IH]; cbn [close_matching]; [constructor|].
  destruct (Equal (RemoteMultiaddr conn) taddr) eqn:E; cbn [negb].
  - exists [], conn, rest. split; [reflexivity|]. split; [constructor|]. auto.
  - destruct (close_matching taddr rest) as [r|].
    + destruct IH as (pre & c & post & -> & Hpre & Hc & ->).
      exists (conn :: pre), c, post. split; [reflexivity|].
      split; [constructor; assumption|]. auto.
    + constructor; assumption.
Qed.

(** X28.  [Disconnect] from a transport address closes at most one
    connection: the first connection to the peer whose remote address
    equals the one given, and its [Close] decides the result; connections
    behind it stay open even when they match.  When no connection to the
    peer has that address nothing is closed and the result is
    [ErrConnNotFound]. *)
Theorem Disconnect_closes_first_match (api : SwarmAPI) (addr : Multiaddr)
    (net : Network) (ia : IPFSAddr) (taddr : Multiaddr) :
  PeerHost api = Some net ->
  ParseMultiaddr addr = inr ia ->
  Transport ia = Some taddr ->
  (Forall (fun c => Equal (RemoteMultiaddr c) taddr = false)
          (ConnsToPeer net (IPFSAddr_ID ia)) /\
   Disconnect k ParseMultiaddr api addr = (Some (ErrConnNotFound k), [])) \/
  (exists pre c post,
     ConnsToPeer net (IPFSAddr_ID ia) = pre ++ c :: post /\
     Forall (fun c => Equal (RemoteMultiaddr c) taddr = false) pre /\
     Equal (RemoteMultiaddr c) taddr = true /\
     Disconnect k ParseMultiaddr api addr = (Close_err c, [EvConnClose c])).
Proof.
  intros Hhost Hparse Ht. unfold Disconnect. rewrite Hhost, Hparse, Ht.
  pose proof (close_matching_spec taddr (ConnsToPeer net (IPFSAddr_ID ia))) as H.
  destruct (close_matching taddr (ConnsToPeer net (IPFSAddr_ID ia))) as [r|].
  - right. destruct H as (pre & c & post & Hc & Hpre & Hm & ->). eauto 10.
  - left. auto.
Qed.

End SwarmFacts.

Lemma Disconnect_closes_first_match_witness :
  coreapi.Disconnect sample_errors sample_parse_addr
    (coreapi.mkSwarmAPI (Some sample_network)) addr_b =
    (Some (errorString "reset"),
     [coreapi.EvConnClose (coreapi.mkConn "p" addr_b (Some (errorString "reset")))]) /\
  ((Forall (fun c => coreapi.Equal (coreapi.RemoteMultiaddr c) addr_b = false)
           (coreapi.ConnsToPeer sample_network "p") /\
    coreapi.Disconnect sample_errors sample_parse_addr
      (coreapi.mkSwarmAPI (Some sample_network)) addr_b =
      (Some (coreapi.ErrConnNotFound sample_errors), [])) \/
   (exists pre c post,
      coreapi.ConnsToPeer sample_network "p" = pre ++ c :: post /\
      Forall (fun c => coreapi.Equal (coreapi.RemoteMultiaddr c) addr_b = false) pre /\
      coreapi.Equal (coreapi.RemoteMultiaddr c) addr_b = true /\
      coreapi.Disconnect sample_errors sample_parse_addr
        (coreapi.mkSwarmAPI (Some sample_network)) addr_b =
        (coreapi.Close_err c, [coreapi.EvConnClose c]))).
Proof.
  split; [reflexivity|].
  apply (Disconnect_closes_first_match sample_errors sample_parse_addr
           (coreapi.mkSwarmAPI (Some sample_network)) addr_b sample_network
           (coreapi.mkIPFSAddr (Some addr_b) "p") addr_b); reflexivity.
Defined.

Section KnownAddrsFacts.
Import coreapi.
Variable k : IfaceErrors.
Variable sort_Slice : (Multiaddr -> Multiaddr -> bool) -> list Multiaddr -> list Multiaddr.
Hypothesis sort_Slice_sorts : forall l,
  Permutation l (sort_Slice addr_less l) /\ addrs_sorted (sort_Slice addr_less l).

Lemma append_addrs_lookup p al (m : gmap string (list Multiaddr)) q :
  append_addrs p al m !! q =
  if decide (q = p)
  then match al with
       | [] => m !! p
       | _ => Some (default [] (m !! p) ++ al)
       end
  else m !! q.
Proof.
  unfold append_addrs. revert m. induction al as [|a al IH]; intros m; cbn [fold_left].
  - destruct (decide (q = p)) as [->|]; reflexivity.
  - rewrite IH. destruct (decide (q = p)) as [->|Hne].
    + rewrite lookup_insert_eq. cbn [default from_option id].
      destruct al; [reflexivity|]. rewrite <- app_assoc. reflexivity.
    + apply lookup_insert_ne. congruence.
Qed.

(** What the loop of [KnownAddrs] has built after the peers [done]. *)
Lemma known_peers_inv ps (done l : list peer.ID) (m : gmap string (list Multiaddr)) :
  (forall p, match m !! p with
             | None => count_occ string_dec done p = 0%nat \/ Addrs ps p = []
             | Some al =>
                 (0 < count_occ string_dec done p)%nat /\ Addrs ps p <> [] /\
                 addrs_sorted al /\
                 Permutation al (concat (repeat (Addrs ps p) (count_occ string_dec done p)))
             end) ->
  forall p, match fold_left (known_peer sort_Slice ps) l m !! p with
            | None => count_occ string_dec (done ++ l) p = 0%nat \/ Addrs ps p = []
            | Some al =>
                (0 < count_occ string_dec (done ++ l) p)%nat /\ Addrs ps p <> [] /\
                addrs_sorted al /\
                Permutation al
                  (concat (repeat (Addrs ps p) (count_occ string_dec (done ++ l) p)))
            end.
Proof.
  revert done m. induction l as [|p0 l IH]; intros done m Hinv; cbn [fold_left].
  - rewrite app_nil_r. exact Hinv.
  - replace (done ++ p0 :: l) with ((done ++ [p0]) ++ l)
      by (rewrite <- app_assoc; reflexivity).
    apply IH. clear IH. intros p. specialize (Hinv p).
    unfold known_peer. rewrite lookup_alter, !append_addrs_lookup.
    rewrite count_occ_app. cbn [count_occ]. unfold peer.ID in *.
    destruct (decide (p0 = p)) as [->|Hne].
    + rewrite ?decide_True by reflexivity.
      destruct (string_dec p p) as [_|Hn]; [|destruct Hn; reflexivity].
      destruct (Addrs ps p) as [|a al] eqn:Ea.
      * destruct (m !! p) as [old|]; cbn; [|auto].
        destruct Hinv as (_ & Hn & _). destruct Hn. reflexivity.
      * cbn [fmap option_fmap option_map].
        destruct (sort_Slice_sorts (default [] (m !! p) ++ a :: al)) as (Hperm & Hsorted).
        split; [lia|]. split; [discriminate|]. split; [exact Hsorted|].
        rewrite <- Hperm.
        replace (count_occ string_dec done p + 1)%nat
          with (S (count_occ string_dec done p)) by lia.
        cbn [repeat concat]. rewrite Permutation_app_comm.
        apply Permutation_app_head.
        destruct (m !! p) as [old|]; cbn [default from_option id].
        -- destruct Hinv as (_ & _ & _ & H). exact H.
        -- destruct Hinv as [->|H]; [reflexivity|discriminate H].
    + rewrite ?decide_False by congruence.
      destruct (string_dec p0 p) as [E|_]; [destruct (Hne E)|].
      rewrite Nat.add_0_r. exact Hinv.
Qed.

(** X29.  [KnownAddrs] maps every peer of the peerstore that has
    addresses to all of them, sorted by their text form; a peer without
    addresses has no entry, and neither has any other ID.  A peer that the
    peerstore lists more than once has each of its addresses as many
    times. *)
Theorem KnownAddrs_sorted_addresses (api : SwarmAPI) (net : Network)
    (m : gmap string (list Multiaddr)) (p : peer.ID) :
  PeerHost api = Some net ->
  KnownAddrs k sort_Slice api = inr m ->
  match m !! p with
  | None => ~ In p (Peers (Network_Peerstore net)) \/ Addrs (Network_Peerstore net) p = []
  | Some al =>
      In p (Peers (Network_Peerstore net)) /\
      Addrs (Network_Peerstore net) p <> [] /\
      addrs_sorted al /\
      Permutation al
        (concat (repeat (Addrs (Network_Peerstore net) p)
                        (count_occ string_dec (Peers (Network_Peerstore net)) p)))
  end.
Proof.
  intros Hhost. unfold KnownAddrs. rewrite Hhost. intros [= <-].
  pose proof (known_peers_inv (Network_Peerstore net) [] (Peers (Network_Peerstore net)) ∅) as H.
  cbn [app] in H. specialize (H (fun q => ltac:(rewrite lookup_empty; left; reflexivity)) p).
  unfold peer.ID in *.
  match goal with |- match ?x with _ => _ end => destruct x as [al|] end.
  - destruct H as (Hc & Hne & Hs & Hp). split; [|auto].
    apply (count_occ_In string_dec). lia.
  - destruct H as [Hc|Hnil]; [|auto]. left. apply (count_occ_not_In string_dec), Hc.
Qed.

End KnownAddrsFacts.

Lemma addr_le_trans a b c : addr_le a b -> addr_le b c -> addr_le a c.
Proof.
  unfold addr_le, coreapi.addr_less. intros Hab Hbc.
  destruct (String.ltb (coreapi.Multiaddr_String c) (coreapi.Multiaddr_String a)) eqn:Hca;
    [|reflexivity].
  destruct (String.ltb (coreapi.Multiaddr_String a) (coreapi.Multiaddr_String b)) eqn:Hlt.
  - rewrite (string_ltb_trans _ _ _ Hca Hlt) in Hbc. discriminate Hbc.
  - rewrite <- (string_ltb_total _ _ Hlt Hab), Hca in Hbc. discriminate Hbc.
Qed.

Lemma sample_sort_sorts l :
  Permutation l (sample_sort coreapi.addr_less l) /\
  addrs_sorted (sample_sort coreapi.addr_less l).
Proof.
  unfold sample_sort, addrs_sorted. split.
  - symmetry. apply merge_sort_Permutation.
  - apply (@StronglySorted_merge_sort _ addr_le _).
    + intros a b c. apply addr_le_trans.
    + intros a b. unfold addr_le, coreapi.addr_less.
      destruct (String.ltb (coreapi.Multiaddr_String b) (coreapi.Multiaddr_String a)) eqn:E;
        [|left; reflexivity].
      right. apply string_ltb_asym, E.
Qed.

Lemma KnownAddrs_sorted_addresses_witness :
  coreapi.KnownAddrs sample_errors sample_sort (coreapi.mkSwarmAPI (Some sample_network)) =
    inr {[ "p" := [addr_a; addr_a; addr_b; addr_b] ]} /\
  match ({[ "p" := [addr_a; addr_a; addr_b; addr_b] ]}
           : gmap string (list coreapi.Multiaddr)) !! "p" with
  | None =>
      ~ In "p" (coreapi.Peers (coreapi.Network_Peerstore sample_network)) \/
      coreapi.Addrs (coreapi.Network_Peerstore sample_network) "p" = []
  | Some al =>
      In "p" (coreapi.Peers (coreapi.Network_Peerstore sample_network)) /\
      coreapi.Addrs (coreapi.Network_Peerstore sample_network) "p" <> [] /\
      addrs_sorted al /\
      Permutation al
        (concat (repeat (coreapi.Addrs (coreapi.Network_Peerstore sample_network) "p")
                   (count_occ string_dec
                      (coreapi.Peers (coreapi.Network_Peerstore sample_network)) "p")))
  end.
Proof.
  split; [vm_compute; reflexivity|].
  apply (KnownAddrs_sorted_addresses sample_errors sample_sort sample_sort_sorts
           (coreapi.mkSwarmAPI (Some sample_network)) sample_network
           {[ "p" := [addr_a; addr_a; addr_b; addr_b] ]} "p" eq_refl).
  vm_compute. reflexivity.
Defined.
